(** * The QEMU broker of LLVM-MCA-Daemon: translation-block cache,
      disassembler adapter, region tracker, slice queue and fetch engine.

    Shallow embedding of [plugins/qemu-broker/Broker.cpp].  C++ integers are
    [Z] with the wrap-around of their width written out, [SmallVector]s are
    lists read with stdpp's lookup, the [DenseMap] of index skews is a
    [gmap], null-able pointers are [option]s.  Loops whose termination
    depends on the data run on fuel. *)

From Stdlib Require Import ZArith Lia.
From stdpp Require Import base option list gmap strings.

Local Open Scope Z_scope.

(** ** Fixed-width integers *)

Definition wrap (w x : Z) : Z := x mod 2 ^ w.

Definition u8 (x : Z) : Z := wrap 8 x.
Definition u16 (x : Z) : Z := wrap 16 x.
Definition u32 (x : Z) : Z := wrap 32 x.
Definition u64 (x : Z) : Z := wrap 64 x.

(** Conversion to [int]: the low 32 bits read as two's complement. *)
Definition to_int (x : Z) : Z :=
  let r := u32 x in if r <? 2 ^ 31 then r else r - 2 ^ 32.

(** ** Outcomes of the imperative code

    [OutOfFuel] is the model's own: a loop was cut before it left on its
    condition.  [Crash] stands for behaviour the C++ standard leaves
    undefined (a call through a null disassembler, an access past the end
    of a vector).  [Blocked] is the consumer waiting on [QueueCV]. *)

Inductive outcome (A : Type) : Type :=
| Done (a : A)
| OutOfFuel
| Crash
| Blocked.

Arguments Done {A} a.
Arguments OutOfFuel {A}.
Arguments Crash {A}.
Arguments Blocked {A}.

#[global] Instance outcome_ret : MRet outcome := fun A a => Done a.
#[global] Instance outcome_bind : MBind outcome := fun A B f m =>
  match m with
  | Done a => f a
  | OutOfFuel => OutOfFuel
  | Crash => Crash
  | Blocked => Blocked
  end.

(** ** Data model *)

(** [SmallVector<uint8_t, 4>]: bytes, each a [Z] below 256. *)
Definition RawInstTy : Type := list Z.

(** Modelled from the spec: [BinaryRegions.h] is not among the sources.  A
    region is a description and two addresses relative to the load address;
    [tbExec] reads [Description] and [EndAddr], and enters a region through
    [lookup]. *)
Record BinaryRegion : Type := mkBinaryRegion {
  Description : string;
  StartAddr : Z;
  EndAddr : Z
}.

(** Modelled from the spec: the manifest of [BinaryRegions.h] is the list of
    declared regions, in the order of the manifest. *)
Definition BinaryRegions : Type := list BinaryRegion.

(** Modelled from the spec: [BinaryRegions::lookup], which is not among the
    sources, yields the region whose start address is the given one; "on
    conflict the first match wins". *)
Fixpoint lookup_region (BR : BinaryRegions) (addr : Z) : option BinaryRegion :=
  match BR with
  | [] => None
  | r :: rest => if StartAddr r =? addr then Some r else lookup_region rest addr
  end.

(** [mca::MDMemoryAccess], as [tbExec] builds and updates it: a [bool], a
    [uint64_t] address and an [unsigned] size. *)
Record MDMemoryAccess : Type := mkMDMemoryAccess {
  IsStore : bool;
  Addr : Z;
  Size : Z
}.

(** Instruction index in the block and memory access descriptor; "the
    indicies are always sorted". *)
Abbreviation MemoryAccessEntry := (Z * MDMemoryAccess)%type (only parsing).
Abbreviation MemoryAccessChain := (list (Z * MDMemoryAccess)) (only parsing).

(** Modelled from the spec: [Brokers/Broker.h] is not among the sources.
    The region descriptor a fetch returns says whether a region, or the
    stream, ends with what was delivered, and carries the description of
    the region; [fetchRegion] builds it from a flag alone or from a flag
    and a description. *)
Record RegionDescriptor : Type := mkRegionDescriptor {
  IsEnd : bool;
  RegionText : string
}.

Definition NotEndOfRegion : RegionDescriptor := mkRegionDescriptor false EmptyString.
Definition EndOfStream : RegionDescriptor := mkRegionDescriptor true EmptyString.
Definition EndOfRegion (d : string) : RegionDescriptor := mkRegionDescriptor true d.

(** Modelled from the spec: the generated [Serialization/mcad_generated.h]
    is not among the sources.  The messages are those of the wire protocol:
    [Metadata] with the load address, [TranslatedBlock] with an index and
    raw instructions, [ExecTB] with an index, a program counter and
    memory-access records. *)
Record FbMemAccess : Type := mkFbMemAccess {
  fbIndex : Z;
  fbIsStore : bool;
  fbVAddr : Z;
  fbSize : Z
}.

Record ExecTB : Type := mkExecTB {
  etIndex : Z;
  etPC : Z;
  etMemAccesses : list FbMemAccess
}.

Record TranslatedBlock : Type := mkTranslatedBlock {
  tbIndex : Z;
  tbInstructions : list RawInstTy
}.

Inductive Message : Type :=
| Msg_Metadata (LoadAddr : Z)
| Msg_TranslatedBlock (TB : TranslatedBlock)
| Msg_ExecTB (E : ExecTB).

(** [Idx == ~uint32_t(0U) && PC == ~uint64_t(0U)]. *)
Definition is_end_signal (E : ExecTB) : bool :=
  (etIndex E =? 2 ^ 32 - 1) && (etPC E =? 2 ^ 64 - 1).

Section Broker.

(** The decoded instruction is LLVM's; the broker only stores and hands out
    what the disassembler produced.  An instruction of the model stands for
    the object that a [const MCInst *] points at: instructions are told
    apart as the pointers to them are. *)
Context {MCInst : Type} `{EqDecision MCInst}.

(** [MCDisassembler::getInstruction]: the bytes left of the raw instruction
    and the address; [None] when the status converts to [false], otherwise
    the instruction and the reported size. *)
Definition Decoder : Type := list Z → Z → option (MCInst * Z).

Record TranslationBlock : Type := mkTranslationBlock {
  RawInsts : list RawInstTy;
  MCInsts : list MCInst;
  SkewIndicies : gmap Z Z;
  VAddr : Z;
  VAddrOffsets : list Z
}.

(** [TranslationBlock(size_t Size)] followed by the copy of the raw
    instructions in [addTB]. *)
Definition newTB (raw : list RawInstTy) : TranslationBlock :=
  mkTranslationBlock raw [] ∅ 0 [].

(** [operator bool]: is translated. *)
Definition translated (TB : TranslationBlock) : bool :=
  match MCInsts TB with [] => false | _ => true end.

(** *** The disassembler adapter *)

Record DecodeState : Type := mkDecodeState {
  dsIndex : Z;
  dsNumMCInsts : Z;
  dsSkewIdxOffset : Z;
  dsMCInsts : list MCInst;
  dsVAddrOffsets : list Z
}.

(** One turn of [while (Index < Len)]: [inl] is the [break] on a failed
    decode, [inr] the state the loop condition is tested on next. *)
Definition decode_step (CurDisAsm : option Decoder) (InstBytes : RawInstTy)
    (VAddr0 StartVAddr : Z) (st : DecodeState)
  : outcome (DecodeState + DecodeState) :=
  match CurDisAsm with
  | None => Crash
  | Some getInstruction =>
    match getInstruction (drop (Z.to_nat (dsIndex st)) InstBytes)
                         (u64 (VAddr0 + dsIndex st)) with
    | None => Done (inl st)
    | Some (MCI, DisAsmSize0) =>
      let DisAsmSize := if DisAsmSize0 =? 0 then 1 else DisAsmSize0 in
      let NumMCInsts := u32 (dsNumMCInsts st + 1) in
      Done (inr {|
        dsIndex := u64 (dsIndex st + DisAsmSize);
        dsNumMCInsts := NumMCInsts;
        dsSkewIdxOffset :=
          if 1 <? NumMCInsts then u32 (dsSkewIdxOffset st + 1)
          else dsSkewIdxOffset st;
        dsMCInsts := dsMCInsts st ++ [MCI];
        dsVAddrOffsets :=
          dsVAddrOffsets st ++ [u8 (VAddr0 + dsIndex st - StartVAddr)]
      |})
    end
  end.

Fixpoint decode_loop (fuel : nat) (CurDisAsm : option Decoder)
    (InstBytes : RawInstTy) (VAddr0 StartVAddr : Z) (st : DecodeState)
  : outcome DecodeState :=
  if dsIndex st <? Z.of_nat (length InstBytes) then
    match fuel with
    | O => OutOfFuel
    | S fuel' =>
      r ← decode_step CurDisAsm InstBytes VAddr0 StartVAddr st;
      match r with
      | inl st' => Done st'
      | inr st' => decode_loop fuel' CurDisAsm InstBytes VAddr0 StartVAddr st'
      end
    end
  else Done st.

(** The state carried by [for (const auto &RawInst : TB.RawInsts)]. *)
Record DisasmState : Type := mkDisasmState {
  xRawInstIdx : Z;
  xSkewIdxOffset : Z;
  xVAddr : Z;
  xMCInsts : list MCInst;
  xVAddrOffsets : list Z;
  xSkewIndicies : gmap Z Z
}.

(** The body of the loop over the raw instructions. *)
Definition disasm_raw (fuel : nat) (CurDisAsm : option Decoder)
    (StartVAddr : Z) (RawInst : RawInstTy) (x : DisasmState)
  : outcome DisasmState :=
  let Skew :=
    if 0 <? xSkewIdxOffset x
    then <[xRawInstIdx x := u32 (xRawInstIdx x + xSkewIdxOffset x)]> (xSkewIndicies x)
    else xSkewIndicies x in
  st ← decode_loop fuel CurDisAsm RawInst (xVAddr x) StartVAddr
         (mkDecodeState 0 0 (xSkewIdxOffset x) (xMCInsts x) (xVAddrOffsets x));
  Done {|
    xRawInstIdx := u32 (xRawInstIdx x + 1);
    xSkewIdxOffset := dsSkewIdxOffset st;
    xVAddr := u64 (xVAddr x + Z.of_nat (length RawInst));
    xMCInsts := dsMCInsts st;
    xVAddrOffsets := dsVAddrOffsets st;
    xSkewIndicies := Skew
  |}.

Fixpoint disasm_raws (fuel : nat) (CurDisAsm : option Decoder)
    (StartVAddr : Z) (raws : list RawInstTy) (x : DisasmState)
  : outcome DisasmState :=
  match raws with
  | [] => Done x
  | RawInst :: rest =>
    x' ← disasm_raw fuel CurDisAsm StartVAddr RawInst x;
    disasm_raws fuel CurDisAsm StartVAddr rest x'
  end.

(** What [disassemble] reads of the broker: the target triple and the two
    disassemblers; [CurDisAsm] is the one it selects and leaves selected. *)
Record Target : Type := mkTarget {
  isARM : bool;
  isThumb : bool;
  DisAsm : option Decoder;
  SecondaryDisAsm : option Decoder
}.

(** [CurDisAsm = Primary ? DisAsm.get() : SecondaryDisAsm.get()]. *)
Definition useDisassembler (T : Target) (Primary : bool) : option Decoder :=
  if Primary then DisAsm T else SecondaryDisAsm T.

(** [x & ~0b1] on a [uint64_t]. *)
Definition clear_lsb (x : Z) : Z := Z.land x (2 ^ 64 - 2).

(** The choice of disassembler at the head of [disassemble]: by the low bit
    of the address on ARM and Thumb, the current one elsewhere. *)
Definition select_disassembler (T : Target) (CurDisAsm : option Decoder)
    (TB : TranslationBlock) : option Decoder :=
  if isARM T || isThumb T then
    if Z.testbit (VAddr TB) 0 then useDisassembler T (isThumb T)
    else useDisassembler T (isARM T)
  else CurDisAsm.

(** [StartVAddr]: "We don't want LSB to interfere the disassembling process". *)
Definition start_address (T : Target) (TB : TranslationBlock) : Z :=
  if isARM T || isThumb T then clear_lsb (VAddr TB) else VAddr TB.

(** [disassemble]: the block as it leaves it and the disassembler left
    selected. *)
Definition disassemble (fuel : nat) (T : Target) (CurDisAsm : option Decoder)
    (TB : TranslationBlock) : outcome (TranslationBlock * option Decoder) :=
  if translated TB then Done (TB, CurDisAsm)
  else
    let Cur := select_disassembler T CurDisAsm TB in
    let StartVAddr := start_address T TB in
    x ← disasm_raws fuel Cur StartVAddr (RawInsts TB)
          (mkDisasmState 0 0 StartVAddr (MCInsts TB) (VAddrOffsets TB)
                         (SkewIndicies TB));
    Done (mkTranslationBlock (RawInsts TB) (xMCInsts x) (xSkewIndicies x)
                             (VAddr TB) (xVAddrOffsets x), Cur).


(** *** Memory-access chains *)

(** [if (TB.SkewIndicies.count(InstIdx)) InstIdx = TB.SkewIndicies.lookup(InstIdx)]. *)
Definition skewed_index (TB : TranslationBlock) (InstIdx : Z) : Z :=
  match SkewIndicies TB !! InstIdx with
  | Some di => di
  | None => InstIdx
  end.

(** The "Merge the entry" block of [tbExec]. *)
Definition merge_access (MA : MDMemoryAccess) (IsStore0 : bool) (Addr0 Size0 : Z)
  : MDMemoryAccess :=
  let NewAddr := Z.min (Addr MA) Addr0 in
  let NewEndAddr := Z.max (u64 (Addr MA + Size MA)) (u64 (Addr0 + Size0)) in
  let NewSize := u32 (NewEndAddr - NewAddr) in
  mkMDMemoryAccess (IsStore MA || IsStore0) NewAddr NewSize.

(** The body of [for (const auto *FbMA : *FbMAs)]. *)
Definition add_access (TB : TranslationBlock) (MemAccesses : MemoryAccessChain)
    (FbMA : FbMemAccess) : MemoryAccessChain :=
  let InstIdx := skewed_index TB (fbIndex FbMA) in
  let fresh :=
    MemAccesses ++
      [(InstIdx, mkMDMemoryAccess (fbIsStore FbMA) (fbVAddr FbMA) (fbSize FbMA))] in
  match last MemAccesses with
  | Some LastEntry =>
    if fst LastEntry =? InstIdx then
      removelast MemAccesses ++
        [(fst LastEntry,
          merge_access (snd LastEntry) (fbIsStore FbMA) (fbVAddr FbMA) (fbSize FbMA))]
    else fresh
  | None => fresh
  end.

(** A null or empty vector of records leaves the chain pointer null. *)
Definition build_chain (TB : TranslationBlock) (FbMAs : list FbMemAccess)
  : option MemoryAccessChain :=
  match FbMAs with
  | [] => None
  | _ => Some (fold_left (add_access TB) FbMAs [])
  end.

(** *** Slices *)

Record TBSlice : Type := mkTBSlice {
  Index : Z;
  BeginIdx : Z;
  EndIdx : Z;
  Region : option BinaryRegion;
  MemoryAccesses : option MemoryAccessChain
}.

(** [size_t size() const { return EndIdx - BeginIdx; }]: the difference is
    an [int], converted to [size_t]. *)
Definition slice_size (s : TBSlice) : Z := u64 (EndIdx s - BeginIdx s).

(** [llvm::lower_bound] is [std::lower_bound]: the halving search of the
    standard library, on positions [first, first + len). *)
Fixpoint lower_bound_loop (fuel : nat) (chain : MemoryAccessChain) (Idx : Z)
    (first len : nat) : nat :=
  match fuel with
  | O => first
  | S fuel' =>
    match len with
    | O => first
    | _ =>
      let half := Nat.div2 len in
      let middle := (first + half)%nat in
      match chain !! middle with
      | Some MAE =>
        if fst MAE <? Idx
        then lower_bound_loop fuel' chain Idx (S middle) (len - half - 1)%nat
        else lower_bound_loop fuel' chain Idx first half
      | None => first
      end
    end
  end.

Definition lower_bound (chain : MemoryAccessChain) (Idx : Z) : nat :=
  lower_bound_loop (length chain) chain Idx 0%nat (length chain).

(** The [assert] at the head of [split]. *)
Definition split_pre (s : TBSlice) (SplitPoint : Z) : Prop :=
  BeginIdx s < SplitPoint ∧ SplitPoint < EndIdx s.

(** [TBSlice::split]: the returned slice and the slice it was called on,
    as the call leaves it. *)
Definition split (s : TBSlice) (SplitPoint : Z) : TBSlice * TBSlice :=
  let '(NewMAs, OldMAs) :=
    match MemoryAccesses s with
    | Some chain =>
      let MASplit := lower_bound chain SplitPoint in
      if decide (MASplit ≠ length chain)
      then (Some (take MASplit chain), Some (drop MASplit chain))
      else (None, Some chain)
    | None => (None, None)
    end in
  (mkTBSlice (Index s) (BeginIdx s) SplitPoint (Region s) NewMAs,
   mkTBSlice (Index s) SplitPoint (EndIdx s) (Region s) OldMAs).

(** *** The broker *)

(** Modelled from the spec: [MDExchanger] is declared in [Brokers/Broker.h],
    which is not among the sources.  It carries the map from instruction to
    sequence number and, in the registry, the map from sequence number to
    access descriptor of the category [mca::MD_LSUnit_MemAccess].  The first
    map is kept as the list of its bindings, one for each instruction. *)
Record MDExchanger : Type := mkMDExchanger {
  IndexMap : list (MCInst * Z);
  MemAccessCat : gmap Z MDMemoryAccess
}.

Record QemuBroker : Type := mkQemuBroker {
  TheTarget : Target;
  BinRegions : option BinaryRegions;
  CurBinRegion : option BinaryRegion;
  CodeStartAddress : Z;
  CurDisAsm : option Decoder;
  TBs : list (option TranslationBlock);
  TBQueue : list TBSlice;
  IsEndOfStream : bool;
  TotalNumTraces : Z
}.

(** The constructor, after [initializeDisassembler]. *)
Definition newBroker (T : Target) (BR : option BinaryRegions) : QemuBroker :=
  mkQemuBroker T BR None 0 (DisAsm T) [] [] false 0.

(** [CodeStartAddress = MD.LoadAddr()]. *)
Definition handleMetadata (B : QemuBroker) (LoadAddr : Z) : QemuBroker :=
  mkQemuBroker (TheTarget B) (BinRegions B) (CurBinRegion B) LoadAddr
    (CurDisAsm B) (TBs B) (TBQueue B) (IsEndOfStream B) (TotalNumTraces B).

(** [addTB]: [TB.Index() + 1] is computed on [uint32_t]; the assignment to
    [TBs[TB.Index()]] past the end of the vector is undefined. *)
Definition addTB (B : QemuBroker) (TB : TranslatedBlock) : outcome QemuBroker :=
  let TBs1 :=
    if Z.of_nat (length (TBs B)) <=? tbIndex TB
    then resize (Z.to_nat (u32 (tbIndex TB + 1))) None (TBs B)
    else TBs B in
  if tbIndex TB <? Z.of_nat (length TBs1) then
    Done (mkQemuBroker (TheTarget B) (BinRegions B) (CurBinRegion B)
            (CodeStartAddress B) (CurDisAsm B)
            (<[Z.to_nat (tbIndex TB) := Some (newTB (tbInstructions TB))]> TBs1)
            (TBQueue B) (IsEndOfStream B) (TotalNumTraces B))
  else Crash.

(** *** The region tracker *)

(** The first scan of [tbExec]: stops at the first offset whose address
    starts a region; the position reached and the last lookup. *)
Fixpoint scan_start (regions : BinaryRegions) (VA : Z) (offsets : list Z) (i : Z)
  : Z * option BinaryRegion :=
  match offsets with
  | [] => (i, None)
  | Offset :: rest =>
    match lookup_region regions (u64 (VA + Offset)) with
    | Some R => (i, Some R)
    | None => scan_start regions VA rest (i + 1)
    end
  end.

(** The second scan, resumed at position [i]: stops at the first offset
    whose address is the end address of the current region. *)
Fixpoint scan_end (R : BinaryRegion) (VA : Z) (offsets : list Z) (i : Z) : Z :=
  match offsets with
  | [] => i
  | Offset :: rest =>
    if EndAddr R =? u64 (VA + Offset) then i else scan_end R VA rest (i + 1)
  end.

Record RegionResult : Type := mkRegionResult {
  rrBeginIdx : Z;
  rrEndIdx : Z;
  rrRegion : option BinaryRegion;
  rrCurBinRegion : option BinaryRegion
}.

(** The "Handle regions" block of [tbExec]. *)
Definition handle_regions (BR : option BinaryRegions) (Cur : option BinaryRegion)
    (CodeStart : Z) (TB : TranslationBlock) : RegionResult :=
  match BR with
  | Some (R0 :: Rs) =>
    let regions := R0 :: Rs in
    let S := Z.of_nat (length (VAddrOffsets TB)) in
    let VA := u64 (VAddr TB - CodeStart) in
    let '(i, BeginIdx, Cur1) :=
      match Cur with
      | None =>
        if CodeStart <=? VAddr TB then
          let '(i, R) := scan_start regions VA (VAddrOffsets TB) 0 in
          (i, (if i =? S then 2 ^ 16 - 1 else u16 i), R)
        else (0, 2 ^ 16 - 1, None)
      | Some _ => (0, 0, Cur)
      end in
    match Cur1 with
    | Some R =>
      if CodeStart <=? VAddr TB then
        let i' := scan_end R VA (drop (Z.to_nat i) (VAddrOffsets TB)) i in
        if i' =? S then mkRegionResult BeginIdx (2 ^ 16 - 1) None Cur1
        else mkRegionResult BeginIdx (u16 (i' + 1)) (Some R) None
      else mkRegionResult BeginIdx (2 ^ 16 - 1) None Cur1
    | None => mkRegionResult BeginIdx (2 ^ 16 - 1) None None
    end
  | _ => mkRegionResult 0 (2 ^ 16 - 1) None Cur
  end.

(** *** The receiver *)

(** [TB.VAddr = a]. *)
Definition set_VAddr (TB : TranslationBlock) (a : Z) : TranslationBlock :=
  mkTranslationBlock (RawInsts TB) (MCInsts TB) (SkewIndicies TB) a (VAddrOffsets TB).

(** The block guarded by [if (!TB)] in [tbExec]. *)
Definition translate_on_first_exec (fuel : nat) (T : Target)
    (Cur : option Decoder) (TB : TranslationBlock) (PC : Z)
  : outcome (TranslationBlock * option Decoder) :=
  if translated TB then Done (TB, Cur)
  else
    '(TB1, Cur1) ← disassemble fuel T Cur (set_VAddr TB PC);
    Done (if isARM T || isThumb T then set_VAddr TB1 (clear_lsb (VAddr TB1)) else TB1,
          Cur1).

(** [tbExec]: the end signal, the check of the index, the translation on
    first execution, the regions, the chain and the push. *)
Definition tbExec (fuel : nat) (B : QemuBroker) (OrigTB : ExecTB)
  : outcome QemuBroker :=
  let Idx := etIndex OrigTB in
  let PC := etPC OrigTB in
  if is_end_signal OrigTB then
    Done (mkQemuBroker (TheTarget B) (BinRegions B) (CurBinRegion B)
            (CodeStartAddress B) (CurDisAsm B) (TBs B) (TBQueue B) true
            (TotalNumTraces B))
  else
    match TBs B !! Z.to_nat Idx with
    | Some (Some TB0) =>
      '(TB, Cur) ← translate_on_first_exec fuel (TheTarget B) (CurDisAsm B) TB0 PC;
      let rr := handle_regions (BinRegions B) (CurBinRegion B) (CodeStartAddress B) TB in
      let TBs' := <[Z.to_nat Idx := Some TB]> (TBs B) in
      let Queue' :=
        if rrBeginIdx rr =? rrEndIdx rr then TBQueue B
        else TBQueue B ++
               [mkTBSlice Idx (rrBeginIdx rr) (rrEndIdx rr) (rrRegion rr)
                          (build_chain TB (etMemAccesses OrigTB))] in
      Done (mkQemuBroker (TheTarget B) (BinRegions B) (rrCurBinRegion rr)
              (CodeStartAddress B) Cur TBs' Queue' (IsEndOfStream B)
              (TotalNumTraces B))
    | _ => Done B
    end.

(** The dispatch of [recvWorker] on one verified message. *)
Definition handle_message (fuel : nat) (B : QemuBroker) (m : Message)
  : outcome QemuBroker :=
  match m with
  | Msg_Metadata LoadAddr => Done (handleMetadata B LoadAddr)
  | Msg_TranslatedBlock TB => addTB B TB
  | Msg_ExecTB E => tbExec fuel B E
  end.

Fixpoint handle_messages (fuel : nat) (B : QemuBroker) (ms : list Message)
  : outcome QemuBroker :=
  match ms with
  | [] => Done B
  | m :: rest => B' ← handle_message fuel B m; handle_messages fuel B' rest
  end.


(** *** The fetch engine *)

(** The state of the loop that fills [SelectedSlices]. *)
Record SelectState : Type := mkSelectState {
  selS : Z;
  selQueue : list TBSlice;
  selSelected : list TBSlice;
  selEndOfRegion : bool
}.

(** [TakenSlice.Region = nullptr], for any new value. *)
Definition set_Region (s : TBSlice) (R : option BinaryRegion) : TBSlice :=
  mkTBSlice (Index s) (BeginIdx s) (EndIdx s) R (MemoryAccesses s).

(** [SelectedSlices.empty() ? false : bool(SelectedSlices.back().Region)]. *)
Definition ends_region (Selected : list TBSlice) : bool :=
  match last Selected with
  | Some s => bool_decide (is_Some (Region s))
  | None => false
  end.

(** The body of [while (S > 0 && !TBQueue.empty() && !EndOfRegion)]. *)
Definition select_step (Blocks : list (option TranslationBlock))
    (st : SelectState) : SelectState :=
  match selQueue st with
  | [] => st
  | CurSlice :: rest =>
    let '(S', Queue', Selected') :=
      match Blocks !! Z.to_nat (Index CurSlice) with
      | Some (Some TB) =>
        let SliceLen := Z.min (Z.of_nat (length (MCInsts TB))) (slice_size CurSlice) in
        if selS st <? SliceLen then
          let '(TakenSlice, CurSlice') :=
            split CurSlice (u16 (BeginIdx CurSlice + selS st)) in
          (0, CurSlice' :: rest, selSelected st ++ [set_Region TakenSlice None])
        else
          (to_int (selS st - SliceLen), rest, selSelected st ++ [CurSlice])
      | _ => (selS st, selQueue st, selSelected st)
      end in
    mkSelectState S' Queue' Selected' (ends_region Selected')
  end.

(** [S > 0 && !TBQueue.empty() && !EndOfRegion]. *)
Definition select_cond (st : SelectState) : bool :=
  (0 <? selS st) && bool_decide (selQueue st ≠ []) && negb (selEndOfRegion st).

Fixpoint select_loop (fuel : nat) (Blocks : list (option TranslationBlock))
    (st : SelectState) : outcome SelectState :=
  if select_cond st then
    match fuel with
    | O => OutOfFuel
    | S fuel' => select_loop fuel' Blocks (select_step Blocks st)
    end
  else Done st.

(** What the copy loops carry: the remaining [Size], the output buffer, the
    trace counter and the metadata exchanger; inside one slice also the
    position [i] and what is left of the slice's chain. *)
Record CopyState : Type := mkCopyState {
  cSize : Z;
  cMCIS : list MCInst;
  cTotalNumTraces : Z;
  cMDE : option MDExchanger;
  ci : Z;
  cMAs : option MemoryAccessChain
}.

(** The lambda [setMemoryAccessMD]: [IndexMap[MCI] = TotalNumTraces]
    replaces the binding of the instruction, if it has one, and
    [MemAccessCat[TotalNumTraces] = MDA] the descriptor under the number. *)
Definition setMemoryAccessMD (MDE : option MDExchanger) (MCI : MCInst)
    (MDA : MDMemoryAccess) (TotalNumTraces0 : Z) : option MDExchanger :=
  match MDE with
  | Some E =>
    Some (mkMDExchanger
            ((MCI, TotalNumTraces0) :: filter (λ e, fst e ≠ MCI) (IndexMap E))
            (<[TotalNumTraces0 := MDA]> (MemAccessCat E)))
  | None => None
  end.

(** The body of [for (i = Slice.BeginIdx; i != End && Size > 0; ++i, --Size)];
    reading [MCInsts[i]] past the end is undefined. *)
Definition copy_step (Insts : list MCInst) (TotalSize : Z) (st : CopyState)
  : outcome CopyState :=
  match Insts !! Z.to_nat (ci st) with
  | None => Crash
  | Some MCI =>
    let MCIS' := <[Z.to_nat (TotalSize - cSize st) := MCI]> (cMCIS st) in
    let Traces := u32 (cTotalNumTraces st + 1) in
    let '(MDE', MAs') :=
      match cMAs st with
      | Some ((idx, MDA) :: chain) =>
        if idx =? ci st
        then (setMemoryAccessMD (cMDE st) MCI MDA Traces, Some chain)
        else (cMDE st, cMAs st)
      | _ => (cMDE st, cMAs st)
      end in
    Done (mkCopyState (cSize st - 1) MCIS' Traces MDE' (u64 (ci st + 1)) MAs')
  end.

Fixpoint copy_loop (fuel : nat) (Insts : list MCInst) (End TotalSize : Z)
    (st : CopyState) : outcome CopyState :=
  if negb (ci st =? End) && (0 <? cSize st) then
    match fuel with
    | O => OutOfFuel
    | S fuel' =>
      st' ← copy_step Insts TotalSize st;
      copy_loop fuel' Insts End TotalSize st'
    end
  else Done st.

(** The body of [for (auto &Slice : SelectedSlices)]; [TBs[TBIdx]->MCInsts]
    on a missing block is undefined. *)
Definition copy_slice (fuel : nat) (Blocks : list (option TranslationBlock))
    (TotalSize : Z) (Slice : TBSlice) (st : CopyState) : outcome CopyState :=
  match Blocks !! Z.to_nat (Index Slice) with
  | Some (Some TB) =>
    let End := Z.min (Z.of_nat (length (MCInsts TB))) (EndIdx Slice) in
    copy_loop fuel (MCInsts TB) End TotalSize
      (mkCopyState (cSize st) (cMCIS st) (cTotalNumTraces st) (cMDE st)
                   (BeginIdx Slice) (MemoryAccesses Slice))
  | _ => Crash
  end.

Fixpoint copy_slices (fuel : nat) (Blocks : list (option TranslationBlock))
    (TotalSize : Z) (Selected : list TBSlice) (st : CopyState)
  : outcome CopyState :=
  match Selected with
  | [] => Done st
  | Slice :: rest =>
    st' ← copy_slice fuel Blocks TotalSize Slice st;
    copy_slices fuel Blocks TotalSize rest st'
  end.

(** What a call leaves behind: the returned value, the broker, the output
    buffer and the metadata exchanger. *)
Record FetchResult (R : Type) : Type := mkFetchResult {
  frValue : R;
  frBroker : QemuBroker;
  frMCIS : list MCInst;
  frMDE : option MDExchanger
}.

Arguments mkFetchResult {R} _ _ _ _.
Arguments frValue {R} _.
Arguments frBroker {R} _.
Arguments frMCIS {R} _.
Arguments frMDE {R} _.

(** The broker after a call: the queue and the trace counter are what the
    call changes. *)
Definition set_queue_and_traces (B : QemuBroker) (Q : list TBSlice) (n : Z)
  : QemuBroker :=
  mkQemuBroker (TheTarget B) (BinRegions B) (CurBinRegion B) (CodeStartAddress B)
    (CurDisAsm B) (TBs B) Q (IsEndOfStream B) n.

(** [fetchRegion].  The wait on [QueueCV] with an empty queue and no end
    signal is [Blocked]: the call goes on from the state the receiver has
    produced by then, as a call made in that state does. *)
Definition fetchRegion (fuel : nat) (B : QemuBroker) (MCIS : list MCInst)
    (Size0 : Z) (MDE : option MDExchanger)
  : outcome (FetchResult (Z * RegionDescriptor)) :=
  if Size0 =? 0 then Done (mkFetchResult (0, NotEndOfRegion) B MCIS MDE)
  else
    let Size1 :=
      if (Size0 <? 0) || (Z.of_nat (length MCIS) <? Size0)
      then to_int (Z.of_nat (length MCIS)) else Size0 in
    let TotalSize := Size1 in
    match TBQueue B with
    | [] =>
      if IsEndOfStream B then Done (mkFetchResult (-1, EndOfStream) B MCIS MDE)
      else Blocked
    | _ =>
      sel ← select_loop fuel (TBs B) (mkSelectState Size1 (TBQueue B) [] false);
      cp ← copy_slices fuel (TBs B) TotalSize (selSelected sel)
             (mkCopyState Size1 MCIS (TotalNumTraces B) MDE 0 None);
      let B' := set_queue_and_traces B (selQueue sel) (cTotalNumTraces cp) in
      let RD :=
        match last (selSelected sel) with
        | Some s =>
          match Region s with
          | Some R => EndOfRegion (Description R)
          | None => NotEndOfRegion
          end
        | None => NotEndOfRegion
        end in
      Done (mkFetchResult (TotalSize - cSize cp, RD) B' (cMCIS cp) (cMDE cp))
    end.

(** [return fetchRegion(MCIS, Size, MDE).first]. *)
Definition fetch (fuel : nat) (B : QemuBroker) (MCIS : list MCInst)
    (Size0 : Z) (MDE : option MDExchanger) : outcome (FetchResult Z) :=
  r ← fetchRegion fuel B MCIS Size0 MDE;
  Done (mkFetchResult (fst (frValue r)) (frBroker r) (frMCIS r) (frMDE r)).

(** The instructions a call delivered: the filled front of the buffer. *)
Definition delivered {R} (count : R → Z) (r : FetchResult R) : list MCInst :=
  take (Z.to_nat (count (frValue r))) (frMCIS r).

End Broker.

Arguments mkFetchResult {MCInst R} _ _ _ _.
Arguments frValue {MCInst R} _.
Arguments frBroker {MCInst R} _.
Arguments frMCIS {MCInst R} _.
Arguments frMDE {MCInst R} _.

(** * Specification vocabulary *)

Section Vocabulary.

Context {MCInst : Type} `{EqDecision MCInst}.

(** The contract of [getInstruction] the adapter relies on: a successful
    decode reports at most the bytes it was handed. *)
Definition consumes_input (d : @Decoder MCInst) : Prop :=
  ∀ bytes addr MCI sz, d bytes addr = Some (MCI, sz) → 0 ≤ sz ≤ Z.of_nat (length bytes).

(** The counters of the inner decode loop, as long as they fit [unsigned]:
    [NumMCInsts] counts what the raw instruction has produced so far, and
    the skew offset has grown by one for each instruction after the first.
    [L0] and [K0] are the number of decoded instructions and the skew offset
    the loop started from. *)
Definition counts_ok (L0 K0 : Z) (st : @DecodeState MCInst) : Prop :=
  dsNumMCInsts st = Z.of_nat (length (dsMCInsts st)) - L0
  ∧ 0 ≤ dsNumMCInsts st
  ∧ dsSkewIdxOffset st = K0 + Z.max 0 (dsNumMCInsts st - 1).

(** What the loop over the raw instructions maintains, [k] of them done:
    the index counter, the skew offset bounded by the number of decoded
    instructions, and a skew map that only moves indices up. *)
Definition skew_ok (k : Z) (x : @DisasmState MCInst) : Prop :=
  xRawInstIdx x = k
  ∧ 0 ≤ xSkewIdxOffset x ≤ Z.of_nat (length (xMCInsts x))
  ∧ (∀ key v, xSkewIndicies x !! key = Some v → 0 ≤ key < k ∧ key < v)
  ∧ ((∃ key, is_Some (xSkewIndicies x !! key)) → 0 < xSkewIdxOffset x).

(** Every raw instruction is non-empty and the decode at its first byte
    succeeds; [VAddr0] is the address of the first of them. *)
Fixpoint first_decodes_succeed (d : @Decoder MCInst) (VAddr0 : Z)
    (raws : list RawInstTy) : Prop :=
  match raws with
  | [] => True
  | R :: rest =>
    R ≠ [] ∧ is_Some (d R (u64 (VAddr0 + 0)))
    ∧ first_decodes_succeed d (u64 (VAddr0 + Z.of_nat (length R))) rest
  end.

(** The block index of a slice is within the cache, at a registered block. *)
Definition registered (Blocks : list (option (@TranslationBlock MCInst))) (idx : Z)
  : Prop :=
  ∃ TB, Blocks !! Z.to_nat idx = Some (Some TB).

Definition queue_registered (Blocks : list (option (@TranslationBlock MCInst)))
    (Queue : list TBSlice) : Prop :=
  ∀ s, s ∈ Queue → registered Blocks (Index s).

(** The two vectors a block fills on decoding have one length. *)
Definition blocks_consistent (Blocks : list (option (@TranslationBlock MCInst)))
  : Prop :=
  ∀ (i : nat) TB, Blocks !! i = Some (Some TB) →
    length (VAddrOffsets TB) = length (MCInsts TB).

(** The broker moves when the receiver handles a message and when the
    consumer's call returns. *)
Inductive step : @QemuBroker MCInst → @QemuBroker MCInst → Prop :=
| step_receive fuel B m B' :
    handle_message fuel B m = Done B' → step B B'
| step_fetch fuel B MCIS n MDE r :
    fetchRegion fuel B MCIS n MDE = Done r → step B (frBroker r).

Definition reachable (T : @Target MCInst) (BR : option BinaryRegions)
    (B : @QemuBroker MCInst) : Prop :=
  rtc step (newBroker T BR) B.

(** The instructions a slice stands for, and those of a whole queue. *)
Definition slice_insts (Blocks : list (option (@TranslationBlock MCInst)))
    (s : TBSlice) : list MCInst :=
  match Blocks !! Z.to_nat (Index s) with
  | Some (Some TB) =>
    take (Z.to_nat (EndIdx s - BeginIdx s)) (drop (Z.to_nat (BeginIdx s)) (MCInsts TB))
  | _ => []
  end.

Definition queue_insts (Blocks : list (option (@TranslationBlock MCInst)))
    (Queue : list TBSlice) : list MCInst :=
  concat (map (slice_insts Blocks) Queue).

(** [k] calls of [fetch] with size 1 in a row: what they delivered, in
    order, and the broker they leave. *)
Fixpoint fetch_ones (fuel k : nat) (B : @QemuBroker MCInst) (MCIS : list MCInst)
    (MDE : option (@MDExchanger MCInst))
  : outcome (list MCInst * @QemuBroker MCInst) :=
  match k with
  | O => Done ([], B)
  | S k' =>
    r ← fetch fuel B MCIS 1 MDE;
    '(rest, B') ← fetch_ones fuel k' (frBroker r) (frMCIS r) (frMDE r);
    Done (delivered id r ++ rest, B')
  end.

(** The broker after a trace of messages, from the constructor on; the
    constructed broker itself if the trace goes wrong. *)
Definition run_trace (fuel : nat) (T : @Target MCInst) (BR : option BinaryRegions)
    (ms : list Message) : @QemuBroker MCInst :=
  match handle_messages fuel (newBroker T BR) ms with
  | Done B => B
  | _ => newBroker T BR
  end.

End Vocabulary.

(** A chain is index-sorted. *)
Definition chain_sorted (chain : MemoryAccessChain) : Prop :=
  ∀ (i j : nat) e1 e2, (i ≤ j)%nat → chain !! i = Some e1 → chain !! j = Some e2 →
    fst e1 ≤ fst e2.

(** The store and the load of the merge scenario, on instruction [i]. *)
Definition store_0x20 (i : Z) : FbMemAccess := mkFbMemAccess i true 32 4.
Definition load_0x22 (i : Z) : FbMemAccess := mkFbMemAccess i false 34 4.

(** A slice of four instructions whose two accesses both lie below 2. *)
Definition low_chain : MemoryAccessChain :=
  [(0, mkMDMemoryAccess true 32 4); (1, mkMDMemoryAccess false 64 8)].

Definition low_slice : TBSlice := mkTBSlice 0 0 4 None (Some low_chain).

(** * Concrete blocks and traces *)

(** A toy disassembler over one-byte opcodes: 255 does not decode, 144 is a
    one-byte instruction, any other byte starts an instruction that takes
    all the bytes handed over. *)
Definition toy_decoder : @Decoder Z := fun bytes _ =>
  match bytes with
  | [] => None
  | b :: _ =>
    if b =? 255 then None
    else if b =? 144 then Some (b, 1)
    else Some (b, Z.of_nat (length bytes))
  end.

Definition toy_target : @Target Z := mkTarget false false (Some toy_decoder) None.

(** A block of two raw instructions: the first decodes into two
    instructions, the second into one. *)
Definition skewed_raws : list RawInstTy := [[144; 144]; [5]].

Definition skewed_TB : @TranslationBlock Z :=
  mkTranslationBlock skewed_raws [144; 144; 5] {[1 := 2]} 0 [0; 1; 2].

(** The same block with a second raw instruction that does not decode. *)
Definition failing_raws : list RawInstTy := [[144; 144]; [255]].

(** The end signal, and an execution of block 0. *)
Definition end_signal : ExecTB := mkExecTB (2 ^ 32 - 1) (2 ^ 64 - 1) [].
Definition exec_block0 : ExecTB := mkExecTB 0 4096 [].

(** A broker without regions that has seen the end signal and nothing else. *)
Definition ended_broker : @QemuBroker Z :=
  mkQemuBroker toy_target None None 0 (Some toy_decoder) [] [] true 0.

(** Block 0 registered, then the end signal. *)
Definition ended_trace : list Message :=
  [Msg_TranslatedBlock (mkTranslatedBlock 0 skewed_raws); Msg_ExecTB end_signal].

(** Block 0 registered with one raw instruction that does not decode, then
    executed. *)
Definition undecodable_trace : list Message :=
  [Msg_TranslatedBlock (mkTranslatedBlock 0 [[255]]); Msg_ExecTB exec_block0].

(** Block 0 registered with three decodable instructions, then executed. *)
Definition plain_trace : list Message :=
  [Msg_TranslatedBlock (mkTranslatedBlock 0 skewed_raws); Msg_ExecTB exec_block0].



(** Without regions: a block of two instructions executed twice, and the
    end signal. *)
Definition twice_trace : list Message :=
  [Msg_TranslatedBlock (mkTranslatedBlock 0 [[144; 144]]);
   Msg_ExecTB exec_block0; Msg_ExecTB exec_block0;
   Msg_ExecTB end_signal].

(** One region that starts at the second instruction of the block of
    [skewed_raws] and ends at its third; the block is executed once. *)
Definition inner_region : BinaryRegions := [mkBinaryRegion "inner" 1 2].

Definition inner_trace : list Message :=
  [Msg_Metadata 4096;
   Msg_TranslatedBlock (mkTranslatedBlock 0 skewed_raws);
   Msg_ExecTB exec_block0;
   Msg_ExecTB end_signal].

(** A block of four one-byte instructions, executed with a store on its
    first instruction and a load on its second. *)
Definition accessed_trace : list Message :=
  [Msg_TranslatedBlock (mkTranslatedBlock 0 [[1]; [2]; [3]; [4]]);
   Msg_ExecTB (mkExecTB 0 4096
                 [mkFbMemAccess 0 true 32 4; mkFbMemAccess 1 false 64 8])].

Definition no_metadata : option (@MDExchanger Z) := Some (mkMDExchanger [] ∅).

(** * Further vocabulary *)

(** A record lies within an entry of the chain: the entry carries the
    record's index, taken through the skew map, its address range contains
    the record's, and it is a store if the record is. *)
Definition covers {MCInst : Type} (TB : @TranslationBlock MCInst)
    (e : Z * MDMemoryAccess) (FbMA : FbMemAccess) : Prop :=
  fst e = skewed_index TB (fbIndex FbMA)
  ∧ Addr (snd e) ≤ fbVAddr FbMA
  ∧ fbVAddr FbMA + fbSize FbMA ≤ Addr (snd e) + Size (snd e)
  ∧ (fbIsStore FbMA = true → IsStore (snd e) = true).

(** All records access a window of less than 4 GiB that starts at [lo], so
    that no merged range overflows a size. *)
Definition within_window (lo : Z) (FbMAs : list FbMemAccess) : Prop :=
  0 ≤ lo ∧ lo + 2 ^ 32 ≤ 2 ^ 64
  ∧ Forall (λ FbMA, lo ≤ fbVAddr FbMA ∧ 0 ≤ fbSize FbMA
                    ∧ fbVAddr FbMA + fbSize FbMA < lo + 2 ^ 32) FbMAs.

(** The chain of a slice, a null pointer counting as no entry. *)
Definition chain_of (s : TBSlice) : list (Z * MDMemoryAccess) :=
  default [] (MemoryAccesses s).

(** A block whose second instruction has two accesses of which the second
    reaches further, after an access of the first instruction. *)
Definition three_records : list FbMemAccess :=
  [mkFbMemAccess 0 false 64 8; store_0x20 1; load_0x22 1].

(** The block of [skewed_raws] as the execution at [0x1000] decodes it. *)
Definition decoded_at_0x1000 : @TranslationBlock Z :=
  mkTranslationBlock skewed_raws [144; 144; 5] {[1 := 2]} 4096 [0; 1; 2].

(** The address, relative to the start of the code, of the instruction at
    position [k] of a block: [VA + uint64_t(Offset)] of [tbExec]. *)
Definition inst_address {MCInst : Type} (CodeStart : Z)
    (TB : @TranslationBlock MCInst) (k : Z) : option Z :=
  Offset ← VAddrOffsets TB !! Z.to_nat k;
  Some (u64 (u64 (VAddr TB - CodeStart) + Offset)).

(** What the copy loops have done between two of their states when they
    have copied [m] instructions: the remaining size has gone down by [m];
    the buffer has its length and, outside of the positions written, its
    contents; the counter has advanced by [m]; and the exchanger, if there
    is one, binds every instruction it bound, to the number it had or to one
    of the numbers handed out, binds no instruction to any other number,
    binds no instruction twice if it did not before, and has descriptors
    changed under the numbers handed out only. *)
Definition copied {MCInst : Type} (TotalSize : Z) (cp cp' : @CopyState MCInst)
    (m : Z) : Prop :=
  0 ≤ m ∧ (m = 0 ∨ m ≤ cSize cp)
  ∧ cSize cp' = cSize cp - m
  ∧ length (cMCIS cp') = length (cMCIS cp)
  ∧ (∀ k : nat, Z.of_nat k < TotalSize - cSize cp ∨ TotalSize - cSize cp' ≤ Z.of_nat k →
       cMCIS cp' !! k = cMCIS cp !! k)
  ∧ cTotalNumTraces cp' = u32 (cTotalNumTraces cp + m)
  ∧ match cMDE cp, cMDE cp' with
    | None, None => True
    | Some E, Some E' =>
      (∀ e, e ∈ IndexMap E' →
         e ∈ IndexMap E ∨ ∃ j, 1 ≤ j ≤ m ∧ snd e = u32 (cTotalNumTraces cp + j))
      ∧ (∀ e, e ∈ IndexMap E →
           ∃ t, (fst e, t) ∈ IndexMap E'
             ∧ (t = snd e ∨ ∃ j, 1 ≤ j ≤ m ∧ t = u32 (cTotalNumTraces cp + j)))
      ∧ (NoDup (IndexMap E).*1 → NoDup (IndexMap E').*1)
      ∧ (∀ key, (∀ j, 1 ≤ j ≤ m → key ≠ u32 (cTotalNumTraces cp + j)) →
           MemAccessCat E' !! key = MemAccessCat E !! key)
    | _, _ => False
    end.

(** The broker after [inner_trace]: one slice is queued, of the second and
    the third instruction of block 0, which closes the region. *)
Definition inner_broker : @QemuBroker Z :=
  run_trace 2 toy_target (Some inner_region) inner_trace.

Section MoreVocabulary.

Context {MCInst : Type}.

(** A slice the copy loop copies as it is meant: it begins within the
    decoded instructions of a registered block, or right behind them. *)
Definition slice_copyable (Blocks : list (option (@TranslationBlock MCInst)))
    (s : TBSlice) : Prop :=
  ∃ TB, Blocks !! Z.to_nat (Index s) = Some (Some TB)
    ∧ 0 ≤ BeginIdx s ≤ Z.min (Z.of_nat (length (MCInsts TB))) (EndIdx s)
    ∧ EndIdx s < 2 ^ 16.

(** A slice whose length the selection gets right: it ends within the
    decoded instructions of its block, or it begins with the block, as the
    open-ended slice of a whole block does. *)
Definition slice_selectable (Blocks : list (option (@TranslationBlock MCInst)))
    (s : TBSlice) : Prop :=
  ∃ TB, Blocks !! Z.to_nat (Index s) = Some (Some TB)
    ∧ 0 ≤ BeginIdx s ≤ EndIdx s ∧ EndIdx s < 2 ^ 16
    ∧ (EndIdx s ≤ Z.of_nat (length (MCInsts TB)) ∨ BeginIdx s = 0).

(** A queue of such slices, none of which closes a region unless it is the
    last. *)
Fixpoint selectable_queue (Blocks : list (option (@TranslationBlock MCInst)))
    (Queue : list TBSlice) : Prop :=
  match Queue with
  | [] => True
  | s :: rest =>
    slice_selectable Blocks s ∧ (Region s = None ∨ rest = [])
    ∧ selectable_queue Blocks rest
  end.



(** The number of instructions a call for [Size] of them with a buffer of
    [len] entries sets out to deliver. *)
Definition wanted (len Size0 : Z) : Z :=
  if (Size0 <? 0) || (len <? Size0) then len else Size0.

(** The open-ended slice of a whole block, as the receiver queues it when
    no regions are declared. *)
Definition whole_slice (s : TBSlice) : Prop :=
  BeginIdx s = 0 ∧ EndIdx s = 2 ^ 16 - 1 ∧ Region s = None.


End MoreVocabulary.



(** The number of bytes of the raw instructions of a block. *)
Definition raw_bytes (raws : list RawInstTy) : Z := Z.of_nat (length (concat raws)).

(** A list of offsets that increases strictly and stays below a bound. *)
Definition increasing_below (bound : Z) (offsets : list Z) : Prop :=
  (∀ o, o ∈ offsets → 0 ≤ o < bound)
  ∧ ∀ (i j : nat) a b, (i < j)%nat → offsets !! i = Some a → offsets !! j = Some b →
      a < b.

(** The block of the first [i] raw instructions of a block that is not yet
    decoded. *)
Definition first_raws {MCInst : Type} (i : nat) (TB : @TranslationBlock MCInst)
  : @TranslationBlock MCInst :=
  mkTranslationBlock (take i (RawInsts TB)) [] ∅ (VAddr TB) [].

(** The broker after [plain_trace], without regions: the open-ended slice
    of block 0 is queued. *)
Definition plain_broker : @QemuBroker Z := run_trace 10 toy_target None plain_trace.



(** Block 0 registered and executed, then the end signal. *)
Definition finished_trace : list Message := plain_trace ++ [Msg_ExecTB end_signal].

Definition finished_broker : @QemuBroker Z :=
  run_trace 10 toy_target None finished_trace.

(** [initializeDisassembler], as far as the broker depends on it: the
    primary disassembler is the one the target creates for the subtarget; a
    secondary one, for the subtarget with the feature [thumb-mode] toggled,
    is created only on ARM and Thumb and only without the feature [mclass]. *)
Definition initializeDisassembler {MCInst : Type} (triple_isARM triple_isThumb : bool)
    (mclass : bool) (primary toggled : option (@Decoder MCInst)) : @Target MCInst :=
  mkTarget triple_isARM triple_isThumb primary
           (if (triple_isARM || triple_isThumb) && negb mclass then toggled else None).

(** A Thumb target of the M class, and the block of [skewed_raws] at the
    even address [0x1000]. *)
Definition thumb_mclass_target : @Target Z :=
  initializeDisassembler false true true (Some toy_decoder) (Some toy_decoder).

Definition block_at_0x1000 : @TranslationBlock Z := set_VAddr (newTB skewed_raws) 4096.

(** * The options of the plugin

    [mcadGetBrokerPluginInfo] reads the address and the port to listen on,
    the number of connections to accept and the path of the manifest of the
    regions from its arguments.  Of LLVM's [StringRef] it uses [startswith],
    [contains] and [split], both on one character, which are written out
    here, and [trim] and [getAsInteger], whose results it hands on. *)

From Stdlib Require Import Ascii.

(** [Arg.startswith(Prefix)]. *)
Definition startswith (Arg Prefix : string) : bool := String.prefix Prefix Arg.

(** [Arg.contains(C)]. *)
Fixpoint contains (Arg : string) (C : ascii) : bool :=
  match Arg with
  | EmptyString => false
  | String a rest => Ascii.eqb a C || contains rest C
  end.

(** [Arg.split(Separator)]: the text before the first occurrence of the
    separator and the text behind it; the whole text and the empty one if
    there is none. *)
Fixpoint StringRef_split (Arg : string) (Separator : ascii) : string * string :=
  match Arg with
  | EmptyString => (EmptyString, EmptyString)
  | String a rest =>
    if Ascii.eqb a Separator then (EmptyString, rest)
    else let '(l, r) := StringRef_split rest Separator in (String a l, r)
  end.

(** The four locals of the entry point. *)
Record PluginOptions : Type := mkPluginOptions {
  optAddr : string;
  optPort : string;
  optMaxNumConn : Z;
  optBRManifestPath : string
}.

Section PluginArguments.

(** [RawVal.trim()] and [getAsInteger(0, MaxNumConn)], [None] being the
    error it reports. *)
Variable trim : string → string.
Variable getAsInteger : string → option Z.

(** The body of [for (int i = 0; i < argc; ++i)]; [None] is [::exit(1)]. *)
Definition parse_argument (o : PluginOptions) (Arg : string) : option PluginOptions :=
  let o1 :=
    if startswith Arg "-host" && contains Arg "=" then
      let RawHost := snd (StringRef_split Arg "=") in
      if contains RawHost ":" then
        let '(A, P) := StringRef_split RawHost ":" in
        mkPluginOptions A P (optMaxNumConn o) (optBRManifestPath o)
      else o
    else o in
  o2 ← (if startswith Arg "-max-accepted-connection" && contains Arg "=" then
          let RawVal := snd (StringRef_split Arg "=") in
          match getAsInteger (trim RawVal) with
          | Some n =>
            Some (mkPluginOptions (optAddr o1) (optPort o1) n (optBRManifestPath o1))
          | None => None
          end
        else Some o1);
  Some (if startswith Arg "-binary-regions" && contains Arg "=" then
          mkPluginOptions (optAddr o2) (optPort o2) (optMaxNumConn o2)
                          (snd (StringRef_split Arg "="))
        else o2).

Fixpoint parse_arguments (o : PluginOptions) (argv : list string)
  : option PluginOptions :=
  match argv with
  | [] => Some o
  | Arg :: rest => o' ← parse_argument o Arg; parse_arguments o' rest
  end.

(** The options the broker is constructed with. *)
Definition plugin_options (argv : list string) : option PluginOptions :=
  parse_arguments (mkPluginOptions "localhost" "9487" 1 "") argv.

End PluginArguments.

(** * Properties *)

(** ** Fixed-width arithmetic *)

Lemma wrap_small w x : 0 ≤ x < 2 ^ w → wrap w x = x.
Proof. intros H. unfold wrap. apply Z.mod_small. exact H. Qed.

Lemma u64_small x : 0 ≤ x < 2 ^ 64 → u64 x = x.
Proof. apply wrap_small. Qed.

Lemma u32_small x : 0 ≤ x < 2 ^ 32 → u32 x = x.
Proof. apply wrap_small. Qed.

Lemma u16_small x : 0 ≤ x < 2 ^ 16 → u16 x = x.
Proof. apply wrap_small. Qed.

Lemma to_int_small x : 0 ≤ x < 2 ^ 31 → to_int x = x.
Proof.
  intros H. unfold to_int. rewrite u32_small by lia.
  destruct (Z.ltb_spec x (2 ^ 31)); lia.
Qed.

Section DisassemblerProofs.

Context {MCInst : Type}.
Implicit Types (d : @Decoder MCInst) (st : @DecodeState MCInst)
  (x : @DisasmState MCInst) (TB : @TranslationBlock MCInst).

Lemma decode_step_advances d InstBytes V0 Start st st' :
  consumes_input d →
  0 ≤ dsIndex st < Z.of_nat (length InstBytes) →
  Z.of_nat (length InstBytes) < 2 ^ 64 →
  decode_step (Some d) InstBytes V0 Start st = Done (inr st') →
  dsIndex st < dsIndex st' ≤ Z.of_nat (length InstBytes).
Proof.
  intros Hd Hi Hlen. unfold decode_step.
  destruct (d _ _) as [[MCI sz]|] eqn:E; [|discriminate].
  intros [= <-]. cbn.
  apply Hd in E. rewrite length_drop in E.
  destruct (Z.eqb_spec sz 0); rewrite u64_small; lia.
Qed.

Lemma decode_step_break d InstBytes V0 Start st st' :
  decode_step (Some d) InstBytes V0 Start st = Done (inl st') →
  st' = st ∧ d (drop (Z.to_nat (dsIndex st)) InstBytes) (u64 (V0 + dsIndex st)) = None.
Proof.
  unfold decode_step. destruct (d _ _) as [[MCI sz]|] eqn:E; [discriminate|].
  intros [= <-]. done.
Qed.

Lemma decode_step_total d InstBytes V0 Start st :
  ∃ r, decode_step (Some d) InstBytes V0 Start st = Done r.
Proof. unfold decode_step. destruct (d _ _) as [[MCI sz]|]; eauto. Qed.

Lemma decode_step_zero_size d InstBytes V0 Start st MCI :
  d (drop (Z.to_nat (dsIndex st)) InstBytes) (u64 (V0 + dsIndex st)) = Some (MCI, 0) →
  ∃ st', decode_step (Some d) InstBytes V0 Start st = Done (inr st')
         ∧ dsIndex st' = u64 (dsIndex st + 1).
Proof. intros E. unfold decode_step. rewrite E. cbn. eauto. Qed.

(** The loop leaves on its condition or on the first failed decode, and
    [Len - Index] turns of fuel are enough for it. *)
Lemma decode_loop_exits d InstBytes V0 Start :
  consumes_input d →
  Z.of_nat (length InstBytes) < 2 ^ 64 →
  ∀ fuel st,
    0 ≤ dsIndex st ≤ Z.of_nat (length InstBytes) →
    Z.of_nat (length InstBytes) - dsIndex st ≤ Z.of_nat fuel →
    ∃ st', decode_loop fuel (Some d) InstBytes V0 Start st = Done st'
      ∧ (dsIndex st' = Z.of_nat (length InstBytes)
         ∨ (dsIndex st' < Z.of_nat (length InstBytes)
            ∧ d (drop (Z.to_nat (dsIndex st')) InstBytes) (u64 (V0 + dsIndex st')) = None)).
Proof.
  intros Hd Hlen. induction fuel as [|fuel IH]; intros st Hi Hf.
  - exists st. cbn. destruct (Z.ltb_spec (dsIndex st) (Z.of_nat (length InstBytes))); [lia|].
    split; [done|left; lia].
  - cbn [decode_loop].
    destruct (Z.ltb_spec (dsIndex st) (Z.of_nat (length InstBytes))) as [Hlt|Hge].
    + destruct (decode_step_total d InstBytes V0 Start st) as [[stb|stn] E]; rewrite E; cbn.
      * apply decode_step_break in E as [-> E]. exists st. split; [done|right; done].
      * pose proof (decode_step_advances _ _ _ _ _ _ Hd (conj (proj1 Hi) Hlt) Hlen E) as Hadv.
        apply IH; lia.
    + exists st. split; [done|left; lia].
Qed.

Lemma disasm_raws_total d Start fuel :
  consumes_input d →
  ∀ raws x,
    Forall (λ R : RawInstTy, (length R ≤ fuel)%nat ∧ Z.of_nat (length R) < 2 ^ 64) raws →
    ∃ x', disasm_raws fuel (Some d) Start raws x = Done x'.
Proof.
  intros Hd. induction raws as [|R raws IH]; intros x HF.
  - cbn. eauto.
  - apply Forall_cons in HF as [[Hfu Hlen] HF]. cbn [disasm_raws]. unfold disasm_raw.
    edestruct (decode_loop_exits d R (xVAddr x) Start Hd Hlen fuel) as (st' & E & _);
      [| |rewrite E; cbn; apply IH, HF]; cbn; lia.
Qed.

(** C10: [disassemble] returns on every block, given the disassembler it
    selects never reports more bytes than it was handed: a successful decode
    of size zero advances the offset by one, every turn of the decode loop
    strictly increases the offset, and the loop leaves when the offset
    reaches the length of the raw instruction or at the first failed
    decode. *)
Theorem disassemble_terminates fuel T Cur TB d :
  select_disassembler T Cur TB = Some d →
  consumes_input d →
  Forall (λ R : RawInstTy, (length R ≤ fuel)%nat ∧ Z.of_nat (length R) < 2 ^ 64)
         (RawInsts TB) →
  (∃ r, disassemble fuel T Cur TB = Done r)
  ∧ (∀ InstBytes V0 Start st MCI,
        d (drop (Z.to_nat (dsIndex st)) InstBytes) (u64 (V0 + dsIndex st)) = Some (MCI, 0) →
        ∃ st', decode_step (Some d) InstBytes V0 Start st = Done (inr st')
               ∧ dsIndex st' = u64 (dsIndex st + 1))
  ∧ (∀ InstBytes V0 Start st st',
        0 ≤ dsIndex st < Z.of_nat (length InstBytes) →
        Z.of_nat (length InstBytes) < 2 ^ 64 →
        decode_step (Some d) InstBytes V0 Start st = Done (inr st') →
        dsIndex st < dsIndex st' ≤ Z.of_nat (length InstBytes))
  ∧ (∀ InstBytes V0 Start n st,
        Z.of_nat (length InstBytes) < 2 ^ 64 →
        0 ≤ dsIndex st ≤ Z.of_nat (length InstBytes) →
        Z.of_nat (length InstBytes) - dsIndex st ≤ Z.of_nat n →
        ∃ st', decode_loop n (Some d) InstBytes V0 Start st = Done st'
          ∧ (dsIndex st' = Z.of_nat (length InstBytes)
             ∨ (dsIndex st' < Z.of_nat (length InstBytes)
                ∧ d (drop (Z.to_nat (dsIndex st')) InstBytes)
                    (u64 (V0 + dsIndex st')) = None))).
Proof.
  intros Hsel Hd HF. split_and!.
  - unfold disassemble. destruct (translated TB); [eauto|].
    rewrite Hsel.
    edestruct (disasm_raws_total d (start_address T TB) fuel Hd (RawInsts TB)) as [x' E];
      [exact HF|]. rewrite E. cbn. eauto.
  - intros InstBytes V0 Start st MCI E. by apply (decode_step_zero_size _ _ _ _ _ MCI).
  - intros. by eapply decode_step_advances.
  - intros. by apply decode_loop_exits.
Qed.

End DisassemblerProofs.

Lemma toy_decoder_consumes_input : consumes_input toy_decoder.
Proof.
  intros bytes addr MCI sz. unfold toy_decoder.
  destruct bytes as [|b bytes]; [discriminate|].
  destruct (b =? 255); [discriminate|].
  destruct (b =? 144); intros [= <- <-]; cbn [length]; lia.
Qed.

Lemma disassemble_terminates_witness :
  ∃ r, disassemble 2 toy_target (Some toy_decoder) (newTB failing_raws) = Done r.
Proof.
  apply (disassemble_terminates 2 toy_target (Some toy_decoder)
           (newTB failing_raws) toy_decoder).
  - reflexivity.
  - exact toy_decoder_consumes_input.
  - repeat constructor; cbn; lia.
Defined.

Section SkewProofs.

Context {MCInst : Type}.
Implicit Types (d : @Decoder MCInst) (st : @DecodeState MCInst)
  (x : @DisasmState MCInst) (TB : @TranslationBlock MCInst).

Lemma decode_step_grows Cur R V0 Start st st' :
  decode_step Cur R V0 Start st = Done (inr st') →
  length (dsMCInsts st') = S (length (dsMCInsts st))
  ∧ length (dsVAddrOffsets st') = S (length (dsVAddrOffsets st)).
Proof.
  unfold decode_step. destruct Cur as [d|]; [|discriminate].
  destruct (d _ _) as [[MCI sz]|]; [|discriminate].
  intros [= <-]. cbn. rewrite !length_app. cbn. lia.
Qed.

Lemma decode_step_keeps Cur R V0 Start st st' :
  decode_step Cur R V0 Start st = Done (inl st') → st' = st.
Proof.
  unfold decode_step. destruct Cur as [d|]; [|discriminate].
  destruct (d _ _) as [[MCI sz]|]; [discriminate|]. by intros [= <-].
Qed.

(** Both vectors of the block grow in step, and never shrink. *)
Lemma decode_loop_grows Cur R V0 Start fuel : ∀ st st',
  decode_loop fuel Cur R V0 Start st = Done st' →
  ∃ n : nat, length (dsMCInsts st') = (length (dsMCInsts st) + n)%nat
    ∧ length (dsVAddrOffsets st') = (length (dsVAddrOffsets st) + n)%nat.
Proof.
  induction fuel as [|fuel IH]; intros st st'; cbn [decode_loop];
    destruct (dsIndex st <? _).
  - discriminate.
  - intros [= <-]. exists 0%nat. lia.
  - destruct (decode_step Cur R V0 Start st) as [[s|s]| | |] eqn:E; cbn; try discriminate.
    + intros [= <-]. apply decode_step_keeps in E as ->. exists 0%nat. lia.
    + intros H. apply IH in H as (n & H1 & H2).
      apply decode_step_grows in E as [E1 E2]. exists (S n). lia.
  - intros [= <-]. exists 0%nat. lia.
Qed.

Lemma decode_step_counts Cur R V0 Start L0 K0 st st' :
  0 ≤ K0 ≤ L0 →
  counts_ok L0 K0 st →
  decode_step Cur R V0 Start st = Done (inr st') →
  Z.of_nat (length (dsMCInsts st')) < 2 ^ 32 →
  counts_ok L0 K0 st'.
Proof.
  intros HK (HN & HN0 & HS) E Hb.
  pose proof (decode_step_grows _ _ _ _ _ _ E) as [HL _].
  unfold decode_step in E. destruct Cur as [d|]; [|discriminate].
  destruct (d _ _) as [[MCI sz]|]; [|discriminate].
  injection E as <-. cbn in *. unfold counts_ok. cbn.
  rewrite length_app in *. cbn in *.
  rewrite (u32_small (dsNumMCInsts st + 1)) by lia.
  destruct (Z.ltb_spec 1 (dsNumMCInsts st + 1)).
  - rewrite u32_small by lia. lia.
  - lia.
Qed.

Lemma decode_loop_counts Cur R V0 Start L0 K0 fuel : ∀ st st',
  0 ≤ K0 ≤ L0 →
  counts_ok L0 K0 st →
  decode_loop fuel Cur R V0 Start st = Done st' →
  Z.of_nat (length (dsMCInsts st')) < 2 ^ 32 →
  counts_ok L0 K0 st'.
Proof.
  induction fuel as [|fuel IH]; intros st st' HK HC; cbn [decode_loop];
    destruct (dsIndex st <? _).
  - discriminate.
  - by intros [= <-].
  - destruct (decode_step Cur R V0 Start st) as [[s|s]| | |] eqn:E; cbn; try discriminate.
    + intros [= <-] _. by apply decode_step_keeps in E as ->.
    + intros H Hb. apply (IH s st' HK); [|done..].
      apply (decode_step_counts _ _ _ _ _ _ _ _ HK HC E).
      apply decode_loop_grows in H as (n & H1 & _). lia.
  - by intros [= <-].
Qed.

(** A successful first decode leaves at least one instruction. *)
Lemma decode_loop_first d R V0 Start fuel st st' :
  R ≠ [] → dsIndex st = 0 →
  is_Some (d R (u64 (V0 + 0))) →
  decode_loop fuel (Some d) R V0 Start st = Done st' →
  (length (dsMCInsts st) < length (dsMCInsts st'))%nat.
Proof.
  intros HR Hi [[MCI sz] Hd]. destruct fuel as [|fuel]; cbn [decode_loop]; rewrite Hi.
  - destruct R; [done|]. cbn. discriminate.
  - destruct R as [|b R]; [done|].
    replace (0 <? Z.of_nat (length (b :: R))) with true
      by (symmetry; apply Z.ltb_lt; cbn [length]; lia).
    unfold decode_step at 1. rewrite Hi. change (Z.to_nat 0) with 0%nat.
    rewrite drop_0, Hd. cbn.
    intros H. apply decode_loop_grows in H as (n & H1 & _). cbn in H1.
    rewrite length_app in H1. cbn in H1. lia.
Qed.

Lemma disasm_raw_inv Cur Start fuel R x x' :
  disasm_raw fuel Cur Start R x = Done x' →
  ∃ st, decode_loop fuel Cur R (xVAddr x) Start
          (mkDecodeState 0 0 (xSkewIdxOffset x) (xMCInsts x) (xVAddrOffsets x)) = Done st
    ∧ x' = mkDisasmState (u32 (xRawInstIdx x + 1)) (dsSkewIdxOffset st)
             (u64 (xVAddr x + Z.of_nat (length R))) (dsMCInsts st) (dsVAddrOffsets st)
             (if 0 <? xSkewIdxOffset x
              then <[xRawInstIdx x := u32 (xRawInstIdx x + xSkewIdxOffset x)]> (xSkewIndicies x)
              else xSkewIndicies x).
Proof.
  unfold disasm_raw. destruct (decode_loop _ _ _ _ _ _) as [st| | |]; cbn; try discriminate.
  intros [= <-]. eauto.
Qed.

Lemma disasm_raw_grows Cur Start fuel R x x' :
  disasm_raw fuel Cur Start R x = Done x' →
  ∃ n : nat, length (xMCInsts x') = (length (xMCInsts x) + n)%nat
    ∧ length (xVAddrOffsets x') = (length (xVAddrOffsets x) + n)%nat.
Proof.
  intros H. apply disasm_raw_inv in H as (st & E & ->).
  apply decode_loop_grows in E. exact E.
Qed.

Lemma disasm_raws_grows Cur Start fuel : ∀ raws x x',
  disasm_raws fuel Cur Start raws x = Done x' →
  ∃ n : nat, length (xMCInsts x') = (length (xMCInsts x) + n)%nat
    ∧ length (xVAddrOffsets x') = (length (xVAddrOffsets x) + n)%nat.
Proof.
  induction raws as [|R raws IH]; intros x x'; cbn [disasm_raws].
  - intros [= <-]. exists 0%nat. lia.
  - destruct (disasm_raw fuel Cur Start R x) as [x1| | |] eqn:E; cbn; try discriminate.
    intros H. apply IH in H as (n & H1 & H2).
    apply disasm_raw_grows in E as (m & E1 & E2). exists (m + n)%nat. lia.
Qed.

Lemma disasm_raw_skew Cur Start fuel R k x x' :
  0 ≤ k → skew_ok k x →
  disasm_raw fuel Cur Start R x = Done x' →
  k + 1 + Z.of_nat (length (xMCInsts x')) < 2 ^ 32 →
  skew_ok (k + 1) x'.
Proof.
  intros Hk (HI & HS & HM & HN) H Hb.
  pose proof (disasm_raw_grows _ _ _ _ _ _ H) as (n & Hn & _).
  apply disasm_raw_inv in H as (st & E & ->). cbn in *.
  assert (HC : counts_ok (Z.of_nat (length (xMCInsts x))) (xSkewIdxOffset x) st).
  { eapply decode_loop_counts; [exact HS| |exact E|lia].
    unfold counts_ok. cbn. lia. }
  destruct HC as (HC1 & HC2 & HC3).
  unfold skew_ok. cbn. rewrite HI. split_and!.
  - apply u32_small. lia.
  - lia.
  - lia.
  - intros key v. destruct (Z.ltb_spec 0 (xSkewIdxOffset x)) as [Hpos|Hz].
    + rewrite lookup_insert. case_decide as Hkey.
      * intros [= <-]. subst key. rewrite u32_small by lia. lia.
      * intros Hl. apply HM in Hl. lia.
    + intros Hl. apply HM in Hl. lia.
  - intros [key Hkey]. destruct (Z.ltb_spec 0 (xSkewIdxOffset x)) as [Hpos|Hz]; [lia|].
    assert (0 < xSkewIdxOffset x) by (apply HN; eauto). lia.
Qed.

Lemma disasm_raws_skew Cur Start fuel : ∀ raws k x x',
  0 ≤ k → skew_ok k x →
  disasm_raws fuel Cur Start raws x = Done x' →
  k + Z.of_nat (length raws) + Z.of_nat (length (xMCInsts x')) < 2 ^ 32 →
  skew_ok (k + Z.of_nat (length raws)) x'.
Proof.
  induction raws as [|R raws IH]; intros k x x' Hk Hx; cbn [disasm_raws].
  - intros [= <-] _. cbn. by rewrite Z.add_0_r.
  - destruct (disasm_raw fuel Cur Start R x) as [x1| | |] eqn:E; cbn [mbind outcome_bind]; try discriminate.
    intros H Hb. cbn [length] in *.
    pose proof (disasm_raws_grows _ _ _ _ _ _ H) as (n & Hn & _).
    replace (k + Z.of_nat (S (length raws))) with (k + 1 + Z.of_nat (length raws)) by lia.
    apply (IH (k + 1) x1); [lia| |done|lia].
    eapply disasm_raw_skew; [exact Hk|exact Hx|exact E|lia].
Qed.

(** When every raw instruction yields at least one instruction, the skew
    offset is exactly the surplus of decoded over raw instructions. *)
Lemma disasm_raws_surplus d Start fuel : ∀ raws k x x',
  0 ≤ k → skew_ok k x →
  xSkewIdxOffset x = Z.of_nat (length (xMCInsts x)) - k →
  first_decodes_succeed d (xVAddr x) raws →
  disasm_raws fuel (Some d) Start raws x = Done x' →
  k + Z.of_nat (length raws) + Z.of_nat (length (xMCInsts x')) < 2 ^ 32 →
  xSkewIdxOffset x' = Z.of_nat (length (xMCInsts x')) - (k + Z.of_nat (length raws)).
Proof.
  induction raws as [|R raws IH]; intros k x x' Hk Hx Hs Hf; cbn [disasm_raws].
  - intros [= <-] _. cbn. lia.
  - destruct Hf as (HR & Hd & Hf).
    destruct (disasm_raw fuel (Some d) Start R x) as [x1| | |] eqn:E; cbn [mbind outcome_bind]; try discriminate.
    intros H Hb. cbn [length] in *.
    pose proof (disasm_raws_grows _ _ _ _ _ _ H) as (n & Hn & _).
    assert (Hx1 : skew_ok (k + 1) x1)
      by (eapply disasm_raw_skew; [exact Hk|exact Hx|exact E|lia]).
    replace (k + Z.of_nat (S (length raws))) with (k + 1 + Z.of_nat (length raws)) by lia.
    apply (IH (k + 1) x1); [lia|done| | |done|lia].
    + destruct Hx as (HI & HS & _).
      apply disasm_raw_inv in E as (st & E & ->). cbn in *.
      assert (HC : counts_ok (Z.of_nat (length (xMCInsts x))) (xSkewIdxOffset x) st).
      { eapply decode_loop_counts; [exact HS| |exact E|lia]. unfold counts_ok. cbn. lia. }
      destruct HC as (HC1 & HC2 & HC3).
      apply decode_loop_first in E; [|done..]. cbn in E. lia.
    + apply disasm_raw_inv in E as (st & _ & ->). exact Hf.
Qed.

(** C4 (as amended): after [disassemble] on a block registered with an
    empty skew map, every entry of the skew map belongs to a raw index and
    satisfies [skew_map[k] >= k]; and when every raw instruction is
    non-empty and decodes at its first byte, the skew map has an entry only
    if the decoded instructions strictly outnumber the raw ones.  The counts
    are taken to fit [unsigned]. *)
Theorem skew_map_after_disassemble fuel T Cur TB TB' Cur' :
  SkewIndicies TB = ∅ →
  disassemble fuel T Cur TB = Done (TB', Cur') →
  Z.of_nat (length (RawInsts TB)) + Z.of_nat (length (MCInsts TB')) < 2 ^ 32 →
  (∀ k v, SkewIndicies TB' !! k = Some v →
          0 ≤ k < Z.of_nat (length (RawInsts TB)) ∧ k ≤ v)
  ∧ (∀ d, select_disassembler T Cur TB = Some d →
          first_decodes_succeed d (start_address T TB) (RawInsts TB) →
          (∃ k, is_Some (SkewIndicies TB' !! k)) →
          Z.of_nat (length (RawInsts TB)) < Z.of_nat (length (MCInsts TB'))).
Proof.
  intros Hfresh. unfold disassemble. destruct (translated TB) eqn:Htr.
  - intros [= <- <-] _. rewrite Hfresh. split.
    + intros k v Hl. by rewrite lookup_empty in Hl.
    + intros d _ _ [k [v Hl]]. by rewrite lookup_empty in Hl.
  - destruct (disasm_raws _ _ _ _ _) as [x| | |] eqn:E; cbn; try discriminate.
    intros [= <- <-]. cbn. intros Hb.
    assert (HM : MCInsts TB = []) by (unfold translated in Htr; by destruct (MCInsts TB)).
    assert (H0 : skew_ok 0 (mkDisasmState 0 0 (start_address T TB) (MCInsts TB)
                              (VAddrOffsets TB) (SkewIndicies TB))).
    { unfold skew_ok. cbn. rewrite HM, Hfresh. cbn. split_and!; try lia.
      - intros key v Hl. by rewrite lookup_empty in Hl.
      - intros [key [v Hl]]. by rewrite lookup_empty in Hl. }
    pose proof (disasm_raws_skew _ _ _ _ _ _ _ (Z.le_refl 0) H0 E) as Hsk.
    cbn in Hsk. specialize (Hsk ltac:(lia)). destruct Hsk as (HI & HS & HMap & HN).
    split.
    + intros k v Hl. apply HMap in Hl. lia.
    + intros d Hsel Hfirst Hne. rewrite Hsel in E.
      assert (Hsur : xSkewIdxOffset x
                     = Z.of_nat (length (xMCInsts x)) - (0 + Z.of_nat (length (RawInsts TB)))).
      { eapply disasm_raws_surplus; [done|exact H0| |exact Hfirst|exact E|lia].
        cbn. rewrite HM. cbn. lia. }
      apply HN in Hne. lia.
Qed.

End SkewProofs.

Lemma skew_map_after_disassemble_witness :
  (∀ k v, SkewIndicies skewed_TB !! k = Some v → 0 ≤ k < 2 ∧ k ≤ v)
  ∧ (∀ d, Some toy_decoder = Some d →
          first_decodes_succeed d 0 skewed_raws →
          (∃ k, is_Some (SkewIndicies skewed_TB !! k)) →
          (2 < 3)).
Proof.
  apply (skew_map_after_disassemble 2 toy_target (Some toy_decoder)
           (newTB skewed_raws) skewed_TB (Some toy_decoder)).
  - reflexivity.
  - vm_compute. reflexivity.
  - vm_compute. reflexivity.
Defined.

(** C4 as stated fails: a block whose first raw instruction decodes into two
    instructions and whose second does not decode has a skew entry, and as
    many decoded as raw instructions. *)
Lemma skew_map_counterexample :
  ∃ TB', disassemble 2 toy_target (Some toy_decoder) (newTB failing_raws)
           = Done (TB', Some toy_decoder)
    ∧ SkewIndicies TB' !! 1 = Some 2
    ∧ ¬ (length (RawInsts TB') < length (MCInsts TB'))%nat.
Proof.
  eexists. split; [vm_compute; reflexivity|]. split; [reflexivity|]. cbn. lia.
Qed.

(** ** Memory-access chains *)

Section ChainProofs.

Context {MCInst : Type}.
Implicit Types (TB : @TranslationBlock MCInst) (chain : MemoryAccessChain).


End ChainProofs.


(** ** Splitting a slice *)

(** The halving search finds the boundary of an index-sorted chain: every
    entry before the returned position is below [Idx], none from it on is. *)
Lemma lower_bound_loop_spec (chain : MemoryAccessChain) (Idx : Z) :
  chain_sorted chain →
  ∀ (fuel first len : nat),
    (len ≤ fuel)%nat → (first + len ≤ length chain)%nat →
    (∀ (i : nat) e, (i < first)%nat → chain !! i = Some e → fst e < Idx) →
    (∀ (i : nat) e, (first + len ≤ i)%nat → chain !! i = Some e → Idx ≤ fst e) →
    let r := lower_bound_loop fuel chain Idx first len in
    (r ≤ length chain)%nat
    ∧ (∀ (i : nat) e, (i < r)%nat → chain !! i = Some e → fst e < Idx)
    ∧ (∀ (i : nat) e, (r ≤ i)%nat → chain !! i = Some e → Idx ≤ fst e).
Proof.
  intros Hs. induction fuel as [|fuel IH]; intros first len Hf Hr Hlo Hhi.
  - assert (len = 0%nat) as -> by lia. cbn. split_and!; [lia|exact Hlo|].
    intros i e Hi. apply Hhi. lia.
  - cbn [lower_bound_loop]. destruct len as [|len'].
    { cbn zeta. split_and!; [lia|done|]. intros i e Hi. apply Hhi. lia. }
    assert (Hhalf : (Nat.div2 (S len') < S len')%nat) by (apply Nat.lt_div2; lia).
    remember (S len') as len eqn:Hlen. remember (Nat.div2 len) as half eqn:Hh.
    replace (match len with 0%nat => first | S _ => _ end)
      with (match chain !! (first + half)%nat with
            | Some MAE =>
              if fst MAE <? Idx
              then lower_bound_loop fuel chain Idx (S (first + half)) (len - half - 1)
              else lower_bound_loop fuel chain Idx first half
            | None => first
            end) by (subst len; reflexivity).
    destruct (chain !! (first + half)%nat) as [MAE|] eqn:Em.
    2:{ apply lookup_ge_None in Em. exfalso. lia. }
    destruct (Z.ltb_spec (fst MAE) Idx) as [Hlt|Hge].
    + apply IH; [lia|lia| |].
      * intros i e Hi He.
        assert (fst e ≤ fst MAE) by (apply (Hs i (first + half)%nat); [lia|done..]).
        lia.
      * intros i e Hi. apply Hhi. lia.
    + apply IH; [lia|lia|done|].
      intros i e Hi He.
      assert (fst MAE ≤ fst e) by (apply (Hs (first + half)%nat i); [lia|done..]).
      lia.
Qed.

Lemma lower_bound_spec (chain : MemoryAccessChain) (Idx : Z) :
  chain_sorted chain →
  (lower_bound chain Idx ≤ length chain)%nat
  ∧ (∀ e, e ∈ take (lower_bound chain Idx) chain → fst e < Idx)
  ∧ (∀ e, e ∈ drop (lower_bound chain Idx) chain → Idx ≤ fst e).
Proof.
  intros Hs. unfold lower_bound.
  destruct (lower_bound_loop_spec chain Idx Hs (length chain) 0 (length chain))
    as (Hr & Hlo & Hhi); [lia|lia|intros; lia| |].
  { intros i e Hi He. apply lookup_lt_Some in He. lia. }
  split_and!; [done| |].
  - intros e [i He]%list_elem_of_lookup. apply lookup_take_Some in He as [He Hi].
    by apply (Hlo i).
  - intros e [i He]%list_elem_of_lookup. rewrite lookup_drop in He.
    eapply Hhi; [|exact He]. lia.
Qed.

(** Where some entry of a sorted chain lies at or above the split point,
    [split] hands the entries below it to the new slice and keeps the others,
    in order and without loss. *)
Lemma split_partitions_chain (s : TBSlice) (SplitPoint : Z) chain :
  MemoryAccesses s = Some chain → chain_sorted chain →
  (∃ e, e ∈ chain ∧ SplitPoint ≤ fst e) →
  ∃ front back,
    MemoryAccesses (fst (split s SplitPoint)) = Some front
    ∧ MemoryAccesses (snd (split s SplitPoint)) = Some back
    ∧ front ++ back = chain
    ∧ (∀ e, e ∈ front → fst e < SplitPoint)
    ∧ (∀ e, e ∈ back → SplitPoint ≤ fst e).
Proof.
  intros HM Hs (e & He & Hge).
  destruct (lower_bound_spec chain SplitPoint Hs) as (Hr & Hlo & Hhi).
  unfold split. rewrite HM. case_decide as Hd.
  - cbn. eexists _, _. split_and!; [done|done|apply take_drop|done|done].
  - exfalso. rewrite Hd, firstn_all in Hlo. apply Hlo in He. lia.
Qed.

(** C2 fails on the code: when every entry of the chain lies below the split
    point, [lower_bound] returns the end of the chain and [split] moves
    nothing.  The new front slice is left without a chain and the slice that
    stays in the queue keeps both entries, 0 and 1, though it now starts
    at 2. *)
Theorem split_all_below_moves_nothing :
  chain_sorted low_chain
  ∧ MemoryAccesses (fst (split low_slice 2)) = None
  ∧ BeginIdx (snd (split low_slice 2)) = 2
  ∧ MemoryAccesses (snd (split low_slice 2)) = Some low_chain.
Proof.
  split; [|by vm_compute].
  intros i j e1 e2 Hij H1 H2.
  destruct i as [|[|i]], j as [|[|j]]; cbn in H1, H2; simplify_eq; cbn; lia.
Qed.

(** The same through the fetch engine: a call of size 2 on the slice of
    [accessed_trace] splits it at 2 and hands out the first two instructions
    without publishing either access, where a call of size 4, which pops the
    slice whole, publishes both. *)
Lemma fetch_split_drops_accesses :
  (∃ r, fetchRegion 4 (run_trace 1 toy_target None accessed_trace) [0; 0] 2 no_metadata
        = Done r
     ∧ frValue r = (2, NotEndOfRegion) ∧ frMCIS r = [1; 2] ∧ frMDE r = no_metadata
     ∧ map MemoryAccesses (TBQueue (frBroker r)) = [Some low_chain])
  ∧ (∃ r, fetchRegion 4 (run_trace 1 toy_target None accessed_trace) [0; 0; 0; 0] 4
            no_metadata = Done r
       ∧ frValue r = (4, NotEndOfRegion)
       ∧ (IndexMap <$> frMDE r) = Some [(2, 2); (1, 1)]).
Proof.
  split; eexists; (split; [vm_compute; reflexivity|]); split_and!; reflexivity.
Qed.

(** ** The fetch interface *)

Section FetchInterface.

Context {MCInst : Type} `{EqDecision MCInst}.
Implicit Types (B : @QemuBroker MCInst) (MCIS : list MCInst)
  (MDE : option (@MDExchanger MCInst)).

(** C6: a call with a non-zero size on an empty queue after the end signal
    returns [(-1, EndOfStream)]; the buffer, the broker and the metadata are
    as they were. *)
Theorem fetchRegion_end_of_stream fuel B MCIS n MDE :
  n ≠ 0 → TBQueue B = [] → IsEndOfStream B = true →
  fetchRegion fuel B MCIS n MDE
  = Done (mkFetchResult (-1, EndOfStream) B MCIS MDE).
Proof.
  intros Hn HQ HE. unfold fetchRegion.
  destruct (Z.eqb_spec n 0) as [|_]; [done|]. by rewrite HQ, HE.
Qed.

(** C8: [fetch] returns the first component of what [fetchRegion] returns,
    and leaves the broker, the buffer and the metadata as [fetchRegion]
    does; it blocks, or goes wrong, exactly when [fetchRegion] does. *)
Theorem fetch_is_first_of_fetchRegion fuel B MCIS n MDE :
  fetch fuel B MCIS n MDE
  = match fetchRegion fuel B MCIS n MDE with
    | Done r => Done (mkFetchResult (fst (frValue r)) (frBroker r) (frMCIS r) (frMDE r))
    | OutOfFuel => OutOfFuel
    | Crash => Crash
    | Blocked => Blocked
    end.
Proof. unfold fetch. by destruct (fetchRegion fuel B MCIS n MDE). Qed.

End FetchInterface.

Lemma fetchRegion_end_of_stream_witness :
  fetchRegion 0 ended_broker [7; 7] 2 None
  = Done (mkFetchResult (-1, EndOfStream) ended_broker [7; 7] None).
Proof.
  apply (fetchRegion_end_of_stream 0 ended_broker [7; 7] 2 None);
    [discriminate|reflexivity|reflexivity].
Defined.

(** ** The receiver and the reachable states *)

Section ReceiverProofs.

Context {MCInst : Type} `{EqDecision MCInst}.
Implicit Types (B : @QemuBroker MCInst) (TB : @TranslationBlock MCInst)
  (Blocks : list (option (@TranslationBlock MCInst))) (st : @SelectState)
  (Queue : list TBSlice).

Lemma disassemble_consistent fuel T Cur TB TB' Cur' :
  disassemble fuel T Cur TB = Done (TB', Cur') →
  length (VAddrOffsets TB) = length (MCInsts TB) →
  length (VAddrOffsets TB') = length (MCInsts TB')
  ∧ RawInsts TB' = RawInsts TB.
Proof.
  unfold disassemble. destruct (translated TB).
  - by intros [= <- <-].
  - destruct (disasm_raws _ _ _ _ _) as [x| | |] eqn:E; cbn; try discriminate.
    intros [= <- <-] H. cbn. apply disasm_raws_grows in E as (n & E1 & E2).
    cbn in *. split; [lia|done].
Qed.

Lemma translate_consistent fuel T Cur TB PC TB' Cur' :
  translate_on_first_exec fuel T Cur TB PC = Done (TB', Cur') →
  length (VAddrOffsets TB) = length (MCInsts TB) →
  length (VAddrOffsets TB') = length (MCInsts TB').
Proof.
  unfold translate_on_first_exec. destruct (translated TB).
  - by intros [= <- <-].
  - destruct (disassemble _ _ _ _) as [[TB1 Cur1]| | |] eqn:E; cbn; try discriminate.
    intros [= <- <-] H.
    apply disassemble_consistent in E as [E _]; [|done].
    by destruct (isARM T || isThumb T).
Qed.

(** What a call of [tbExec] that returns has done. *)
Lemma tbExec_cases fuel B E B' :
  tbExec fuel B E = Done B' →
  (is_end_signal E = true ∧ TBQueue B' = TBQueue B ∧ TBs B' = TBs B
     ∧ IsEndOfStream B' = true)
  ∨ (is_end_signal E = false ∧ B' = B)
  ∨ (is_end_signal E = false
     ∧ ∃ TB0 TB Cur,
         TBs B !! Z.to_nat (etIndex E) = Some (Some TB0)
         ∧ translate_on_first_exec fuel (TheTarget B) (CurDisAsm B) TB0 (etPC E)
           = Done (TB, Cur)
         ∧ TBs B' = <[Z.to_nat (etIndex E) := Some TB]> (TBs B)
         ∧ IsEndOfStream B' = IsEndOfStream B
         ∧ let rr := handle_regions (BinRegions B) (CurBinRegion B)
                       (CodeStartAddress B) TB in
           (rrBeginIdx rr = rrEndIdx rr ∧ TBQueue B' = TBQueue B)
           ∨ (rrBeginIdx rr ≠ rrEndIdx rr
              ∧ TBQueue B' = TBQueue B ++
                  [mkTBSlice (etIndex E) (rrBeginIdx rr) (rrEndIdx rr) (rrRegion rr)
                     (build_chain TB (etMemAccesses E))])).
Proof.
  unfold tbExec. destruct (is_end_signal E) eqn:He.
  - intros [= <-]. left. done.
  - destruct (TBs B !! Z.to_nat (etIndex E)) as [[TB0|]|] eqn:El;
      [|intros [= <-]; right; left; done..].
    destruct (translate_on_first_exec _ _ _ _ _) as [[TB Cur]| | |] eqn:Et; cbn;
      try discriminate.
    intros [= <-]. right; right. split; [done|]. exists TB0, TB, Cur. cbn.
    split_and!; try done.
    destruct (Z.eqb_spec (rrBeginIdx (handle_regions (BinRegions B) (CurBinRegion B)
                                        (CodeStartAddress B) TB))
                         (rrEndIdx (handle_regions (BinRegions B) (CurBinRegion B)
                                      (CodeStartAddress B) TB))); [left|right]; done.
Qed.

Lemma addTB_cases B (TB : TranslatedBlock) B' :
  addTB B TB = Done B' →
  TBQueue B' = TBQueue B ∧ IsEndOfStream B' = IsEndOfStream B
  ∧ ∃ Blocks1, TBs B' = <[Z.to_nat (tbIndex TB) := Some (newTB (tbInstructions TB))]> Blocks1
      ∧ (Blocks1 = TBs B
         ∨ ∃ n : nat, (length (TBs B) ≤ n)%nat ∧ Blocks1 = resize n None (TBs B)).
Proof.
  unfold addTB.
  destruct (Z.leb_spec (Z.of_nat (length (TBs B))) (tbIndex TB)) as [Hge|Hlt].
  - destruct (Z.ltb_spec (tbIndex TB)
                (Z.of_nat (length (resize (Z.to_nat (u32 (tbIndex TB + 1))) None (TBs B)))))
      as [Hin|]; [|discriminate].
    intros [= <-]. cbn. split_and!; [done..|]. eexists. split; [done|]. right.
    eexists. split; [|done]. rewrite length_resize in Hin. lia.
  - destruct (Z.ltb_spec (tbIndex TB) (Z.of_nat (length (TBs B)))); [|discriminate].
    intros [= <-]. cbn. split_and!; [done..|]. eexists. split; [done|]. by left.
Qed.

Lemma registered_insert Blocks (i : nat) TB idx :
  registered Blocks idx → registered (<[i := Some TB]> Blocks) idx.
Proof.
  intros [TB0 H]. unfold registered.
  destruct (decide (i = Z.to_nat idx)) as [->|Hne].
  - exists TB. apply list_lookup_insert_eq. by eapply lookup_lt_Some.
  - exists TB0. by rewrite list_lookup_insert_ne.
Qed.

Lemma registered_resize Blocks (n : nat) idx :
  (length Blocks ≤ n)%nat → registered Blocks idx → registered (resize n None Blocks) idx.
Proof.
  intros Hn [TB H]. exists TB. pose proof (lookup_lt_Some _ _ _ H).
  by rewrite lookup_resize by lia.
Qed.

Lemma consistent_insert Blocks (i : nat) TB :
  blocks_consistent Blocks →
  length (VAddrOffsets TB) = length (MCInsts TB) →
  blocks_consistent (<[i := Some TB]> Blocks).
Proof.
  intros HB HT j TB' Hl. destruct (decide (i = j)) as [->|Hne].
  - destruct (decide (j < length Blocks)%nat).
    + rewrite list_lookup_insert_eq in Hl by done. by simplify_eq.
    + rewrite list_insert_ge in Hl by lia. by eapply HB.
  - rewrite list_lookup_insert_ne in Hl by done. by eapply HB.
Qed.

Lemma consistent_resize Blocks (n : nat) :
  blocks_consistent Blocks → blocks_consistent (resize n None Blocks).
Proof.
  intros HB j TB Hl. destruct (decide (j < length Blocks)%nat).
  - destruct (decide (j < n)%nat).
    + rewrite lookup_resize in Hl by done. by eapply HB.
    + rewrite lookup_ge_None_2 in Hl; [done|]. rewrite length_resize. lia.
  - destruct (decide (j < n)%nat).
    + rewrite lookup_resize_new in Hl by lia. done.
    + rewrite lookup_ge_None_2 in Hl; [done|]. rewrite length_resize. lia.
Qed.

(** The selection loop only pops the head or replaces it by its remainder. *)
Lemma select_step_queue Blocks st :
  selQueue (select_step Blocks st) = selQueue st
  ∨ (∃ s rest, selQueue st = s :: rest ∧ selQueue (select_step Blocks st) = rest)
  ∨ (∃ s rest, selQueue st = s :: rest
       ∧ selS (select_step Blocks st) = 0
       ∧ selQueue (select_step Blocks st)
         = snd (split s (u16 (BeginIdx s + selS st))) :: rest).
Proof.
  unfold select_step. destruct (selQueue st) as [|s rest] eqn:EQ; [by left|].
  destruct (Blocks !! Z.to_nat (Index s)) as [[TB|]|]; [|by left|by left].
  destruct (Z.ltb (selS st) _).
  - destruct (split s (u16 (BeginIdx s + selS st))) as [Taken Cur'] eqn:Es. cbn.
    right; right. exists s, rest. by rewrite Es.
  - cbn. right; left. by exists s, rest.
Qed.

Lemma split_snd_index s p : Index (snd (split s p)) = Index s.
Proof. unfold split. by destruct (MemoryAccesses s) as [c|]; [case_decide|]. Qed.

Lemma select_step_registered Blocks st :
  queue_registered Blocks (selQueue st) →
  queue_registered Blocks (selQueue (select_step Blocks st)).
Proof.
  intros HQ.
  destruct (select_step_queue Blocks st) as [->|[(s & rest & E1 & ->)|(s & rest & E1 & _ & ->)]];
    [done| |]; rewrite E1 in HQ.
  - intros s' Hs'. apply HQ. by right.
  - intros s' [->|Hs']%elem_of_cons.
    + rewrite split_snd_index. apply HQ. by left.
    + apply HQ. by right.
Qed.

Lemma select_loop_registered Blocks fuel : ∀ st st',
  select_loop fuel Blocks st = Done st' →
  queue_registered Blocks (selQueue st) →
  queue_registered Blocks (selQueue st').
Proof.
  induction fuel as [|fuel IH]; intros st st'; cbn [select_loop];
    destruct (select_cond st); try discriminate; try by intros [= <-].
  intros H HQ. apply (IH _ _ H). by apply select_step_registered.
Qed.

Lemma fetchRegion_cases fuel B (MCIS : list MCInst) n MDE r :
  fetchRegion fuel B MCIS n MDE = Done r →
  TBs (frBroker r) = TBs B ∧ IsEndOfStream (frBroker r) = IsEndOfStream B
  ∧ (TBQueue (frBroker r) = TBQueue B
     ∨ ∃ S0 sel, select_loop fuel (TBs B) (mkSelectState S0 (TBQueue B) [] false) = Done sel
         ∧ TBQueue (frBroker r) = selQueue sel).
Proof.
  unfold fetchRegion. destruct (n =? 0); [intros [= <-]; cbn; auto|].
  destruct (TBQueue B) as [|s Q] eqn:EQ.
  - destruct (IsEndOfStream B) eqn:HE; [|discriminate]. intros [= <-]. cbn.
    split_and!; [done|done|by left].
  - destruct (select_loop _ _ _) as [sel| | |] eqn:Es; cbn; try discriminate.
    destruct (copy_slices _ _ _ _ _) as [cp| | |]; cbn; try discriminate.
    intros [= <-]. cbn. split_and!; [done..|]. right. eauto.
Qed.

(** Every block of a reachable broker has as many offsets as instructions,
    and every queued slice points at a registered block. *)
Lemma step_invariant B B' :
  step B B' →
  blocks_consistent (TBs B) ∧ queue_registered (TBs B) (TBQueue B) →
  blocks_consistent (TBs B') ∧ queue_registered (TBs B') (TBQueue B').
Proof.
  intros Hstep [HC HQ]. destruct Hstep as [fuel B m B' H|fuel B MCIS n MDE r H].
  - destruct m as [LoadAddr|TB|E]; cbn in H.
    + by injection H as <-.
    + apply addTB_cases in H as (-> & _ & Blocks1 & -> & HB1). split.
      * apply consistent_insert; [|done].
        destruct HB1 as [->|(n & _ & ->)]; [done|by apply consistent_resize].
      * intros s Hs. apply registered_insert.
        destruct HB1 as [->|(n & Hn & ->)]; [by apply HQ|].
        apply registered_resize; [done|by apply HQ].
    + apply tbExec_cases in H
        as [(_ & -> & -> & _)|[(_ & ->)|(_ & TB0 & TB & Cur & Hl & Ht & -> & _ & Hq)]];
        [done|done|].
      split.
      * apply consistent_insert; [done|].
        eapply translate_consistent; [exact Ht|]. by eapply HC.
      * cbn zeta in Hq. destruct Hq as [[_ ->]|[_ ->]].
        -- intros s Hs. apply registered_insert. by apply HQ.
        -- intros s [Hs| ->%list_elem_of_singleton]%elem_of_app.
           ++ apply registered_insert. by apply HQ.
           ++ cbn. exists TB. apply list_lookup_insert_eq. by eapply lookup_lt_Some.
  - apply fetchRegion_cases in H as (-> & _ & [->|(S0 & sel & Hs & ->)]); [done|].
    split; [done|]. by eapply select_loop_registered.
Qed.

Lemma reachable_invariant T BR B :
  reachable T BR B →
  blocks_consistent (TBs B) ∧ queue_registered (TBs B) (TBQueue B).
Proof.
  unfold reachable. intros H.
  apply (rtc_ind_r (R := step)
           (λ B, blocks_consistent (TBs B) ∧ queue_registered (TBs B) (TBQueue B))
           (newBroker T BR)); [| |exact H].
  - cbn. split; [intros i TB Hl; done|intros s Hs; by apply elem_of_nil in Hs].
  - intros B1 B2 _ Hstep IH. by eapply step_invariant.
Qed.

Lemma handle_messages_reachable T BR fuel : ∀ ms B B',
  reachable T BR B → handle_messages fuel B ms = Done B' → reachable T BR B'.
Proof.
  induction ms as [|m ms IH]; intros B B' HR; cbn [handle_messages].
  - by intros [= <-].
  - destruct (handle_message fuel B m) as [B1| | |] eqn:E; cbn; try discriminate.
    apply IH. eapply rtc_r; [exact HR|]. by eapply step_receive.
Qed.

(** C5 (as amended): the end signal sets the flag and queues nothing, and
    the flag once set stays set; the receiver does not consult it, so a
    later message leaves the queue alone unless it is an [ExecTB] other than
    the end signal for a registered block, which may still append its
    slice. *)
Theorem after_end_of_stream fuel B m B' :
  IsEndOfStream B = true →
  handle_message fuel B m = Done B' →
  IsEndOfStream B' = true
  ∧ (TBQueue B' = TBQueue B
     ∨ ∃ E s, m = Msg_ExecTB E ∧ is_end_signal E = false
         ∧ registered (TBs B) (etIndex E)
         ∧ TBQueue B' = TBQueue B ++ [s] ∧ Index s = etIndex E)
  ∧ (∀ B0 E, is_end_signal E = true →
       ∃ B1, tbExec fuel B0 E = Done B1
         ∧ IsEndOfStream B1 = true ∧ TBQueue B1 = TBQueue B0).
Proof.
  intros HE H. split_and!.
  - destruct m as [LoadAddr|TB|E]; cbn in H.
    + by injection H as <-.
    + apply addTB_cases in H as (_ & -> & _). done.
    + apply tbExec_cases in H as [(_ & _ & _ & ->)|[(_ & ->)|(_ & _ & _ & _ & _ & _ & _ & -> & _)]];
        done.
  - destruct m as [LoadAddr|TB|E]; cbn in H.
    + left. by injection H as <-.
    + left. by apply addTB_cases in H as (-> & _).
    + apply tbExec_cases in H
        as [(_ & -> & _)|[(_ & ->)|(Hne & TB0 & TB & Cur & Hl & _ & _ & _ & Hq)]];
        [by left|by left|].
      cbn zeta in Hq. destruct Hq as [[_ ->]|[_ ->]]; [by left|].
      right. eexists E, _. split_and!; [done|done|by exists TB0|done|done].
  - intros B0 E HS. unfold tbExec. rewrite HS. eexists. split; [done|]. done.
Qed.

Lemma select_step_unregistered Blocks st s rest :
  selQueue st = s :: rest → ¬ registered Blocks (Index s) →
  selQueue (select_step Blocks st) = selQueue st
  ∧ selSelected (select_step Blocks st) = selSelected st
  ∧ selS (select_step Blocks st) = selS st.
Proof.
  intros EQ Hn. unfold select_step. rewrite EQ.
  destruct (Blocks !! Z.to_nat (Index s)) as [[TB|]|] eqn:El; [|done..].
  exfalso. apply Hn. by exists TB.
Qed.

Lemma select_step_progress Blocks st :
  select_cond st = true →
  queue_registered Blocks (selQueue st) →
  (length (selQueue (select_step Blocks st)) < length (selQueue st))%nat
  ∨ selS (select_step Blocks st) = 0.
Proof.
  intros Hc HQ. unfold select_step.
  destruct (selQueue st) as [|s rest] eqn:EQ.
  { unfold select_cond in Hc. rewrite EQ in Hc. rewrite bool_decide_eq_false_2 in Hc by auto.
    rewrite andb_false_r in Hc. done. }
  destruct (HQ s ltac:(by left)) as [TB ->].
  destruct (Z.ltb (selS st) _).
  - destruct (split s _) as [Taken Cur']. cbn. by right.
  - cbn. left. lia.
Qed.

Lemma select_loop_returns Blocks fuel : ∀ st,
  queue_registered Blocks (selQueue st) →
  selS st = 0 ∨ (length (selQueue st) ≤ fuel)%nat →
  ∃ st', select_loop fuel Blocks st = Done st'.
Proof.
  induction fuel as [|fuel IH]; intros st HQ Hf; cbn [select_loop];
    destruct (select_cond st) eqn:Hc; eauto.
  - exfalso. unfold select_cond in Hc.
    apply andb_prop in Hc as [[Hs Hq]%andb_prop _].
    apply Z.ltb_lt in Hs. apply bool_decide_eq_true in Hq.
    destruct Hf as [?|Hf]; [lia|]. destruct (selQueue st); [done|cbn in Hf; lia].
  - apply IH; [by apply select_step_registered|].
    assert (0 < selS st)
      by (unfold select_cond in Hc; apply andb_prop in Hc as [[Hs _]%andb_prop _];
          by apply Z.ltb_lt in Hs).
    destruct (select_step_progress Blocks st Hc HQ) as [Hlt|Hz]; [|by left].
    right. destruct Hf as [?|Hf]; lia.
Qed.

(** With an unregistered block at the head, a turn of the selection loop
    changes nothing, and the loop does not leave. *)
Lemma select_loop_spins Blocks s rest fuel : ∀ st,
  select_cond st = true →
  selQueue st = s :: rest → ¬ registered Blocks (Index s) →
  ends_region (selSelected st) = false →
  select_loop fuel Blocks st = OutOfFuel.
Proof.
  induction fuel as [|fuel IH]; intros st Hc EQ Hn He; cbn [select_loop]; rewrite Hc; [done|].
  assert (Hst : select_step Blocks st = st).
  { unfold select_step. rewrite EQ.
    assert (Hnone : ∀ TB, Blocks !! Z.to_nat (Index s) ≠ Some (Some TB))
      by (intros TB HTB; apply Hn; by exists TB).
    unfold select_cond in Hc. apply andb_prop in Hc as [_ Hr%negb_true_iff].
    destruct st as [S0 Q Sel EoR]. cbn in *. subst.
    destruct (Blocks !! Z.to_nat (Index s)) as [[TB|]|] eqn:El;
      [by destruct (Hnone TB)|by rewrite He..]. }
  rewrite Hst. by apply IH.
Qed.

(** C9 (as amended): in every reachable state each queued slice carries a
    block index within the cache at a registered block, whose decoded
    sequence may be empty; the selection loop pops or splits the head only
    when its block is registered, under that condition every turn pops the
    head or ends the loop, so the loop returns within one turn per queued
    slice, and with an unregistered head it would turn for ever. *)
Theorem queued_slices_registered T BR B :
  reachable T BR B →
  queue_registered (TBs B) (TBQueue B)
  ∧ (∀ fuel S0, (length (TBQueue B) ≤ fuel)%nat →
       ∃ sel, select_loop fuel (TBs B) (mkSelectState S0 (TBQueue B) [] false) = Done sel)
  ∧ (∀ Blocks st, select_cond st = true → queue_registered Blocks (selQueue st) →
       (length (selQueue (select_step Blocks st)) < length (selQueue st))%nat
       ∨ selS (select_step Blocks st) = 0)
  ∧ (∀ Blocks st s rest, selQueue st = s :: rest → ¬ registered Blocks (Index s) →
       selQueue (select_step Blocks st) = selQueue st
       ∧ selSelected (select_step Blocks st) = selSelected st
       ∧ selS (select_step Blocks st) = selS st)
  ∧ (∀ fuel Blocks st s rest, select_cond st = true → selQueue st = s :: rest →
       ¬ registered Blocks (Index s) → ends_region (selSelected st) = false →
       select_loop fuel Blocks st = OutOfFuel).
Proof.
  intros HR. apply reachable_invariant in HR as [_ HQ]. split_and!.
  - exact HQ.
  - intros fuel S0 Hf. apply select_loop_returns; [exact HQ|by right].
  - intros. by apply select_step_progress.
  - intros. by eapply select_step_unregistered.
  - intros. by eapply select_loop_spins.
Qed.

End ReceiverProofs.

Lemma run_trace_reachable {MCInst : Type} `{EqDecision MCInst} fuel (T : @Target MCInst) BR ms :
  reachable T BR (run_trace fuel T BR ms).
Proof.
  unfold run_trace.
  destruct (handle_messages fuel (newBroker T BR) ms) as [B| | |] eqn:E;
    try apply rtc_refl.
  eapply handle_messages_reachable; [apply rtc_refl|exact E].
Qed.

Lemma after_end_of_stream_witness :
  IsEndOfStream (run_trace 2 toy_target None (ended_trace ++ [Msg_ExecTB exec_block0]))
  = true.
Proof.
  refine (proj1 (after_end_of_stream 2
                   (run_trace 2 toy_target None ended_trace)
                   (Msg_ExecTB exec_block0)
                   (run_trace 2 toy_target None (ended_trace ++ [Msg_ExecTB exec_block0]))
                   _ _)).
  - vm_compute. reflexivity.
  - vm_compute. reflexivity.
Defined.

(** C5 as stated fails: block 0 is registered, the end signal sets the flag
    with the queue empty, and the execution of block 0 that follows is
    queued all the same. *)
Lemma exec_after_end_signal_is_queued :
  ∃ B B', handle_messages 2 (newBroker toy_target None) ended_trace = Done B
    ∧ IsEndOfStream B = true ∧ TBQueue B = []
    ∧ handle_message 2 B (Msg_ExecTB exec_block0) = Done B'
    ∧ TBQueue B' = [mkTBSlice 0 0 65535 None None].
Proof.
  eexists _, _. split_and!; [vm_compute; reflexivity|reflexivity|reflexivity
                            |vm_compute; reflexivity|reflexivity].
Qed.

Lemma queued_slices_registered_witness :
  ∃ sel, select_loop 1 (TBs (run_trace 2 toy_target None plain_trace))
           (mkSelectState 2 (TBQueue (run_trace 2 toy_target None plain_trace)) [] false)
         = Done sel.
Proof.
  refine (proj1 (proj2 (queued_slices_registered toy_target None
                          (run_trace 2 toy_target None plain_trace)
                          (run_trace_reachable 2 toy_target None plain_trace)))
                1%nat 2 _).
  vm_compute. lia.
Defined.

(** C9 as stated fails: a block whose only raw instruction does not decode
    is registered and executed; its slice is queued, and the block it points
    at has no decoded instruction. *)
Lemma queued_slice_of_empty_block :
  ∃ s TB, reachable toy_target None (run_trace 1 toy_target None undecodable_trace)
    ∧ TBQueue (run_trace 1 toy_target None undecodable_trace) = [s]
    ∧ TBs (run_trace 1 toy_target None undecodable_trace) !! Z.to_nat (Index s)
      = Some (Some TB)
    ∧ MCInsts TB = [].
Proof.
  eexists _, _. split; [apply run_trace_reachable|].
  split_and!; [vm_compute; reflexivity|vm_compute; reflexivity|reflexivity].
Qed.

(** ** Bounds of queued slices *)

Section SliceBounds.

Context {MCInst : Type} `{EqDecision MCInst}.
Implicit Types (B : @QemuBroker MCInst) (TB : @TranslationBlock MCInst)
  (Blocks : list (option (@TranslationBlock MCInst))) (st : @SelectState).

Lemma scan_start_range regions VA : ∀ offsets i0 i R,
  scan_start regions VA offsets i0 = (i, R) →
  (R = None ∧ i = i0 + Z.of_nat (length offsets))
  ∨ (is_Some R ∧ i0 ≤ i < i0 + Z.of_nat (length offsets)).
Proof.
  induction offsets as [|o offsets IH]; intros i0 i R; cbn [scan_start length].
  - intros [= <- <-]. left. split; [done|lia].
  - destruct (lookup_region regions (u64 (VA + o))) as [R0|].
    + intros [= <- <-]. right. split; [by eexists|lia].
    + intros H. apply IH in H as [[-> ->]|[HR Hi]]; [left|right]; (split; [done|lia]).
Qed.

Lemma scan_end_range R VA : ∀ offsets i0,
  i0 ≤ scan_end R VA offsets i0 ≤ i0 + Z.of_nat (length offsets).
Proof.
  induction offsets as [|o offsets IH]; intros i0; cbn [scan_end length]; [lia|].
  destruct (EndAddr R =? u64 (VA + o)); [lia|]. specialize (IH (i0 + 1)). lia.
Qed.

(** What the region tracker hands to the queue: a non-empty range that ends
    at the open-end mark [0xFFFF] or within the decoded instructions. *)
Lemma handle_regions_bounds BR Cur CodeStart TB :
  let rr := handle_regions BR Cur CodeStart TB in
  let len := Z.of_nat (length (VAddrOffsets TB)) in
  len < 2 ^ 16 →
  rrBeginIdx rr ≠ rrEndIdx rr →
  0 ≤ rrBeginIdx rr < rrEndIdx rr
  ∧ (rrEndIdx rr = 2 ^ 16 - 1 ∨ rrEndIdx rr ≤ len)
  ∧ (rrBeginIdx rr = 0 ∨ rrBeginIdx rr < len)
  ∧ (is_Some (rrRegion rr) → rrEndIdx rr ≤ len).
Proof.
  cbn zeta. intros HS. unfold handle_regions.
  assert (Hnone : ¬ is_Some (@None BinaryRegion)) by (intros [? ?]; done).
  destruct BR as [[|r0 regions]|]; cbn; try (intros _; split_and!; [lia|lia|auto|auto|done]).
  set (VA := u64 (VAddr TB - CodeStart)).
  destruct Cur as [R|].
  - (* inside a region: the slice starts at 0 *)
    destruct (CodeStart <=? VAddr TB); cbn;
      [|intros _; split_and!; [lia|lia|auto|auto|done]].
    change (Z.to_nat 0) with 0%nat. rewrite drop_0.
    pose proof (scan_end_range R VA (VAddrOffsets TB) 0) as Hr.
    destruct (Z.eqb_spec (scan_end R VA (VAddrOffsets TB) 0)
                (Z.of_nat (length (VAddrOffsets TB)))); cbn.
    + intros _. split_and!; [lia|lia|auto|auto|done].
    + intros _. rewrite u16_small by lia. split_and!; [lia|lia|right; lia|auto|intros _; lia].
  - destruct (CodeStart <=? VAddr TB); cbn; [|lia].
    destruct (scan_start (r0 :: regions) VA (VAddrOffsets TB) 0) as [i R] eqn:Es.
    apply scan_start_range in Es as [[-> ->]|[[R' ->] Hi]].
    + rewrite Z.eqb_refl. cbn. lia.
    + destruct (Z.eqb_spec i (Z.of_nat (length (VAddrOffsets TB)))); [lia|].
      rewrite (u16_small i) by lia.
      pose proof (scan_end_range R' VA (drop (Z.to_nat i) (VAddrOffsets TB)) i) as Hr.
      rewrite length_drop in Hr.
      destruct (Z.eqb_spec (scan_end R' VA (drop (Z.to_nat i) (VAddrOffsets TB)) i)
                  (Z.of_nat (length (VAddrOffsets TB)))); cbn.
      * intros _. split_and!; [lia|lia|auto|right; lia|done].
      * intros _. rewrite u16_small by lia.
        split_and!; [lia|lia|right; lia|right; lia|intros _; lia].
Qed.

Lemma split_snd_fields s p :
  Index (snd (split s p)) = Index s ∧ BeginIdx (snd (split s p)) = p
  ∧ EndIdx (snd (split s p)) = EndIdx s ∧ Region (snd (split s p)) = Region s.
Proof. unfold split. by destruct (MemoryAccesses s) as [c|]; [case_decide|]. Qed.

Lemma split_fst_fields s p :
  Index (fst (split s p)) = Index s ∧ BeginIdx (fst (split s p)) = BeginIdx s
  ∧ EndIdx (fst (split s p)) = p ∧ Region (fst (split s p)) = Region s.
Proof. unfold split. by destruct (MemoryAccesses s) as [c|]; [case_decide|]. Qed.

(** The call of [split] in [fetchRegion] meets the assertion of [split],
    and what it leaves at the head of the queue is a non-empty range with
    the end it had. *)
Lemma select_step_residual Blocks st s rest :
  selQueue st = s :: rest → select_cond st = true →
  0 ≤ BeginIdx s < EndIdx s → EndIdx s < 2 ^ 16 →
  selQueue (select_step Blocks st) = selQueue st
  ∨ selQueue (select_step Blocks st) = rest
  ∨ ∃ s', selQueue (select_step Blocks st) = s' :: rest
      ∧ split_pre s (BeginIdx s')
      ∧ Index s' = Index s ∧ EndIdx s' = EndIdx s ∧ Region s' = Region s
      ∧ BeginIdx s < BeginIdx s' < EndIdx s'.
Proof.
  intros EQ Hc Hb He.
  assert (HS : 0 < selS st)
    by (unfold select_cond in Hc; apply andb_prop in Hc as [[Hs _]%andb_prop _];
        by apply Z.ltb_lt in Hs).
  unfold select_step. rewrite EQ.
  destruct (Blocks !! Z.to_nat (Index s)) as [[TB|]|]; [|by left..].
  unfold slice_size. rewrite u64_small by lia.
  destruct (Z.ltb_spec (selS st)
              (Z.min (Z.of_nat (length (MCInsts TB))) (EndIdx s - BeginIdx s))) as [Hlt|Hge].
  - destruct (split s (u16 (BeginIdx s + selS st))) as [Taken Cur'] eqn:Es. cbn.
    right; right. exists Cur'. split; [done|].
    pose proof (split_snd_fields s (u16 (BeginIdx s + selS st))) as (H1 & H2 & H3 & H4).
    rewrite Es in *. cbn in *. rewrite u16_small in H2 by lia.
    unfold split_pre. rewrite H1, H2, H3, H4. split_and!; try done; lia.
  - cbn. right; left. done.
Qed.

(** C1 (as amended): a slice pushed by [tbExec] in a reachable state onto
    a block of fewer than 65536 decoded instructions satisfies
    [0 <= begin_idx < end_idx], where [end_idx] is the open-end mark
    [0xFFFF] or at most the number of decoded instructions of its block, the
    latter whenever the slice closes a region; and a split in the fetch
    engine leaves at the head of the queue a slice with the same end and
    [begin_idx < end_idx]. *)
Theorem queued_slice_bounds T BR B :
  reachable T BR B →
  (∀ fuel E B', tbExec fuel B E = Done B' →
     TBQueue B' = TBQueue B
     ∨ ∃ s TB, TBQueue B' = TBQueue B ++ [s]
         ∧ TBs B' !! Z.to_nat (Index s) = Some (Some TB)
         ∧ (Z.of_nat (length (MCInsts TB)) < 2 ^ 16 →
            0 ≤ BeginIdx s < EndIdx s
            ∧ (EndIdx s = 2 ^ 16 - 1 ∨ EndIdx s ≤ Z.of_nat (length (MCInsts TB)))
            ∧ (BeginIdx s = 0 ∨ BeginIdx s < Z.of_nat (length (MCInsts TB)))
            ∧ (is_Some (Region s) → EndIdx s ≤ Z.of_nat (length (MCInsts TB)))))
  ∧ (∀ Blocks st s rest,
       selQueue st = s :: rest → select_cond st = true →
       0 ≤ BeginIdx s < EndIdx s → EndIdx s < 2 ^ 16 →
       selQueue (select_step Blocks st) = selQueue st
       ∨ selQueue (select_step Blocks st) = rest
       ∨ ∃ s', selQueue (select_step Blocks st) = s' :: rest
           ∧ split_pre s (BeginIdx s')
           ∧ Index s' = Index s ∧ EndIdx s' = EndIdx s ∧ Region s' = Region s
           ∧ BeginIdx s < BeginIdx s' < EndIdx s').
Proof.
  intros HR. apply reachable_invariant in HR as [HC _]. split.
  - intros fuel E B' H.
    apply tbExec_cases in H
      as [(_ & -> & _)|[(_ & ->)|(_ & TB0 & TB & Cur & Hl & Ht & HT & _ & Hq)]];
      [by left|by left|].
    cbn zeta in Hq. destruct Hq as [[_ ->]|[Hne ->]]; [by left|].
    right. eexists _, TB. split; [done|]. cbn [Index BeginIdx EndIdx Region]. split.
    + rewrite HT. apply list_lookup_insert_eq. by eapply lookup_lt_Some.
    + intros Hlen.
      assert (Hcons : length (VAddrOffsets TB) = length (MCInsts TB)).
      { eapply translate_consistent; [exact Ht|]. by eapply HC. }
      pose proof (handle_regions_bounds (BinRegions B) (CurBinRegion B)
                    (CodeStartAddress B) TB) as Hb.
      cbn zeta in Hb. rewrite Hcons in Hb. by apply Hb.
  - intros. by apply select_step_residual.
Qed.

End SliceBounds.

Lemma queued_slice_bounds_witness :
  let B := run_trace 2 toy_target None plain_trace in
  let B' := run_trace 2 toy_target None (plain_trace ++ [Msg_ExecTB exec_block0]) in
  TBQueue B' = TBQueue B
  ∨ ∃ s TB, TBQueue B' = TBQueue B ++ [s]
      ∧ TBs B' !! Z.to_nat (Index s) = Some (Some TB)
      ∧ (Z.of_nat (length (MCInsts TB)) < 2 ^ 16 →
         0 ≤ BeginIdx s < EndIdx s
         ∧ (EndIdx s = 2 ^ 16 - 1 ∨ EndIdx s ≤ Z.of_nat (length (MCInsts TB)))
         ∧ (BeginIdx s = 0 ∨ BeginIdx s < Z.of_nat (length (MCInsts TB)))
         ∧ (is_Some (Region s) → EndIdx s ≤ Z.of_nat (length (MCInsts TB)))).
Proof.
  refine (proj1 (queued_slice_bounds toy_target None
                   (run_trace 2 toy_target None plain_trace)
                   (run_trace_reachable 2 toy_target None plain_trace))
                2%nat exec_block0
                (run_trace 2 toy_target None (plain_trace ++ [Msg_ExecTB exec_block0])) _).
  vm_compute. reflexivity.
Defined.

(** C1 as stated fails: without regions the slice of an executed block is
    queued with the open-end mark [0xFFFF] as its end, past the three
    decoded instructions of the block. *)
Lemma open_ended_slice_exceeds_block :
  ∃ s TB, reachable toy_target None (run_trace 2 toy_target None plain_trace)
    ∧ TBQueue (run_trace 2 toy_target None plain_trace) = [s]
    ∧ TBs (run_trace 2 toy_target None plain_trace) !! Z.to_nat (Index s)
      = Some (Some TB)
    ∧ length (MCInsts TB) = 3%nat
    ∧ EndIdx s = 65535
    ∧ ¬ EndIdx s ≤ Z.of_nat (length (MCInsts TB)).
Proof.
  eexists _, _. split; [apply run_trace_reachable|].
  split_and!; [vm_compute; reflexivity|vm_compute; reflexivity|reflexivity|reflexivity|].
  cbn. lia.
Qed.

(** ** What a fetch delivers *)

Section FetchProofs.

Context {MCInst : Type} `{EqDecision MCInst}.
Implicit Types (B : @QemuBroker MCInst) (TB : @TranslationBlock MCInst)
  (Blocks : list (option (@TranslationBlock MCInst))) (st : @SelectState)
  (cp : @CopyState MCInst) (MCIS Insts : list MCInst).

(** The inner copy loop writes the next [m] instructions of the block
    behind what the buffer holds already. *)
Lemma copy_loop_spec Insts End TotalSize : ∀ (m fuel : nat) cp,
  ci cp + Z.of_nat m = End → 0 ≤ ci cp →
  End ≤ Z.of_nat (length Insts) → End < 2 ^ 64 →
  Z.of_nat m ≤ cSize cp → 0 ≤ TotalSize - cSize cp →
  TotalSize - cSize cp + Z.of_nat m ≤ Z.of_nat (length (cMCIS cp)) →
  (m ≤ fuel)%nat →
  ∃ cp', copy_loop fuel Insts End TotalSize cp = Done cp'
    ∧ cSize cp' = cSize cp - Z.of_nat m
    ∧ length (cMCIS cp') = length (cMCIS cp)
    ∧ take (Z.to_nat (TotalSize - cSize cp')) (cMCIS cp')
      = take (Z.to_nat (TotalSize - cSize cp)) (cMCIS cp)
        ++ take m (drop (Z.to_nat (ci cp)) Insts).
Proof.
  induction m as [|m IH]; intros fuel cp Hi Hi0 HE HE64 Hm Ho Hbuf Hf.
  - exists cp. split.
    + destruct fuel; cbn [copy_loop];
        (destruct (Z.eqb_spec (ci cp) End); [done|lia]).
    + split_and!; [lia|done|]. cbn [take]. by rewrite app_nil_r.
  - destruct fuel as [|fuel]; [lia|]. cbn [copy_loop].
    destruct (Z.eqb_spec (ci cp) End); [lia|].
    destruct (Z.ltb_spec 0 (cSize cp)); [|lia]. cbn [negb andb].
    unfold copy_step.
    destruct (Insts !! Z.to_nat (ci cp)) as [MCI|] eqn:El.
    2:{ apply lookup_ge_None in El. lia. }
    set (o := Z.to_nat (TotalSize - cSize cp)).
    destruct (match cMAs cp with
              | Some ((idx, MDA) :: chain) =>
                if idx =? ci cp
                then (setMemoryAccessMD (cMDE cp) MCI MDA (u32 (cTotalNumTraces cp + 1)),
                      Some chain)
                else (cMDE cp, cMAs cp)
              | _ => (cMDE cp, cMAs cp)
              end) as [MDE' MAs'].
    cbn [mbind outcome_bind]. rewrite (u64_small (ci cp + 1)) by lia.
    destruct (IH fuel (mkCopyState (cSize cp - 1) (<[o := MCI]> (cMCIS cp))
                         (u32 (cTotalNumTraces cp + 1)) MDE' (ci cp + 1) MAs'))
      as (cp' & E & HS & HL & HT); cbn [ci cSize cMCIS];
      try rewrite length_insert; try lia.
    cbn [ci cSize cMCIS] in *.
    exists cp'. split; [exact E|]. split_and!; [lia|by rewrite HL, length_insert|].
    rewrite HT.
    replace (Z.to_nat (TotalSize - (cSize cp - 1))) with (S o) by lia.
    rewrite (take_S_r _ _ MCI) by (apply list_lookup_insert_eq; lia).
    rewrite take_insert_ge by lia.
    rewrite <- (assoc_L (++)). f_equal.
    rewrite (drop_S _ _ _ El). cbn [take app]. f_equal. f_equal. f_equal. lia.
Qed.

Lemma ends_region_snoc (Sel : list TBSlice) s :
  Region s = None → ends_region (Sel ++ [s]) = false.
Proof.
  intros H. unfold ends_region. rewrite last_snoc, H.
  apply bool_decide_eq_false_2. by intros [? ?].
Qed.

Lemma drop_take_drop_slice {A} (l : list A) (b s n : nat) :
  (s ≤ n)%nat → drop s (take n (drop b l)) = take (n - s) (drop (b + s) l).
Proof.
  intros H. rewrite <- (drop_drop l s b).
  rewrite (take_drop_commute (drop b l) (n - s) s).
  replace (s + (n - s))%nat with n by lia. done.
Qed.

Lemma select_loop_done fuel Blocks st :
  select_cond st = false → select_loop fuel Blocks st = Done st.
Proof. intros H. destruct fuel; cbn [select_loop]; by rewrite H. Qed.

Lemma select_cond_nil S0 (Sel : list TBSlice) e :
  select_cond (mkSelectState S0 [] Sel e) = false.
Proof.
  unfold select_cond. cbn [selQueue]. rewrite (bool_decide_eq_false_2 ([] ≠ [])) by auto.
  by rewrite andb_false_r.
Qed.

Lemma select_cond_zero (Q Sel : list TBSlice) e :
  select_cond (mkSelectState 0 Q Sel e) = false.
Proof. done. Qed.

Lemma select_cond_more S0 s (Q Sel : list TBSlice) :
  0 < S0 → select_cond (mkSelectState S0 (s :: Q) Sel false) = true.
Proof.
  intros H. unfold select_cond. cbn [selS selQueue selEndOfRegion].
  rewrite (bool_decide_eq_true_2 (s :: Q ≠ [])) by done.
  replace (0 <? S0) with true by (symmetry; by apply Z.ltb_lt). done.
Qed.

End FetchProofs.


(** * Further properties of the broker *)

(** ** Chains and splits *)

Lemma low_chain_sorted : chain_sorted low_chain.
Proof.
  intros i j e1 e2 Hij H1 H2.
  destruct i as [|[|i]], j as [|[|j]]; cbn in H1, H2; simplify_eq; cbn; lia.
Qed.

Lemma filter_all {A} (P : A → Prop) `{∀ x, Decision (P x)} (l : list A) :
  (∀ x, x ∈ l → P x) → filter P l = l.
Proof.
  induction l as [|a l IH]; intros Hl; [done|].
  rewrite filter_cons_True by (apply Hl; by left).
  f_equal. apply IH. intros x Hx. apply Hl. by right.
Qed.

Lemma filter_none {A} (P : A → Prop) `{∀ x, Decision (P x)} (l : list A) :
  (∀ x, x ∈ l → ¬ P x) → filter P l = [].
Proof.
  induction l as [|a l IH]; intros Hl; [done|].
  rewrite filter_cons_False by (apply Hl; by left).
  apply IH. intros x Hx. apply Hl. by right.
Qed.

(** On an index-sorted chain the halving search of [split] stops behind
    the entries whose index is below the split point. *)
Lemma lower_bound_divides (chain : MemoryAccessChain) (Idx : Z) :
  chain_sorted chain →
  take (lower_bound chain Idx) chain = filter (λ e, fst e < Idx) chain
  ∧ drop (lower_bound chain Idx) chain = filter (λ e, Idx ≤ fst e) chain.
Proof.
  intros Hs. destruct (lower_bound_spec chain Idx Hs) as (Hr & Hlo & Hhi).
  set (r := lower_bound chain Idx) in *. split.
  - rewrite <- (take_drop r chain) at 2. rewrite filter_app.
    rewrite (filter_all (λ e, fst e < Idx) (take _ _)) by exact Hlo.
    rewrite (filter_none (λ e, fst e < Idx) (drop _ _))
      by (intros x Hx; apply Hhi in Hx; lia).
    by rewrite app_nil_r.
  - rewrite <- (take_drop r chain) at 2. rewrite filter_app.
    rewrite (filter_none (λ e, Idx ≤ fst e) (take _ _))
      by (intros x Hx; apply Hlo in Hx; lia).
    by rewrite (filter_all (λ e, Idx ≤ fst e) (drop _ _)) by exact Hhi.
Qed.

(** X1: a split divides an index-sorted chain by the split point.  When the
    chain has an entry at or behind the split point, the new slice gets the
    entries below the split point and the slice that stays in the queue
    keeps the others, both in their order. *)
Theorem split_divides_sorted_chain (s : TBSlice) (SplitPoint : Z) chain :
  MemoryAccesses s = Some chain → chain_sorted chain →
  (∃ e, e ∈ chain ∧ SplitPoint ≤ fst e) →
  MemoryAccesses (fst (split s SplitPoint))
  = Some (filter (λ e, fst e < SplitPoint) chain)
  ∧ MemoryAccesses (snd (split s SplitPoint))
    = Some (filter (λ e, SplitPoint ≤ fst e) chain).
Proof.
  intros HM Hs (e & He & Hge).
  destruct (lower_bound_divides chain SplitPoint Hs) as [Ht Hd].
  unfold split. rewrite HM. case_decide as Hn.
  - cbn. by rewrite Ht, Hd.
  - exfalso. rewrite Hn, firstn_all in Ht.
    assert (e ∈ filter (λ e, fst e < SplitPoint) chain) as Hin by (by rewrite <- Ht).
    apply list_elem_of_filter in Hin as [Hlt _]. lia.
Qed.

Lemma split_divides_sorted_chain_witness :
  MemoryAccesses (fst (split low_slice 1)) = Some [(0, mkMDMemoryAccess true 32 4)]
  ∧ MemoryAccesses (snd (split low_slice 1)) = Some [(1, mkMDMemoryAccess false 64 8)].
Proof.
  apply (split_divides_sorted_chain low_slice 1 low_chain eq_refl low_chain_sorted).
  exists (1, mkMDMemoryAccess false 64 8). split; [|cbn; lia].
  right. left.
Defined.

Section SplitProofs.

Context {MCInst : Type}.
Implicit Types (Blocks : list (option (@TranslationBlock MCInst))).

(** X2: a split loses nothing.  The two slices have the block and the region
    of the one that was split and meet at the split point; their chains,
    one behind the other, are the chain that was split, whatever its order;
    and for a split point within the slice their instructions, one behind
    the other, are the instructions of the slice. *)
Theorem split_reassembles Blocks (s : TBSlice) (p : Z) :
  0 ≤ BeginIdx s → BeginIdx s ≤ p ≤ EndIdx s →
  Index (fst (split s p)) = Index s ∧ Index (snd (split s p)) = Index s
  ∧ Region (fst (split s p)) = Region s ∧ Region (snd (split s p)) = Region s
  ∧ BeginIdx (fst (split s p)) = BeginIdx s ∧ EndIdx (fst (split s p)) = p
  ∧ BeginIdx (snd (split s p)) = p ∧ EndIdx (snd (split s p)) = EndIdx s
  ∧ chain_of (fst (split s p)) ++ chain_of (snd (split s p)) = chain_of s
  ∧ slice_insts Blocks (fst (split s p)) ++ slice_insts Blocks (snd (split s p))
    = slice_insts Blocks s.
Proof.
  intros Hb Hp.
  destruct (split_fst_fields s p) as (F1 & F2 & F3 & F4).
  destruct (split_snd_fields s p) as (G1 & G2 & G3 & G4).
  split_and!; try done.
  - unfold chain_of, split. destruct (MemoryAccesses s) as [chain|]; [|done].
    case_decide; cbn; [apply take_drop|done].
  - unfold slice_insts. rewrite F1, F2, F3, G1, G2, G3.
    destruct (Blocks !! Z.to_nat (Index s)) as [[TB|]|]; [|done..].
    replace (Z.to_nat p) with (Z.to_nat (BeginIdx s) + Z.to_nat (p - BeginIdx s))%nat by lia.
    rewrite <- drop_drop.
    replace (Z.to_nat (EndIdx s - BeginIdx s))
      with (Z.to_nat (p - BeginIdx s) + Z.to_nat (EndIdx s - p))%nat by lia.
    generalize (drop (Z.to_nat (BeginIdx s)) (MCInsts TB)). intros l.
    apply take_take_drop.
Qed.

End SplitProofs.

Lemma split_reassembles_witness :
  chain_of (fst (split low_slice 2)) ++ chain_of (snd (split low_slice 2))
  = chain_of low_slice.
Proof.
  apply (split_reassembles (MCInst := Z) [] low_slice 2); cbn; lia.
Defined.

Section ChainBuilding.

Context {MCInst : Type}.
Implicit Types (TB : @TranslationBlock MCInst) (chain : MemoryAccessChain).

(** A record either goes behind the chain, whose last index is then another
    one, or is merged into the last entry. *)
Lemma add_access_cases TB chain FbMA :
  let i := skewed_index TB (fbIndex FbMA) in
  (add_access TB chain FbMA
     = chain ++ [(i, mkMDMemoryAccess (fbIsStore FbMA) (fbVAddr FbMA) (fbSize FbMA))]
   ∧ last (chain.*1) ≠ Some i)
  ∨ (∃ init MA, chain = init ++ [(i, MA)]
      ∧ add_access TB chain FbMA
        = init ++ [(i, merge_access MA (fbIsStore FbMA) (fbVAddr FbMA) (fbSize FbMA))]).
Proof.
  intros i. unfold add_access. fold i.
  destruct chain as [|[j MA] init _] using rev_ind.
  - left. split; [done|]. cbn. done.
  - rewrite last_snoc. cbn [fst snd]. destruct (Z.eqb_spec j i) as [->|Hne].
    + right. exists init, MA. split; [done|]. by rewrite removelast_last.
    + left. split; [done|]. rewrite fmap_app, fmap_cons, fmap_nil, last_snoc. cbn. congruence.
Qed.

Lemma add_access_indices TB chain FbMA :
  let i := skewed_index TB (fbIndex FbMA) in
  ((add_access TB chain FbMA).*1 = chain.*1 ++ [i] ∧ last (chain.*1) ≠ Some i)
  ∨ ((add_access TB chain FbMA).*1 = chain.*1 ∧ last (chain.*1) = Some i).
Proof.
  intros i. destruct (add_access_cases TB chain FbMA) as [[-> Hl]|(init & MA & -> & ->)].
  - left. split; [|done]. by rewrite fmap_app.
  - right. rewrite !fmap_app, !fmap_cons, !fmap_nil. cbn [fst]. split; [done|]. by rewrite last_snoc.
Qed.

Lemma build_chain_indices TB (FbMAs : list FbMemAccess) :
  let c := fold_left (add_access TB) FbMAs [] in
  (length c ≤ length FbMAs)%nat
  ∧ (FbMAs ≠ [] → c ≠ [])
  ∧ (∀ a, a ∈ c.*1 → ∃ FbMA, FbMA ∈ FbMAs ∧ a = skewed_index TB (fbIndex FbMA))
  ∧ (∀ (k : nat) a b, c.*1 !! k = Some a → c.*1 !! S k = Some b → a ≠ b).
Proof.
  induction FbMAs as [|x l IH] using rev_ind.
  - cbn. split_and!; [lia|done|intros a Ha; inversion Ha|done].
  - rewrite fold_left_app. cbn [fold_left]. cbn zeta in *.
    set (c := fold_left (add_access TB) l []) in *.
    destruct IH as (Hlen & _ & Hin & Hadj).
    pose proof (f_equal length (eq_refl ((add_access TB c x).*1))) as Hl.
    destruct (add_access_indices TB c x) as [[E Hlast]|[E Hlast]].
    + rewrite E in Hl at 2. rewrite !length_fmap, length_app, length_fmap in Hl. cbn in Hl.
      rewrite length_app. cbn. split_and!; [lia| |..].
      * intros _ Hc. rewrite Hc in Hl. cbn in Hl. lia.
      * rewrite E. intros a [Ha| ->%list_elem_of_singleton]%elem_of_app.
        -- destruct (Hin a Ha) as (r & Hr & ->). exists r. split; [|done].
           apply elem_of_app. by left.
        -- exists x. split; [|done]. apply elem_of_app. right. by left.
      * rewrite E. intros k a b Ha Hb.
        destruct (decide (S k < length (c.*1))%nat) as [Hk|Hk].
        -- rewrite lookup_app_l in Ha, Hb by lia. by eapply Hadj.
        -- apply lookup_lt_Some in Hb as Hb'. rewrite length_app in Hb'. cbn in Hb'.
           assert (S k = length (c.*1)) as Hk' by lia.
           rewrite lookup_app_l in Ha by lia.
           rewrite lookup_app_r in Hb by lia.
           replace (S k - length (c.*1))%nat with 0%nat in Hb by lia. cbn in Hb.
           simplify_eq. intros ->. apply Hlast. rewrite last_lookup.
           rewrite <- Hk'. cbn. done.
    + rewrite E in Hl at 2. rewrite !length_fmap in Hl. rewrite length_app. cbn.
      split_and!; [lia| |..].
      * intros _ Hc. rewrite Hc in E. destruct c; [|done]. cbn in Hlast. done.
      * rewrite E. intros a Ha. destruct (Hin a Ha) as (r & Hr & ->). exists r.
        split; [|done]. apply elem_of_app. by left.
      * rewrite E. exact Hadj.
Qed.

(** X3: the chain built from the records of an executed block is not empty,
    has at most one entry per record, and no two neighbours in it carry the
    same instruction index: accesses of one instruction that follow one
    another are always merged into one entry. *)
Theorem build_chain_merges_neighbours TB (FbMAs : list FbMemAccess) chain :
  build_chain TB FbMAs = Some chain →
  chain ≠ []
  ∧ (length chain ≤ length FbMAs)%nat
  ∧ (∀ e, e ∈ chain → ∃ FbMA, FbMA ∈ FbMAs ∧ fst e = skewed_index TB (fbIndex FbMA))
  ∧ (∀ (k : nat) e1 e2, chain !! k = Some e1 → chain !! S k = Some e2 →
       fst e1 ≠ fst e2).
Proof.
  unfold build_chain. intros H.
  destruct FbMAs as [|x l] eqn:El; [done|]. rewrite <- El in *.
  assert (FbMAs ≠ []) as Hne by (rewrite El; done).
  assert (chain = fold_left (add_access TB) FbMAs []) as -> by (rewrite El; congruence).
  destruct (build_chain_indices TB FbMAs) as (Hlen & Hc & Hin & Hadj).
  split_and!; [by apply Hc|exact Hlen| |].
  - intros e He. apply Hin. apply list_elem_of_fmap. by exists e.
  - intros k e1 e2 H1 H2. eapply (Hadj k); rewrite list_lookup_fmap.
    + by rewrite H1.
    + by rewrite H2.
Qed.

Lemma build_chain_increasing TB (FbMAs : list FbMemAccess) :
  (∀ (i j : nat) r1 r2, (i ≤ j)%nat → FbMAs !! i = Some r1 → FbMAs !! j = Some r2 →
     skewed_index TB (fbIndex r1) ≤ skewed_index TB (fbIndex r2)) →
  let c := fold_left (add_access TB) FbMAs [] in
  ∀ (i j : nat) a b, (i < j)%nat → c.*1 !! i = Some a → c.*1 !! j = Some b → a < b.
Proof.
  induction FbMAs as [|x l IH] using rev_ind; intros Hmono.
  - cbn. intros i j a b _ Ha. done.
  - rewrite fold_left_app. cbn [fold_left]. cbn zeta in *.
    set (c := fold_left (add_access TB) l []) in *.
    assert (Hinc : ∀ (i j : nat) a b, (i < j)%nat →
              c.*1 !! i = Some a → c.*1 !! j = Some b → a < b).
    { apply IH. intros i j r1 r2 Hij H1 H2. apply (Hmono i j); [done|..].
      - rewrite lookup_app_l; [done|]. by eapply lookup_lt_Some.
      - rewrite lookup_app_l; [done|]. by eapply lookup_lt_Some. }
    destruct (build_chain_indices TB l) as (_ & _ & Hin & _). fold c in Hin.
    destruct (add_access_indices TB c x) as [[E Hlast]|[E Hlast]]; rewrite E; [|exact Hinc].
    intros i j a b Hij Ha Hb.
    apply lookup_lt_Some in Hb as Hj. rewrite length_app in Hj. cbn in Hj.
    rewrite lookup_app_l in Ha by lia.
    destruct (decide (j < length (c.*1))%nat) as [Hjl|Hjl].
    { rewrite lookup_app_l in Hb by lia. by apply (Hinc i j). }
    rewrite lookup_app_r in Hb by lia.
    replace (j - length (c.*1))%nat with 0%nat in Hb by lia. cbn in Hb. simplify_eq.
    set (t := skewed_index TB (fbIndex x)) in *.
    assert (Hle : ∀ a', a' ∈ c.*1 → a' ≤ t).
    { intros a' Ha'. destruct (Hin a' Ha') as (r & Hr & ->).
      apply list_elem_of_lookup in Hr as [k Hk].
      apply (Hmono k (length l)); [apply lookup_lt_Some in Hk; lia| |].
      - rewrite lookup_app_l; [done|]. by eapply lookup_lt_Some.
      - rewrite lookup_app_r by lia. by rewrite Nat.sub_diag. }
    destruct (c.*1 !! pred (length (c.*1))) as [m|] eqn:Em.
    2:{ apply lookup_ge_None in Em. apply lookup_lt_Some in Ha. lia. }
    assert (m ≤ t) by (apply Hle; by eapply list_elem_of_lookup_2).
    assert (m ≠ t) by (intros ->; apply Hlast; by rewrite last_lookup).
    destruct (decide (i = pred (length (c.*1)))) as [->|Hi].
    + simplify_eq. lia.
    + assert (a < m); [|lia]. apply (Hinc i (pred (length (c.*1)))); [|done..].
      apply lookup_lt_Some in Ha. lia.
Qed.

(** X4: when the records of a block come ordered by instruction, in the indices
    that the skew map gives them, the chain is strictly increasing in its
    indices: it has one entry per instruction that accessed memory, and is
    index-sorted as the search of [split] needs it. *)
Theorem build_chain_sorted TB (FbMAs : list FbMemAccess) chain :
  (∀ (i j : nat) r1 r2, (i ≤ j)%nat → FbMAs !! i = Some r1 → FbMAs !! j = Some r2 →
     skewed_index TB (fbIndex r1) ≤ skewed_index TB (fbIndex r2)) →
  build_chain TB FbMAs = Some chain →
  (∀ (i j : nat) e1 e2, (i < j)%nat → chain !! i = Some e1 → chain !! j = Some e2 →
     fst e1 < fst e2)
  ∧ chain_sorted chain.
Proof.
  intros Hmono H.
  assert (chain = fold_left (add_access TB) FbMAs []) as ->.
  { unfold build_chain in H. destruct FbMAs; [done|congruence]. }
  pose proof (build_chain_increasing TB FbMAs Hmono) as Hinc. cbn zeta in Hinc.
  assert (Hstrict : ∀ (i j : nat) e1 e2, (i < j)%nat →
            fold_left (add_access TB) FbMAs [] !! i = Some e1 →
            fold_left (add_access TB) FbMAs [] !! j = Some e2 → fst e1 < fst e2).
  { intros i j e1 e2 Hij H1 H2. apply (Hinc i j); [done|..]; rewrite list_lookup_fmap.
    - by rewrite H1.
    - by rewrite H2. }
  split; [exact Hstrict|].
  intros i j e1 e2 Hij H1 H2. destruct (decide (i = j)) as [->|Hne].
  - simplify_eq. lia.
  - assert (fst e1 < fst e2); [|lia]. apply (Hstrict i j); [lia|done..].
Qed.

(** An entry within the window is merged with a record within the window
    without any overflow: the result contains both and stays within. *)
Lemma merge_access_window lo MA st a sz :
  0 ≤ lo → lo + 2 ^ 32 ≤ 2 ^ 64 →
  lo ≤ Addr MA → 0 ≤ Size MA → Addr MA + Size MA < lo + 2 ^ 32 →
  lo ≤ a → 0 ≤ sz → a + sz < lo + 2 ^ 32 →
  let M := merge_access MA st a sz in
  Addr M = Z.min (Addr MA) a
  ∧ Addr M + Size M = Z.max (Addr MA + Size MA) (a + sz)
  ∧ IsStore M = IsStore MA || st.
Proof.
  intros. subst M. unfold merge_access. cbn.
  rewrite !u64_small by lia. rewrite u32_small by lia. split_and!; [done|lia|done].
Qed.

Lemma build_chain_window TB lo (FbMAs : list FbMemAccess) :
  within_window lo FbMAs →
  let c := fold_left (add_access TB) FbMAs [] in
  (∀ e, e ∈ c → lo ≤ Addr (snd e) ∧ 0 ≤ Size (snd e)
                ∧ Addr (snd e) + Size (snd e) < lo + 2 ^ 32)
  ∧ (∀ FbMA, FbMA ∈ FbMAs → ∃ e, e ∈ c ∧ covers TB e FbMA).
Proof.
  intros (Hlo & Hhi & Hall).
  induction FbMAs as [|x l IH] using rev_ind.
  - cbn. split; intros ? H; inversion H.
  - rewrite fold_left_app. cbn [fold_left]. cbn zeta in *.
    set (c := fold_left (add_access TB) l []) in *.
    apply Forall_app in Hall as [Hl Hx]. apply Forall_singleton in Hx as (Hx1 & Hx2 & Hx3).
    destruct (IH Hl) as [Hwin Hcov]. clear IH.
    destruct (add_access_cases TB c x) as [[-> Hlast]|(init & MA & Ec & ->)].
    + split.
      * intros e [He| ->%list_elem_of_singleton]%elem_of_app; [by apply Hwin|].
        cbn. lia.
      * intros r [Hr| ->%list_elem_of_singleton]%elem_of_app.
        -- destruct (Hcov r Hr) as (e & He & Hc). exists e. split; [|done].
           apply elem_of_app. by left.
        -- eexists. split; [apply elem_of_app; right; by left|].
           unfold covers. cbn. split_and!; [done|lia|lia|done].
    + assert (HMA : lo ≤ Addr MA ∧ 0 ≤ Size MA ∧ Addr MA + Size MA < lo + 2 ^ 32).
      { apply (Hwin (skewed_index TB (fbIndex x), MA)). rewrite Ec.
        apply elem_of_app. right. by left. }
      destruct HMA as (A1 & A2 & A3).
      destruct (merge_access_window lo MA (fbIsStore x) (fbVAddr x) (fbSize x))
        as (M1 & M2 & M3); [done..|].
      set (M := merge_access MA (fbIsStore x) (fbVAddr x) (fbSize x)) in *.
      split.
      * intros e [He| ->%list_elem_of_singleton]%elem_of_app.
        -- apply Hwin. rewrite Ec. apply elem_of_app. by left.
        -- cbn [snd]. lia.
      * intros r [Hr| ->%list_elem_of_singleton]%elem_of_app.
        -- destruct (Hcov r Hr) as (e & He & Hc). rewrite Ec in He.
           apply elem_of_app in He as [He| ->%list_elem_of_singleton].
           ++ exists e. split; [|done]. apply elem_of_app. by left.
           ++ exists (skewed_index TB (fbIndex x), M).
              split; [apply elem_of_app; right; by left|].
              destruct Hc as (C1 & C2 & C3 & C4). cbn [fst snd] in *.
              unfold covers. cbn [fst snd]. split_and!; [done|lia|lia|].
              intros Hs. rewrite M3, (C4 Hs). done.
        -- exists (skewed_index TB (fbIndex x), M).
           split; [apply elem_of_app; right; by left|].
           unfold covers. cbn [fst snd]. split_and!; [done|lia|lia|].
           intros Hs. rewrite M3, Hs. apply orb_true_r.
Qed.

(** X5: building the chain loses no access.  When the records of a block lie
    in a window of less than 4 GiB, every record is contained in an entry of
    the chain: the entry has the record's index, taken through the skew map,
    its address range contains the record's, and it is a store if the record
    is. *)
Theorem build_chain_covers_records TB lo (FbMAs : list FbMemAccess) chain :
  within_window lo FbMAs →
  build_chain TB FbMAs = Some chain →
  ∀ FbMA, FbMA ∈ FbMAs → ∃ e, e ∈ chain ∧ covers TB e FbMA.
Proof.
  intros Hw H.
  assert (chain = fold_left (add_access TB) FbMAs []) as ->.
  { unfold build_chain in H. destruct FbMAs; [done|congruence]. }
  apply (build_chain_window TB lo FbMAs Hw).
Qed.

End ChainBuilding.

Lemma build_chain_merges_neighbours_witness :
  ∃ chain, build_chain skewed_TB three_records = Some chain
           ∧ (length chain ≤ length three_records)%nat.
Proof.
  eexists. split; [reflexivity|].
  apply (build_chain_merges_neighbours skewed_TB three_records _ eq_refl).
Defined.

Lemma three_records_ordered :
  ∀ (i j : nat) r1 r2, (i ≤ j)%nat →
    three_records !! i = Some r1 → three_records !! j = Some r2 →
    skewed_index skewed_TB (fbIndex r1) ≤ skewed_index skewed_TB (fbIndex r2).
Proof.
  intros i j r1 r2 Hij H1 H2.
  destruct i as [|[|[|i]]], j as [|[|[|j]]]; cbn in H1, H2; simplify_eq;
    vm_compute; try discriminate; lia.
Qed.

Lemma build_chain_sorted_witness :
  ∃ chain, build_chain skewed_TB three_records = Some chain ∧ chain_sorted chain.
Proof.
  eexists. split; [reflexivity|].
  apply (build_chain_sorted skewed_TB three_records _ three_records_ordered eq_refl).
Defined.

Lemma three_records_within_window : within_window 0 three_records.
Proof.
  split; [lia|]. split; [lia|].
  repeat (apply Forall_cons; split; [cbn; lia|]). apply Forall_nil_2.
Qed.

Lemma build_chain_covers_records_witness :
  ∃ chain, build_chain skewed_TB three_records = Some chain
    ∧ ∃ e, e ∈ chain ∧ covers skewed_TB e (load_0x22 1).
Proof.
  eexists. split; [reflexivity|].
  apply (build_chain_covers_records skewed_TB 0 three_records _
           three_records_within_window eq_refl).
  right. right. left.
Defined.

(** ** The receiver *)

Section ReceiverFrame.

Context {MCInst : Type} `{EqDecision MCInst}.
Implicit Types (B : @QemuBroker MCInst) (TB : @TranslationBlock MCInst)
  (Blocks : list (option (@TranslationBlock MCInst))).

(** X6: registering a block.  For every index but the largest of its width
    [addTB] returns; the block at that index is then the raw one, not yet
    decoded, whatever was there before; the vector has grown to hold it and
    no further; the other blocks are the ones they were, the slots in
    between are empty; and the queue, the flags and the counter are
    untouched. *)
Theorem addTB_registers B (TB : TranslatedBlock) :
  0 ≤ tbIndex TB < 2 ^ 32 - 1 →
  ∃ B', addTB B TB = Done B'
    ∧ TBs B' !! Z.to_nat (tbIndex TB) = Some (Some (newTB (tbInstructions TB)))
    ∧ length (TBs B') = Nat.max (length (TBs B)) (Z.to_nat (tbIndex TB) + 1)
    ∧ (∀ i : nat, i ≠ Z.to_nat (tbIndex TB) → (i < length (TBs B))%nat →
         TBs B' !! i = TBs B !! i)
    ∧ (∀ i : nat, i ≠ Z.to_nat (tbIndex TB) → (length (TBs B) ≤ i < length (TBs B'))%nat →
         TBs B' !! i = Some None)
    ∧ TBQueue B' = TBQueue B ∧ IsEndOfStream B' = IsEndOfStream B
    ∧ TotalNumTraces B' = TotalNumTraces B ∧ CurBinRegion B' = CurBinRegion B
    ∧ CodeStartAddress B' = CodeStartAddress B.
Proof.
  intros Hi. unfold addTB. rewrite (u32_small (tbIndex TB + 1)) by lia.
  destruct (Z.leb_spec (Z.of_nat (length (TBs B))) (tbIndex TB)) as [Hge|Hlt].
  - rewrite length_resize.
    destruct (Z.ltb_spec (tbIndex TB) (Z.of_nat (Z.to_nat (tbIndex TB + 1)))); [|lia].
    eexists. split; [reflexivity|]. cbn.
    split_and!; try done.
    + apply list_lookup_insert_eq. rewrite length_resize. lia.
    + rewrite length_insert, length_resize. lia.
    + intros i Hne Hlen. rewrite list_lookup_insert_ne by done.
      rewrite lookup_resize by lia. done.
    + intros i Hne. rewrite length_insert, length_resize. intros Hlen.
      rewrite list_lookup_insert_ne by done. by rewrite lookup_resize_new by lia.
  - destruct (Z.ltb_spec (tbIndex TB) (Z.of_nat (length (TBs B)))); [|lia].
    eexists. split; [reflexivity|]. cbn.
    split_and!; try done.
    + apply list_lookup_insert_eq. lia.
    + rewrite length_insert. lia.
    + intros i Hne Hlen. by rewrite list_lookup_insert_ne.
    + intros i Hne. rewrite length_insert. lia.
Qed.

(** X7: the largest index of the width cannot be registered: the vector is
    resized to [Index + 1], taken in the width of the index, and the
    assignment then falls outside of it.  Of the indices of that width it is
    the only one for which [addTB] is not defined. *)
Theorem addTB_undefined_iff B (TB : TranslatedBlock) :
  0 ≤ tbIndex TB < 2 ^ 32 → Z.of_nat (length (TBs B)) < 2 ^ 32 →
  addTB B TB = Crash ↔ tbIndex TB = 2 ^ 32 - 1.
Proof.
  intros Hi Hl. split.
  - intros H. destruct (decide (tbIndex TB = 2 ^ 32 - 1)) as [|Hne]; [done|].
    unfold addTB in H. rewrite (u32_small (tbIndex TB + 1)) in H by lia.
    destruct (Z.leb_spec (Z.of_nat (length (TBs B))) (tbIndex TB)).
    + rewrite length_resize in H.
      destruct (Z.ltb_spec (tbIndex TB) (Z.of_nat (Z.to_nat (tbIndex TB + 1)))); [done|lia].
    + destruct (Z.ltb_spec (tbIndex TB) (Z.of_nat (length (TBs B)))); [done|lia].
  - intros E. unfold addTB. rewrite E.
    destruct (Z.leb_spec (Z.of_nat (length (TBs B))) (2 ^ 32 - 1)); [|lia].
    replace (u32 (2 ^ 32 - 1 + 1)) with 0 by done.
    rewrite length_resize.
    destruct (Z.ltb_spec (2 ^ 32 - 1) (Z.of_nat (Z.to_nat 0))); [lia|done].
Qed.

(** X8: a block is decoded once.  The execution of a block that is decoded
    returns whatever the fuel, leaves the blocks and the selected
    disassembler as they are, and does not look at the reported address. *)
Theorem tbExec_decodes_once fuel B (E : ExecTB) TB0 :
  is_end_signal E = false →
  TBs B !! Z.to_nat (etIndex E) = Some (Some TB0) →
  translated TB0 = true →
  ∃ B', tbExec fuel B E = Done B'
    ∧ TBs B' = TBs B ∧ CurDisAsm B' = CurDisAsm B
    ∧ IsEndOfStream B' = IsEndOfStream B ∧ TotalNumTraces B' = TotalNumTraces B
    ∧ (∀ pc, is_end_signal (mkExecTB (etIndex E) pc (etMemAccesses E)) = false →
         tbExec 0 B (mkExecTB (etIndex E) pc (etMemAccesses E)) = Done B').
Proof.
  intros He Hl Ht.
  unfold tbExec. rewrite He, Hl. cbn [etIndex etPC etMemAccesses].
  unfold translate_on_first_exec. rewrite Ht. cbn [mbind outcome_bind].
  eexists. split; [reflexivity|]. cbn.
  split_and!; try done.
  - by apply list_insert_id.
  - intros pc ->. rewrite Hl, Ht. reflexivity.
Qed.

Lemma tbExec_frame fuel B (E : ExecTB) B' :
  tbExec fuel B E = Done B' →
  TotalNumTraces B' = TotalNumTraces B
  ∧ TheTarget B' = TheTarget B ∧ BinRegions B' = BinRegions B
  ∧ CodeStartAddress B' = CodeStartAddress B
  ∧ length (TBs B') = length (TBs B)
  ∧ (∀ i : nat, is_Some (TBs B !! i ≫= id) → is_Some (TBs B' !! i ≫= id)).
Proof.
  unfold tbExec. destruct (is_end_signal E).
  { intros [= <-]. cbn. split_and!; auto. }
  destruct (TBs B !! Z.to_nat (etIndex E)) as [[TB0|]|] eqn:El;
    [|intros [= <-]; split_and!; auto..].
  destruct (translate_on_first_exec _ _ _ _ _) as [[TB Cur]| | |]; cbn; try discriminate.
  intros [= <-]. cbn. split_and!; auto.
  - by rewrite length_insert.
  - intros i Hi. destruct (decide (i = Z.to_nat (etIndex E))) as [->|Hne].
    + rewrite list_lookup_insert_eq by (by eapply lookup_lt_Some). by eexists.
    + by rewrite list_lookup_insert_ne.
Qed.

Lemma handle_message_frame fuel B m B' :
  handle_message fuel B m = Done B' →
  (TBQueue B' = TBQueue B ∨ ∃ s, TBQueue B' = TBQueue B ++ [s])
  ∧ TotalNumTraces B' = TotalNumTraces B
  ∧ TheTarget B' = TheTarget B ∧ BinRegions B' = BinRegions B
  ∧ (length (TBs B) ≤ length (TBs B'))%nat
  ∧ (∀ i : nat, is_Some (TBs B !! i ≫= id) → is_Some (TBs B' !! i ≫= id))
  ∧ (IsEndOfStream B = true → IsEndOfStream B' = true).
Proof.
  destruct m as [LoadAddr|TB|E]; cbn [handle_message].
  - intros [= <-]. cbn. split_and!; auto.
  - unfold addTB.
    set (Blocks1 := if Z.of_nat (length (TBs B)) <=? tbIndex TB
                    then resize (Z.to_nat (u32 (tbIndex TB + 1))) None (TBs B)
                    else TBs B).
    destruct (Z.ltb_spec (tbIndex TB) (Z.of_nat (length Blocks1))) as [Hin|]; [|done].
    intros [= <-]. cbn.
    assert (Hlen : (length (TBs B) ≤ length Blocks1)%nat).
    { subst Blocks1. destruct (Z.leb_spec (Z.of_nat (length (TBs B))) (tbIndex TB)); [|lia].
      rewrite length_resize in *. lia. }
    assert (Hpre : ∀ i : nat, (i < length (TBs B))%nat → Blocks1 !! i = TBs B !! i).
    { subst Blocks1. intros i Hi. revert Hin.
      destruct (Z.leb_spec (Z.of_nat (length (TBs B))) (tbIndex TB)); [|done].
      rewrite length_resize. intros Hin. by rewrite lookup_resize by lia. }
    split_and!; auto.
    + rewrite length_insert. lia.
    + intros i Hi.
      destruct (decide (i = Z.to_nat (tbIndex TB))) as [->|Hne].
      * rewrite list_lookup_insert_eq; [by eexists|].
        destruct (TBs B !! Z.to_nat (tbIndex TB)) eqn:Ei; [|by destruct Hi].
        apply lookup_lt_Some in Ei. lia.
      * rewrite list_lookup_insert_ne by done.
        rewrite Hpre; [done|]. destruct (TBs B !! i) eqn:Ei; [|by destruct Hi].
        by eapply lookup_lt_Some.
  - intros H. destruct (tbExec_frame fuel B E B' H) as (F1 & F2 & F3 & F4 & F5 & F6).
    apply tbExec_cases in H
      as [(_ & HQ & _ & HE)|[(_ & ->)|(He & TB0 & TB & Cur & Hl & Ht & HT & HE & Hq)]].
    + split_and!; auto. lia.
    + split_and!; auto.
    + split_and!; auto; [|lia|congruence]. cbn zeta in Hq.
      destruct Hq as [[_ ->]|[_ ->]]; [by left|right; by eexists].
Qed.

(** X9: the receiver only appends.  Whatever messages it handles, the slices
    that were queued stay queued, in their order and in front of the new
    ones, of which there is at most one per message; registered blocks stay
    registered and the vector of the blocks does not shrink; the counter of
    the delivered instructions, the target and the regions are not touched;
    and the end of the stream, once seen, stays. *)
Theorem receiver_only_appends fuel : ∀ ms B B',
  handle_messages fuel B ms = Done B' →
  (∃ New, TBQueue B' = TBQueue B ++ New ∧ (length New ≤ length ms)%nat)
  ∧ TotalNumTraces B' = TotalNumTraces B
  ∧ TheTarget B' = TheTarget B ∧ BinRegions B' = BinRegions B
  ∧ (length (TBs B) ≤ length (TBs B'))%nat
  ∧ (∀ idx, registered (TBs B) idx → registered (TBs B') idx)
  ∧ (IsEndOfStream B = true → IsEndOfStream B' = true).
Proof.
  assert (Hreg : ∀ (Blocks : list (option (@TranslationBlock MCInst))) idx,
            registered Blocks idx ↔ is_Some (Blocks !! Z.to_nat idx ≫= id)).
  { intros Blocks idx. unfold registered. split.
    - intros [TB ->]. by eexists.
    - destruct (Blocks !! Z.to_nat idx) as [[TB|]|]; cbn; intros [x Hx]; try done.
      by exists TB. }
  induction ms as [|m ms IH]; intros B B'; cbn [handle_messages].
  - intros [= <-]. split_and!; auto. exists []. by rewrite app_nil_r.
  - destruct (handle_message fuel B m) as [B1| | |] eqn:E; cbn; try discriminate.
    intros H. apply IH in H as ((New & HQ & HN) & G1 & G2 & G3 & G4 & G5 & G6).
    apply handle_message_frame in E as (F0 & F1 & F2 & F3 & F4 & F5 & F6).
    split_and!; try congruence; try lia; auto.
    + destruct F0 as [F0|[s F0]]; rewrite F0 in HQ.
      * exists New. split; [done|]. cbn. lia.
      * exists (s :: New). rewrite <- app_assoc in HQ. split; [done|]. cbn. lia.
    + intros idx Hr. apply G5, Hreg, F5, Hreg, Hr.
Qed.

(** X10: in every state the broker reaches, by messages handled and calls
    returned in any order, each registered block has exactly one address
    offset per decoded instruction. *)
Theorem reachable_blocks_consistent T BR B (i : nat) TB :
  reachable T BR B → TBs B !! i = Some (Some TB) →
  length (VAddrOffsets TB) = length (MCInsts TB).
Proof.
  intros HR Hl. destruct (reachable_invariant T BR B HR) as [HC _]. by eapply HC.
Qed.

(** The two scans of the region tracker. *)
Lemma scan_start_spec regions VA : ∀ offsets i0 i R,
  scan_start regions VA offsets i0 = (i, R) →
  i0 ≤ i ≤ i0 + Z.of_nat (length offsets)
  ∧ (∀ (k : nat) o, Z.of_nat k < i - i0 → offsets !! k = Some o →
       lookup_region regions (u64 (VA + o)) = None)
  ∧ match R with
    | Some r => ∃ o, offsets !! Z.to_nat (i - i0) = Some o
                     ∧ lookup_region regions (u64 (VA + o)) = Some r
    | None => i = i0 + Z.of_nat (length offsets)
    end.
Proof.
  induction offsets as [|o offsets IH]; intros i0 i R; cbn [scan_start length].
  - intros [= <- <-]. split_and!; [lia..| |lia]. intros k o' Hk. lia.
  - destruct (lookup_region regions (u64 (VA + o))) as [R0|] eqn:El.
    + intros [= <- <-]. split_and!; [lia..| |].
      * intros k o' Hk. lia.
      * exists o. rewrite Z.sub_diag. done.
    + intros H. apply IH in H as (Hr & Hno & HR). split_and!; [lia..| |].
      * intros [|k] o' Hk; cbn; [by intros [= <-]|]. apply Hno. lia.
      * destruct R as [r|]; [|lia]. destruct HR as (o' & Ho & Hl). exists o'.
        split; [|done]. replace (Z.to_nat (i - i0)) with (S (Z.to_nat (i - (i0 + 1)))) by lia.
        done.
Qed.

Lemma scan_end_spec R VA : ∀ offsets i0,
  let i := scan_end R VA offsets i0 in
  i0 ≤ i ≤ i0 + Z.of_nat (length offsets)
  ∧ (∀ (k : nat) o, Z.of_nat k < i - i0 → offsets !! k = Some o →
       EndAddr R ≠ u64 (VA + o))
  ∧ (i ≠ i0 + Z.of_nat (length offsets) →
     ∃ o, offsets !! Z.to_nat (i - i0) = Some o ∧ EndAddr R = u64 (VA + o)).
Proof.
  induction offsets as [|o offsets IH]; intros i0; cbn [scan_end length]; cbn zeta.
  - split_and!; [lia..| |lia]. intros k o' Hk. lia.
  - destruct (Z.eqb_spec (EndAddr R) (u64 (VA + o))) as [He|Hne].
    + split_and!; [lia..| |].
      * intros k o' Hk. lia.
      * intros _. exists o. rewrite Z.sub_diag. done.
    + specialize (IH (i0 + 1)). cbn zeta in IH. destruct IH as (Hr & Hno & Hend).
      split_and!; [lia..| |].
      * intros [|k] o' Hk; cbn; [by intros [= <-]|]. apply Hno. lia.
      * intros Hi. destruct Hend as (o' & Ho & Hl); [lia|]. exists o'. split; [|done].
        replace (Z.to_nat (scan_end R VA offsets (i0 + 1) - i0))
          with (S (Z.to_nat (scan_end R VA offsets (i0 + 1) - (i0 + 1)))) by lia.
        done.
Qed.

(** X11: where a region opens.  Outside of any region the tracker queues a
    slice of a block only if one of its instructions lies at the start
    address of a region, and the slice then begins at the first such
    instruction; the region found is the one the broker is in afterwards,
    unless the same block closes it.  A block none of whose instructions
    starts a region is dropped, and so is one that lies below the start of
    the code. *)
Theorem region_opens_at_first_start regions CodeStart TB :
  regions ≠ [] → Z.of_nat (length (VAddrOffsets TB)) < 2 ^ 16 - 1 →
  let rr := handle_regions (Some regions) None CodeStart TB in
  (rrBeginIdx rr ≠ rrEndIdx rr →
     CodeStart ≤ VAddr TB
     ∧ (∃ a R, inst_address CodeStart TB (rrBeginIdx rr) = Some a
          ∧ lookup_region regions a = Some R
          ∧ (rrCurBinRegion rr = Some R ∧ rrRegion rr = None
             ∨ rrCurBinRegion rr = None ∧ rrRegion rr = Some R))
     ∧ (∀ k a, 0 ≤ k < rrBeginIdx rr → inst_address CodeStart TB k = Some a →
          lookup_region regions a = None))
  ∧ ((VAddr TB < CodeStart
      ∨ ∀ k a, inst_address CodeStart TB k = Some a → lookup_region regions a = None) →
     rrBeginIdx rr = rrEndIdx rr ∧ rrCurBinRegion rr = None).
Proof.
  intros Hne HS. cbn zeta. unfold handle_regions.
  destruct regions as [|r0 rs]; [done|]. set (regions := r0 :: rs). clearbody regions.
  set (VA := u64 (VAddr TB - CodeStart)).
  assert (Haddr : ∀ k, inst_address CodeStart TB k
                       = (λ o, u64 (VA + o)) <$> VAddrOffsets TB !! Z.to_nat k).
  { intros k. unfold inst_address. by destruct (VAddrOffsets TB !! Z.to_nat k). }
  destruct (Z.leb_spec CodeStart (VAddr TB)) as [Hge|Hlt]; [|cbn; split; [done|auto]].
  destruct (scan_start regions VA (VAddrOffsets TB) 0) as [i R] eqn:Es.
  apply scan_start_spec in Es as (Hr & Hno & HR).
  destruct R as [R|].
  - destruct HR as (o & Ho & Hl). rewrite Z.sub_0_r in Ho.
    apply lookup_lt_Some in Ho as Hi.
    destruct (Z.eqb_spec i (Z.of_nat (length (VAddrOffsets TB)))); [lia|].
    rewrite (u16_small i) by lia.
    pose proof (scan_end_spec R VA (drop (Z.to_nat i) (VAddrOffsets TB)) i) as He.
    cbn zeta in He. rewrite length_drop in He. destruct He as (Her & _ & _).
    assert (Hopen : ∃ a R0, inst_address CodeStart TB i = Some a
                      ∧ lookup_region regions a = Some R0 ∧ R0 = R).
    { exists (u64 (VA + o)), R. by rewrite Haddr, Ho. }
    assert (Hbefore : ∀ k a, 0 ≤ k < i → inst_address CodeStart TB k = Some a →
                        lookup_region regions a = None).
    { intros k a Hk. rewrite Haddr.
      destruct (VAddrOffsets TB !! Z.to_nat k) as [o'|] eqn:Eo; [|done].
      intros [= <-]. apply (Hno (Z.to_nat k)); [lia|done]. }
    destruct (Z.eqb_spec (scan_end R VA (drop (Z.to_nat i) (VAddrOffsets TB)) i)
                (Z.of_nat (length (VAddrOffsets TB)))); cbn.
    + split.
      * intros _. split; [done|]. split; [|done].
        destruct Hopen as (a & R0 & H1 & H2 & ->). exists a, R. auto.
      * intros [Hlt|Hnone]; [lia|]. destruct Hopen as (a & R0 & H1 & H2 & ->).
        rewrite (Hnone i a H1) in H2. done.
    + split.
      * intros _. split; [done|]. split; [|done].
        destruct Hopen as (a & R0 & H1 & H2 & ->). exists a, R. auto.
      * intros [Hlt|Hnone]; [lia|]. destruct Hopen as (a & R0 & H1 & H2 & ->).
        rewrite (Hnone i a H1) in H2. done.
  - subst i. rewrite Z.add_0_l, Z.eqb_refl. cbn. split; [done|auto].
Qed.

(** X12: where a region closes.  Inside a region the slice of a block begins
    at its first instruction.  When the tracker hands a region to the slice,
    the slice ends just behind the first instruction, from its beginning on,
    whose address is the end address of that region, and the broker is in no
    region afterwards; otherwise the slice is open-ended and the broker
    stays in the region. *)
Theorem region_closes_at_end_address regions Cur CodeStart TB R :
  regions ≠ [] → Z.of_nat (length (VAddrOffsets TB)) < 2 ^ 16 - 1 →
  let rr := handle_regions (Some regions) Cur CodeStart TB in
  (Cur = Some R →
     rrBeginIdx rr = 0
     ∧ (rrRegion rr = None → rrEndIdx rr = 2 ^ 16 - 1 ∧ rrCurBinRegion rr = Some R))
  ∧ (rrRegion rr = Some R →
     rrCurBinRegion rr = None
     ∧ CodeStart ≤ VAddr TB
     ∧ 0 ≤ rrBeginIdx rr < rrEndIdx rr
     ∧ inst_address CodeStart TB (rrEndIdx rr - 1) = Some (EndAddr R)
     ∧ (∀ k a, rrBeginIdx rr ≤ k < rrEndIdx rr - 1 →
          inst_address CodeStart TB k = Some a → a ≠ EndAddr R)).
Proof.
  intros Hne HS. cbn zeta. unfold handle_regions.
  destruct regions as [|r0 rs]; [done|]. set (regions := r0 :: rs). clearbody regions.
  set (VA := u64 (VAddr TB - CodeStart)).
  assert (Haddr : ∀ k, inst_address CodeStart TB k
                       = (λ o, u64 (VA + o)) <$> VAddrOffsets TB !! Z.to_nat k).
  { intros k. unfold inst_address. by destruct (VAddrOffsets TB !! Z.to_nat k). }
  assert (Hclose : ∀ (R1 : BinaryRegion) i, 0 ≤ i ≤ Z.of_nat (length (VAddrOffsets TB)) →
    let i' := scan_end R1 VA (drop (Z.to_nat i) (VAddrOffsets TB)) i in
    i' ≠ Z.of_nat (length (VAddrOffsets TB)) →
    i ≤ i' < Z.of_nat (length (VAddrOffsets TB))
    ∧ inst_address CodeStart TB (i' + 1 - 1) = Some (EndAddr R1)
    ∧ (∀ k a, i ≤ k < i' + 1 - 1 → inst_address CodeStart TB k = Some a → a ≠ EndAddr R1)).
  { intros R1 i Hi. cbn zeta. intros Hi'.
    pose proof (scan_end_spec R1 VA (drop (Z.to_nat i) (VAddrOffsets TB)) i) as He.
    cbn zeta in He. rewrite length_drop in He. destruct He as (Her & Hno & Hend).
    destruct Hend as (o & Ho & Hl); [lia|]. rewrite lookup_drop in Ho.
    split; [lia|]. split.
    - rewrite Haddr.
      replace (Z.to_nat (scan_end R1 VA (drop (Z.to_nat i) (VAddrOffsets TB)) i + 1 - 1))
        with (Z.to_nat i + Z.to_nat (scan_end R1 VA (drop (Z.to_nat i) (VAddrOffsets TB)) i - i))%nat
        by lia.
      rewrite Ho. cbn. by rewrite Hl.
    - intros k a Hk. rewrite Haddr.
      destruct (VAddrOffsets TB !! Z.to_nat k) as [o'|] eqn:Eo; [|done].
      intros [= <-] Heq. apply (Hno (Z.to_nat (k - i)) o'); [lia| |done].
      rewrite lookup_drop. replace (Z.to_nat i + Z.to_nat (k - i))%nat with (Z.to_nat k) by lia.
      done. }
  destruct Cur as [R0|].
  - destruct (Z.leb_spec CodeStart (VAddr TB)) as [Hge|Hlt]; cbn.
    2:{ split; [|done]. intros [= ->]. done. }
    specialize (Hclose R0 0). change (Z.to_nat 0) with 0%nat in *. rewrite drop_0 in *.
    cbn zeta in Hclose.
    pose proof (scan_end_range R0 VA (VAddrOffsets TB) 0) as Hr.
    destruct (Z.eqb_spec (scan_end R0 VA (VAddrOffsets TB) 0)
                (Z.of_nat (length (VAddrOffsets TB)))) as [He|Hn]; cbn.
    + split; [|done]. intros [= ->]. done.
    + rewrite u16_small by lia. split; [intros [= ->]; done|].
      intros [= ->]. destruct Hclose as (H1 & H2 & H3); [lia|done|].
      split_and!; [done|done|lia|lia|exact H2|exact H3].
  - destruct (Z.leb_spec CodeStart (VAddr TB)) as [Hge|Hlt]; cbn; [|done].
    destruct (scan_start regions VA (VAddrOffsets TB) 0) as [i R1] eqn:Es.
    apply scan_start_spec in Es as (Hr & _ & HR).
    destruct R1 as [R1|].
    + destruct HR as (o & Ho & _). rewrite Z.sub_0_r in Ho.
      apply lookup_lt_Some in Ho as Hi.
      destruct (Z.eqb_spec i (Z.of_nat (length (VAddrOffsets TB)))); [lia|].
      rewrite (u16_small i) by lia.
      specialize (Hclose R1 i). cbn zeta in Hclose.
      destruct (Z.eqb_spec (scan_end R1 VA (drop (Z.to_nat i) (VAddrOffsets TB)) i)
                  (Z.of_nat (length (VAddrOffsets TB)))) as [He|Hn]; cbn; [done|].
      destruct Hclose as (H1 & H2 & H3); [lia|done|].
      rewrite u16_small by lia. split; [done|].
      intros [= ->]. split_and!; [done|done|lia|lia|exact H2|exact H3].
    + subst i. rewrite Z.add_0_l, Z.eqb_refl. cbn. done.
Qed.

End ReceiverFrame.

Lemma addTB_registers_witness :
  ∃ B', addTB (newBroker toy_target None) (mkTranslatedBlock 2 skewed_raws) = Done B'
    ∧ TBs B' !! 2%nat = Some (Some (newTB skewed_raws)).
Proof.
  destruct (addTB_registers (newBroker toy_target None) (mkTranslatedBlock 2 skewed_raws))
    as (B' & H1 & H2 & _); [cbn; lia|].
  exists B'. split; [exact H1|exact H2].
Defined.

Lemma addTB_undefined_iff_witness :
  addTB (newBroker toy_target None) (mkTranslatedBlock (2 ^ 32 - 1) skewed_raws) = Crash.
Proof.
  apply addTB_undefined_iff; [cbn; lia|cbn; lia|reflexivity].
Defined.

Lemma tbExec_decodes_once_witness :
  ∃ B', tbExec 0 (run_trace 10 toy_target None plain_trace) exec_block0 = Done B'
    ∧ TBs B' = TBs (run_trace 10 toy_target None plain_trace).
Proof.
  destruct (tbExec_decodes_once 0 (run_trace 10 toy_target None plain_trace)
              exec_block0 decoded_at_0x1000) as (B' & H1 & H2 & _).
  - reflexivity.
  - vm_compute. reflexivity.
  - reflexivity.
  - exists B'. split; [exact H1|exact H2].
Defined.

Lemma receiver_only_appends_witness :
  TotalNumTraces (run_trace 10 toy_target None plain_trace)
  = TotalNumTraces (newBroker toy_target None).
Proof.
  refine (proj1 (proj2 (receiver_only_appends 10 plain_trace (newBroker toy_target None)
                          (run_trace 10 toy_target None plain_trace) _))).
  vm_compute. reflexivity.
Defined.

Lemma reachable_blocks_consistent_witness :
  length (VAddrOffsets decoded_at_0x1000) = length (MCInsts decoded_at_0x1000).
Proof.
  refine (reachable_blocks_consistent toy_target None
            (run_trace 10 toy_target None plain_trace) 0 decoded_at_0x1000 _ _).
  - apply run_trace_reachable.
  - vm_compute. reflexivity.
Defined.

(** ** The fetch engine *)

Section FetchFrame.

Context {MCInst : Type} `{EqDecision MCInst}.
Implicit Types (B : @QemuBroker MCInst) (TB : @TranslationBlock MCInst)
  (Blocks : list (option (@TranslationBlock MCInst))) (st : @SelectState)
  (cp : @CopyState MCInst) (MCIS : list MCInst).

Lemma u32_add_l a b : u32 (u32 a + b) = u32 (a + b).
Proof. unfold u32, wrap. by rewrite Zplus_mod_idemp_l. Qed.

Lemma copied_refl T cp : 0 ≤ cTotalNumTraces cp < 2 ^ 32 → copied T cp cp 0.
Proof.
  intros HT. unfold copied. split_and!; try done; try lia.
  - rewrite Z.add_0_r. symmetry. by apply u32_small.
  - destruct (cMDE cp) as [E|]; [|done]. split_and!; try done.
    + intros e He. by left.
    + intros e He. exists (snd e). split; [by destruct e|by left].
Qed.

Lemma copied_trans T cp cp1 cp2 m1 m2 :
  cSize cp ≤ T → copied T cp cp1 m1 → copied T cp1 cp2 m2 →
  copied T cp cp2 (m1 + m2).
Proof.
  intros HT (A1 & A2 & A3 & A4 & A5 & A6 & A7) (C1 & C2 & C3 & C4 & C5 & C6 & C7).
  assert (Hnum : ∀ t, (∃ j, 1 ≤ j ≤ m2 ∧ t = u32 (cTotalNumTraces cp1 + j)) →
                      ∃ j, 1 ≤ j ≤ m1 + m2 ∧ t = u32 (cTotalNumTraces cp + j)).
  { intros t (j & Hj & ->). exists (m1 + j). split; [lia|].
    rewrite A6, u32_add_l. f_equal. lia. }
  assert (Hnum1 : ∀ t, (∃ j, 1 ≤ j ≤ m1 ∧ t = u32 (cTotalNumTraces cp + j)) →
                       ∃ j, 1 ≤ j ≤ m1 + m2 ∧ t = u32 (cTotalNumTraces cp + j)).
  { intros t (j & Hj & ->). exists j. split; [lia|done]. }
  unfold copied. split_and!; try lia.
  - intros k Hk. rewrite C5 by lia. apply A5. lia.
  - rewrite C6, A6, u32_add_l. f_equal. lia.
  - destruct (cMDE cp) as [E|], (cMDE cp1) as [E1|], (cMDE cp2) as [E2|]; try done.
    destruct A7 as (Aa & Ab & Ac & Ad), C7 as (Ca & Cb & Cc & Cd). split_and!.
    + intros e He. destruct (Ca e He) as [He1|Hn]; [|right; by apply Hnum].
      destruct (Aa e He1) as [He0|Hn]; [by left|right; by apply Hnum1].
    + intros e He. destruct (Ab e He) as (t & Ht & Hold).
      destruct (Cb _ Ht) as (t' & Ht' & Hold'). cbn [fst snd] in *.
      exists t'. split; [done|].
      destruct Hold' as [->|Hn]; [|right; by apply Hnum].
      destruct Hold as [->|Hn]; [by left|right; by apply Hnum1].
    + intros Hnd. by apply Cc, Ac.
    + intros key Hkey. rewrite Cd, Ad; [done|..].
      * intros j Hj. apply Hkey. lia.
      * intros j Hj. rewrite A6, u32_add_l. replace (cTotalNumTraces cp + m1 + j)
          with (cTotalNumTraces cp + (m1 + j)) by lia. apply Hkey. lia.
Qed.

Lemma copied_one T cp MCI MDE' i' MAs' :
  0 < cSize cp → cSize cp ≤ T →
  (MDE' = cMDE cp
   ∨ ∃ MDA, MDE' = setMemoryAccessMD (cMDE cp) MCI MDA (u32 (cTotalNumTraces cp + 1))) →
  copied T cp
    (mkCopyState (cSize cp - 1) (<[Z.to_nat (T - cSize cp) := MCI]> (cMCIS cp))
                 (u32 (cTotalNumTraces cp + 1)) MDE' i' MAs') 1.
Proof.
  intros Hpos HT HM. unfold copied. cbn. split_and!; try lia.
  - by rewrite length_insert.
  - intros k Hk. apply list_lookup_insert_ne. lia.
  - destruct HM as [->|[MDA ->]].
    + destruct (cMDE cp) as [E|]; [|done]. split_and!; try done.
      * intros e He. by left.
      * intros e He. exists (snd e). split; [by destruct e|by left].
    + destruct (cMDE cp) as [E|]; [|done]. cbn. split_and!.
      * intros e [->|He]%elem_of_cons.
        -- right. exists 1. split; [lia|done].
        -- left. by apply list_elem_of_filter in He as [_ He].
      * intros e He. destruct (decide (fst e = MCI)) as [<-|Hne].
        -- eexists. split; [by left|]. right. exists 1. split; [lia|done].
        -- exists (snd e). split; [|by left]. right.
           apply list_elem_of_filter. split; [done|by destruct e].
      * intros Hnd. apply NoDup_cons. split.
        -- intros (e & He1 & He2)%list_elem_of_fmap.
           apply list_elem_of_filter in He2 as [Hne _]. done.
        -- refine (sublist_NoDup _ (IndexMap E).*1 _ _); [exact Hnd|].
           apply fmap_sublist, sublist_filter.
      * intros key Hkey. apply lookup_insert_ne. intros Heq. by apply (Hkey 1); [lia|].
Qed.

Lemma copy_step_copied Insts T cp cp' :
  copy_step Insts T cp = Done cp' → 0 < cSize cp → cSize cp ≤ T →
  copied T cp cp' 1.
Proof.
  unfold copy_step. destruct (Insts !! Z.to_nat (ci cp)) as [MCI|]; [|done].
  intros H Hpos HT.
  destruct (cMAs cp) as [[|[idx MDA] chain]|];
    try (injection H as <-; apply copied_one; auto).
  destruct (idx =? ci cp); injection H as <-; apply copied_one; eauto.
Qed.

Lemma copy_loop_copied Insts End T : ∀ fuel cp cp',
  copy_loop fuel Insts End T cp = Done cp' →
  cSize cp ≤ T → 0 ≤ cTotalNumTraces cp < 2 ^ 32 →
  ∃ m, copied T cp cp' m.
Proof.
  induction fuel as [|fuel IH]; intros cp cp'; cbn [copy_loop].
  - destruct (negb (ci cp =? End) && (0 <? cSize cp)); [done|].
    intros [= <-] _ HT. exists 0. by apply copied_refl.
  - destruct (negb (ci cp =? End) && (0 <? cSize cp)) eqn:Ec.
    2:{ intros [= <-] _ HT. exists 0. by apply copied_refl. }
    apply andb_true_iff in Ec as [_ Hpos%Z.ltb_lt].
    destruct (copy_step Insts T cp) as [cp1| | |] eqn:Es; cbn; try discriminate.
    intros H HT HN. apply copy_step_copied in Es as H1; [|done..].
    assert (H1' := H1). destruct H1' as (_ & _ & E1 & _ & _ & E2 & _).
    apply IH in H as [m Hm]; [|lia|].
    2:{ rewrite E2. unfold u32, wrap. apply Z.mod_pos_bound. lia. }
    exists (1 + m). by eapply copied_trans.
Qed.

Lemma copy_slices_copied Blocks T fuel : ∀ Sel cp cp',
  copy_slices fuel Blocks T Sel cp = Done cp' →
  cSize cp ≤ T → 0 ≤ cTotalNumTraces cp < 2 ^ 32 →
  ∃ m, copied T (mkCopyState (cSize cp) (cMCIS cp) (cTotalNumTraces cp) (cMDE cp) 0 None)
         (mkCopyState (cSize cp') (cMCIS cp') (cTotalNumTraces cp') (cMDE cp') 0 None) m.
Proof.
  induction Sel as [|s Sel IH]; intros cp cp'; cbn [copy_slices].
  - intros [= <-] _ HT. exists 0. by apply copied_refl.
  - unfold copy_slice at 1.
    destruct (Blocks !! Z.to_nat (Index s)) as [[TB|]|]; cbn; try discriminate.
    destruct (copy_loop _ _ _ _ _) as [cp1| | |] eqn:El; cbn; try discriminate.
    intros H HT HN.
    apply copy_loop_copied in El as [m1 H1]; [|done..].
    assert (H1' := H1). destruct H1' as (P1 & _ & E1 & _ & _ & E2 & _). cbn in E1, E2.
    apply IH in H as [m2 H2]; [|lia|].
    2:{ rewrite E2. unfold u32, wrap. apply Z.mod_pos_bound. lia. }
    exists (m1 + m2). eapply copied_trans; [done| |exact H2].
    exact H1.
Qed.

Lemma select_loop_not_blocked Blocks fuel : ∀ st, select_loop fuel Blocks st ≠ Blocked.
Proof.
  induction fuel as [|fuel IH]; intros st; cbn [select_loop];
    destruct (select_cond st); try done.
Qed.

Lemma copy_loop_not_blocked Insts End T fuel : ∀ cp,
  copy_loop fuel Insts End T cp ≠ Blocked.
Proof.
  induction fuel as [|fuel IH]; intros cp; cbn [copy_loop];
    destruct (negb (ci cp =? End) && (0 <? cSize cp)); try done.
  unfold copy_step. destruct (Insts !! Z.to_nat (ci cp)) as [MCI|]; [|done].
  destruct (cMAs cp) as [[|[idx MDA] chain]|]; cbn; try apply IH.
  destruct (idx =? ci cp); cbn; apply IH.
Qed.

Lemma copy_slices_not_blocked Blocks T fuel : ∀ Sel cp,
  copy_slices fuel Blocks T Sel cp ≠ Blocked.
Proof.
  induction Sel as [|s Sel IH]; intros cp; cbn [copy_slices]; [done|].
  unfold copy_slice at 1.
  destruct (Blocks !! Z.to_nat (Index s)) as [[TB|]|]; cbn; try done.
  destruct (copy_loop _ _ _ _ _) as [cp1| | |] eqn:El; cbn; try done.
  by apply copy_loop_not_blocked in El.
Qed.

(** X13: when a call waits.  [fetchRegion] waits for the receiver exactly when
    it is asked for instructions while the queue is empty and the end of
    the stream has not been seen; a call for no instruction at all never
    waits, nor does one that finds a slice queued. *)
Theorem fetchRegion_blocks_iff fuel B MCIS n MDE :
  fetchRegion fuel B MCIS n MDE = Blocked
  ↔ n ≠ 0 ∧ TBQueue B = [] ∧ IsEndOfStream B = false.
Proof.
  unfold fetchRegion. destruct (Z.eqb_spec n 0) as [->|Hn].
  { split; [done|]. intros [? _]. done. }
  destruct (TBQueue B) as [|s Q] eqn:EQ.
  - destruct (IsEndOfStream B); split; try done. intros (_ & _ & ?). done.
  - split; [|intros (_ & ? & _); done].
    destruct (select_loop _ _ _) as [sel| | |] eqn:Es; cbn; try done.
    + destruct (copy_slices _ _ _ _ _) as [cp| | |] eqn:Ec; cbn; try done.
      by apply copy_slices_not_blocked in Ec.
    + by apply select_loop_not_blocked in Es.
Qed.

(** What a call that returns has done to the buffer, the counter and the
    exchanger. *)
Lemma fetchRegion_copied fuel B MCIS n MDE r :
  fetchRegion fuel B MCIS n MDE = Done r →
  Z.of_nat (length MCIS) < 2 ^ 31 → 0 ≤ TotalNumTraces B < 2 ^ 32 →
  (fst (frValue r) = -1 ∧ n ≠ 0 ∧ TBQueue B = [] ∧ IsEndOfStream B = true
   ∧ frBroker r = B ∧ frMCIS r = MCIS ∧ frMDE r = MDE)
  ∨ (0 ≤ fst (frValue r) ≤ Z.of_nat (length MCIS)
     ∧ (0 ≤ n → fst (frValue r) ≤ n)
     ∧ copied (fst (frValue r))
         (mkCopyState (fst (frValue r)) MCIS (TotalNumTraces B) MDE 0 None)
         (mkCopyState 0 (frMCIS r) (TotalNumTraces (frBroker r)) (frMDE r) 0 None)
         (fst (frValue r))).
Proof.
  unfold fetchRegion. intros H HL HT. destruct (Z.eqb_spec n 0) as [->|Hn].
  { injection H as <-. right. cbn. split_and!; [lia..|]. by apply (copied_refl 0). }
  destruct (TBQueue B) as [|s Q] eqn:EQ.
  { destruct (IsEndOfStream B) eqn:HE; [|done]. injection H as <-. left. done. }
  right. revert H.
  set (Size1 := if (n <? 0) || (Z.of_nat (length MCIS) <? n)
                then to_int (Z.of_nat (length MCIS)) else n).
  assert (HS : 0 ≤ Size1 ≤ Z.of_nat (length MCIS) ∧ (0 ≤ n → Size1 ≤ n)).
  { subst Size1. destruct (Z.ltb_spec n 0); cbn; [rewrite to_int_small by lia; lia|].
    destruct (Z.ltb_spec (Z.of_nat (length MCIS)) n); [rewrite to_int_small by lia|]; lia. }
  clearbody Size1.
  destruct (select_loop _ _ _) as [sel| | |]; cbn; try discriminate.
  destruct (copy_slices _ _ _ _ _) as [cp| | |] eqn:Ec; cbn; try discriminate.
  intros [= <-]. cbn.
  apply copy_slices_copied in Ec as [m Hm]; [|cbn; lia|done]. cbn in Hm.
  destruct Hm as (M1 & M2 & M3 & M4 & M5 & M6 & M7). cbn in *.
  replace (Size1 - cSize cp) with m by lia.
  split_and!; [lia..|]. unfold copied. cbn.
  split_and!; try done; try lia.
  intros k Hk. apply M5. lia.
Qed.

(** X14: how much a call delivers.  The number returned is [-1] only for the
    end of the stream, which leaves the buffer, the exchanger and the broker
    as they are; otherwise it is never negative, never more than the
    buffer holds, and never more than was asked for. *)
Theorem fetch_count_bounds fuel B MCIS n MDE r :
  Z.of_nat (length MCIS) < 2 ^ 31 → 0 ≤ TotalNumTraces B < 2 ^ 32 →
  fetch fuel B MCIS n MDE = Done r →
  (frValue r = -1 ∧ n ≠ 0 ∧ TBQueue B = [] ∧ IsEndOfStream B = true
   ∧ frBroker r = B ∧ frMCIS r = MCIS ∧ frMDE r = MDE)
  ∨ (0 ≤ frValue r ≤ Z.of_nat (length MCIS) ∧ (0 ≤ n → frValue r ≤ n)).
Proof.
  intros HL HT. unfold fetch.
  destruct (fetchRegion fuel B MCIS n MDE) as [r0| | |] eqn:E; cbn; try discriminate.
  intros [= <-]. cbn.
  apply fetchRegion_copied in E as [H|(H1 & H2 & _)]; [by left|by right|done..].
Qed.

(** X15: what a call writes.  The buffer keeps its length, and behind the
    instructions delivered it holds what it held before the call. *)
Theorem fetch_writes_only_delivered fuel B MCIS n MDE r :
  Z.of_nat (length MCIS) < 2 ^ 31 → 0 ≤ TotalNumTraces B < 2 ^ 32 →
  fetch fuel B MCIS n MDE = Done r →
  length (frMCIS r) = length MCIS
  ∧ drop (Z.to_nat (frValue r)) (frMCIS r) = drop (Z.to_nat (frValue r)) MCIS.
Proof.
  intros HL HT. unfold fetch.
  destruct (fetchRegion fuel B MCIS n MDE) as [r0| | |] eqn:E; cbn; try discriminate.
  intros [= <-]. cbn.
  apply fetchRegion_copied in E as [(_ & _ & _ & _ & _ & -> & _)|(H1 & _ & H3)];
    [done| |done..].
  destruct H3 as (_ & _ & _ & M4 & M5 & _). cbn in *. split; [done|].
  apply list_eq. intros k. rewrite !lookup_drop. apply M5. lia.
Qed.

(** X16: the sequence numbers.  A call that delivers [c] instructions advances
    the counter of the broker by [c], in the width of the counter.  With an
    exchanger, every instruction that was bound to a number is still bound,
    to the number it had or to one of the numbers handed out, from the old
    counter plus one to the new counter; no instruction is bound to any
    other number; no instruction is bound twice if none was; and the
    descriptors of memory accesses change under the numbers handed out
    only.  Without an exchanger the call creates none. *)
Theorem fetch_numbers_traces fuel B MCIS n MDE r :
  Z.of_nat (length MCIS) < 2 ^ 31 → 0 ≤ TotalNumTraces B < 2 ^ 32 →
  fetch fuel B MCIS n MDE = Done r → 0 ≤ frValue r →
  TotalNumTraces (frBroker r) = u32 (TotalNumTraces B + frValue r)
  ∧ match MDE, frMDE r with
    | None, None => True
    | Some E, Some E' =>
      (∀ e, e ∈ IndexMap E' →
         e ∈ IndexMap E ∨ ∃ j, 1 ≤ j ≤ frValue r ∧ snd e = u32 (TotalNumTraces B + j))
      ∧ (∀ e, e ∈ IndexMap E →
           ∃ t, (fst e, t) ∈ IndexMap E'
             ∧ (t = snd e ∨ ∃ j, 1 ≤ j ≤ frValue r ∧ t = u32 (TotalNumTraces B + j)))
      ∧ (NoDup (IndexMap E).*1 → NoDup (IndexMap E').*1)
      ∧ (∀ key, (∀ j, 1 ≤ j ≤ frValue r → key ≠ u32 (TotalNumTraces B + j)) →
           MemAccessCat E' !! key = MemAccessCat E !! key)
    | _, _ => False
    end.
Proof.
  intros HL HT. unfold fetch.
  destruct (fetchRegion fuel B MCIS n MDE) as [r0| | |] eqn:E; cbn; try discriminate.
  intros [= <-]. cbn. intros Hc.
  apply fetchRegion_copied in E as [(? & _)|(_ & _ & H3)]; [lia| |done..].
  destruct H3 as (_ & _ & _ & _ & _ & M6 & M7). cbn in *. done.
Qed.

End FetchFrame.

Section FetchQueue.

Context {MCInst : Type} `{EqDecision MCInst}.
Implicit Types (B : @QemuBroker MCInst) (TB : @TranslationBlock MCInst)
  (Blocks : list (option (@TranslationBlock MCInst))) (st : @SelectState)
  (MCIS : list MCInst).

Lemma ends_region_take (Q : list TBSlice) (k : nat) s :
  Q !! k = Some s → ends_region (take (S k) Q) = bool_decide (is_Some (Region s)).
Proof.
  intros H. rewrite (take_S_r _ _ _ H). unfold ends_region. by rewrite last_snoc.
Qed.

(** The selection pops slices off the front of the queue, none of which but
    the last closes a region, and splits at most one, with which it ends. *)
Lemma select_loop_shape Blocks (Q0 : list TBSlice) : ∀ (fuel k : nat) S0 st',
  (k ≤ length Q0)%nat →
  (∀ (j : nat) s, (S j < k)%nat → Q0 !! j = Some s → Region s = None) →
  select_loop fuel Blocks
    (mkSelectState S0 (drop k Q0) (take k Q0) (ends_region (take k Q0))) = Done st' →
  ∃ k' : nat, (k ≤ k' ≤ length Q0)%nat
    ∧ ((selQueue st' = drop k' Q0 ∧ selSelected st' = take k' Q0
        ∧ ∀ (j : nat) s, (S j < k')%nat → Q0 !! j = Some s → Region s = None)
       ∨ (∃ s p, Q0 !! k' = Some s
            ∧ selQueue st' = snd (split s p) :: drop (S k') Q0
            ∧ selSelected st' = take k' Q0 ++ [set_Region (fst (split s p)) None]
            ∧ ∀ (j : nat) s, (j < k')%nat → Q0 !! j = Some s → Region s = None)).
Proof.
  induction fuel as [|fuel IH]; intros k S0 st' Hk Hnone; cbn [select_loop].
  - destruct (select_cond _) eqn:Ec; [done|]. intros [= <-]. exists k. split; [lia|].
    left. cbn. done.
  - destruct (select_cond _) eqn:Ec.
    2:{ intros [= <-]. exists k. split; [lia|]. left. cbn. done. }
    unfold select_cond in Ec. cbn [selS selQueue selEndOfRegion] in Ec.
    apply andb_true_iff in Ec as [[Hpos Hq]%andb_true_iff He].
    apply bool_decide_eq_true in Hq. apply negb_true_iff in He.
    destruct (Q0 !! k) as [s|] eqn:Es.
    2:{ apply lookup_ge_None in Es. rewrite drop_ge in Hq by lia. done. }
    assert (Hnone' : ∀ (j : nat) s', (j < k)%nat → Q0 !! j = Some s' → Region s' = None).
    { intros j s' Hj Hs'. destruct (decide (S j < k)%nat); [by eapply Hnone|].
      assert (k = S j) as -> by lia. rewrite (ends_region_take _ _ _ Hs') in He.
      apply bool_decide_eq_false in He. destruct (Region s'); [|done].
      exfalso. apply He. by eexists. }
    unfold select_step. cbn [selS selQueue selSelected].
    rewrite (drop_S _ _ _ Es).
    destruct (Blocks !! Z.to_nat (Index s)) as [[TB|]|] eqn:Eb.
    + destruct (S0 <? Z.min (Z.of_nat (length (MCInsts TB))) (slice_size s)) eqn:Elt.
      * destruct (split s (u16 (BeginIdx s + S0))) as [Taken Cur'] eqn:Esp.
        rewrite select_loop_done by done.
        intros [= <-]. exists k. split; [apply lookup_lt_Some in Es; lia|]. right.
        exists s, (u16 (BeginIdx s + S0)). rewrite Esp. cbn. done.
      * rewrite <- (take_S_r _ _ _ Es). intros H.
        apply IH in H as (k' & Hk' & H); [| |].
        -- exists k'. split; [lia|exact H].
        -- apply lookup_lt_Some in Es. lia.
        -- intros j s' Hj. apply Hnone'. lia.
    + rewrite <- (drop_S _ _ _ Es). intros H. by apply IH in H.
    + rewrite <- (drop_S _ _ _ Es). intros H. by apply IH in H.
Qed.

Lemma fetchRegion_broker fuel B MCIS n MDE r :
  fetchRegion fuel B MCIS n MDE = Done r →
  frBroker r = B
  ∨ ∃ S0 sel t,
      select_loop fuel (TBs B) (mkSelectState S0 (TBQueue B) [] false) = Done sel
      ∧ frBroker r = set_queue_and_traces B (selQueue sel) t.
Proof.
  unfold fetchRegion. destruct (n =? 0); [intros [= <-]; by left|].
  destruct (TBQueue B) as [|s0 Q] eqn:EQ.
  { destruct (IsEndOfStream B); [|done]. intros [= <-]. by left. }
  destruct (select_loop _ _ _) as [sel| | |] eqn:Es; cbn; try discriminate.
  destruct (copy_slices _ _ _ _ _) as [cp| | |]; cbn; try discriminate.
  intros [= <-]. cbn. right. eauto.
Qed.

(** X17: what a call leaves of the queue.  A call that returns has consumed
    slices from the front of the queue and nothing else: the queue is then
    what it was from some position on, or what a split has left of the
    slice at that position in front of the slices behind it, and what is
    left of a split slice has its block, its end and its region.  None of
    the slices consumed closes a region, the last one apart.  The blocks,
    the flags and the state of the receiver are untouched. *)
Theorem fetch_consumes_queue_front fuel B MCIS n MDE r :
  fetch fuel B MCIS n MDE = Done r →
  TBs (frBroker r) = TBs B ∧ IsEndOfStream (frBroker r) = IsEndOfStream B
  ∧ CurBinRegion (frBroker r) = CurBinRegion B
  ∧ CodeStartAddress (frBroker r) = CodeStartAddress B
  ∧ CurDisAsm (frBroker r) = CurDisAsm B
  ∧ ∃ k : nat, (k ≤ length (TBQueue B))%nat
      ∧ (TBQueue (frBroker r) = drop k (TBQueue B)
         ∧ (∀ (j : nat) s, (S j < k)%nat → TBQueue B !! j = Some s → Region s = None)
         ∨ ∃ s s', TBQueue B !! k = Some s
             ∧ TBQueue (frBroker r) = s' :: drop (S k) (TBQueue B)
             ∧ Index s' = Index s ∧ EndIdx s' = EndIdx s ∧ Region s' = Region s
             ∧ (∀ (j : nat) s, (j < k)%nat → TBQueue B !! j = Some s → Region s = None)).
Proof.
  unfold fetch.
  destruct (fetchRegion fuel B MCIS n MDE) as [r0| | |] eqn:E; cbn; try discriminate.
  intros [= <-]. cbn.
  apply fetchRegion_broker in E as [->|(S0 & sel & t & Es & ->)].
  { split_and!; try done. exists 0%nat. split; [lia|]. left.
    split; [done|]. intros j s Hj. lia. }
  cbn. split_and!; try done.
  apply (select_loop_shape (TBs B) (TBQueue B) fuel 0) in Es
    as (k & Hk & [(H1 & H2 & H3)|(s & p & H1 & H2 & H3 & H4)]); [| |lia|intros j s Hj; lia].
  - exists k. split; [lia|]. left. done.
  - exists k. split; [lia|]. right. exists s, (snd (split s p)).
    destruct (split_snd_fields s p) as (F1 & F2 & F3 & F4). done.
Qed.

(** X18: when a call reports the end of a region.  A call on a queue that is
    not empty reports one only if the last slice it has consumed closes
    that region and was consumed whole: the descriptor carries the
    description of the region of that slice, the queue goes on behind it,
    and no slice consumed before it closes a region.  A call that ends with
    a split reports none. *)
Theorem fetchRegion_reports_region_end fuel B MCIS n MDE r :
  fetchRegion fuel B MCIS n MDE = Done r → TBQueue B ≠ [] →
  IsEnd (snd (frValue r)) = true →
  ∃ (k : nat) s R,
    TBQueue B !! k = Some s ∧ Region s = Some R
    ∧ snd (frValue r) = EndOfRegion (Description R)
    ∧ TBQueue (frBroker r) = drop (S k) (TBQueue B)
    ∧ ∀ (j : nat) s', (j < k)%nat → TBQueue B !! j = Some s' → Region s' = None.
Proof.
  unfold fetchRegion. destruct (n =? 0); [by intros [= <-]|].
  destruct (TBQueue B) as [|s0 Q] eqn:EQ; [done|]. rewrite <- EQ.
  destruct (select_loop _ _ _) as [sel| | |] eqn:Es; cbn; try discriminate.
  destruct (copy_slices _ _ _ _ _) as [cp| | |]; cbn; try discriminate.
  intros [= <-] _. cbn.
  apply (select_loop_shape (TBs B) (TBQueue B) fuel 0) in Es
    as (k & Hk & [(H1 & H2 & H3)|(s & p & H1 & H2 & H3 & H4)]); [| |lia|intros j s Hj; lia].
  - rewrite H1, H2. destruct k as [|k]; [done|].
    destruct (TBQueue B !! k) as [s|] eqn:Ek.
    2:{ apply lookup_ge_None in Ek. lia. }
    rewrite (take_S_r _ _ _ Ek), last_snoc.
    destruct (Region s) as [R|] eqn:ER; [|done]. intros _.
    exists k, s, R. split_and!; try done. intros j s' Hj. apply H3. lia.
  - rewrite H3, last_snoc. cbn. done.
Qed.

End FetchQueue.

Section FetchDelivery.

Context {MCInst : Type} `{EqDecision MCInst}.
Implicit Types (B : @QemuBroker MCInst) (TB : @TranslationBlock MCInst)
  (Blocks : list (option (@TranslationBlock MCInst))) (st : @SelectState)
  (MCIS : list MCInst).

Lemma selectable_length Blocks s TB :
  Blocks !! Z.to_nat (Index s) = Some (Some TB) →
  0 ≤ BeginIdx s ≤ EndIdx s →
  EndIdx s ≤ Z.of_nat (length (MCInsts TB)) ∨ BeginIdx s = 0 →
  Z.of_nat (length (slice_insts Blocks s))
  = Z.min (Z.of_nat (length (MCInsts TB))) (EndIdx s - BeginIdx s).
Proof.
  intros Hl Hb Hc. unfold slice_insts. rewrite Hl, length_take, length_drop. lia.
Qed.

Lemma copy_slice_copyable Blocks TotalSize fuel s cp :
  slice_copyable Blocks s →
  Z.of_nat (length (slice_insts Blocks s)) ≤ cSize cp →
  0 ≤ TotalSize - cSize cp →
  TotalSize - cSize cp + Z.of_nat (length (slice_insts Blocks s))
    ≤ Z.of_nat (length (cMCIS cp)) →
  (length (slice_insts Blocks s) ≤ fuel)%nat →
  ∃ cp', copy_slice fuel Blocks TotalSize s cp = Done cp'
    ∧ cSize cp' = cSize cp - Z.of_nat (length (slice_insts Blocks s))
    ∧ length (cMCIS cp') = length (cMCIS cp)
    ∧ take (Z.to_nat (TotalSize - cSize cp')) (cMCIS cp')
      = take (Z.to_nat (TotalSize - cSize cp)) (cMCIS cp) ++ slice_insts Blocks s.
Proof.
  intros (TB & Hl & Hb & H16).
  assert (Hi : slice_insts Blocks s
               = take (Z.to_nat (Z.min (Z.of_nat (length (MCInsts TB))) (EndIdx s) - BeginIdx s))
                      (drop (Z.to_nat (BeginIdx s)) (MCInsts TB))).
  { unfold slice_insts. rewrite Hl.
    destruct (Z.le_ge_cases (EndIdx s) (Z.of_nat (length (MCInsts TB)))).
    - by rewrite Z.min_r by lia.
    - rewrite Z.min_l by lia. rewrite !take_ge; [done|rewrite length_drop; lia..]. }
  assert (Hlen : Z.of_nat (length (slice_insts Blocks s))
                 = Z.min (Z.of_nat (length (MCInsts TB))) (EndIdx s) - BeginIdx s).
  { rewrite Hi, length_take, length_drop. lia. }
  intros Hm Ho Hbuf Hf. unfold copy_slice. rewrite Hl.
  edestruct (copy_loop_spec (MCInsts TB)
               (Z.min (Z.of_nat (length (MCInsts TB))) (EndIdx s)) TotalSize
               (Z.to_nat (Z.min (Z.of_nat (length (MCInsts TB))) (EndIdx s) - BeginIdx s)) fuel
               (mkCopyState (cSize cp) (cMCIS cp) (cTotalNumTraces cp) (cMDE cp)
                            (BeginIdx s) (MemoryAccesses s)))
    as (cp' & E & HS & HL & HT); cbn [ci cSize cMCIS]; try lia.
  exists cp'. split; [exact E|]. cbn [ci cSize cMCIS] in *.
  split_and!; [lia|done|]. rewrite HT. by rewrite Hi.
Qed.

Lemma copy_slices_copyable Blocks TotalSize fuel : ∀ Sel cp,
  Forall (slice_copyable Blocks) Sel →
  Z.of_nat (length (queue_insts Blocks Sel)) ≤ cSize cp →
  0 ≤ TotalSize - cSize cp →
  TotalSize - cSize cp + Z.of_nat (length (queue_insts Blocks Sel))
    ≤ Z.of_nat (length (cMCIS cp)) →
  (length (queue_insts Blocks Sel) ≤ fuel)%nat →
  ∃ cp', copy_slices fuel Blocks TotalSize Sel cp = Done cp'
    ∧ cSize cp' = cSize cp - Z.of_nat (length (queue_insts Blocks Sel))
    ∧ length (cMCIS cp') = length (cMCIS cp)
    ∧ take (Z.to_nat (TotalSize - cSize cp')) (cMCIS cp')
      = take (Z.to_nat (TotalSize - cSize cp)) (cMCIS cp) ++ queue_insts Blocks Sel.
Proof.
  induction Sel as [|s Sel IH]; intros cp HF Hm Ho Hbuf Hf.
  - exists cp. cbn. split_and!; [done|lia|done|]. by rewrite app_nil_r.
  - apply Forall_cons in HF as [Hs HF].
    unfold queue_insts in *. cbn [map concat] in *. rewrite length_app in *.
    cbn [copy_slices].
    destruct (copy_slice_copyable Blocks TotalSize fuel s cp Hs)
      as (cp1 & E1 & HS1 & HL1 & HT1); try lia.
    rewrite E1. cbn [mbind outcome_bind].
    destruct (IH cp1 HF) as (cp' & E & HS & HL & HT); try lia.
    exists cp'. split; [exact E|]. split_and!; [lia|congruence|].
    rewrite HT, HT1. by rewrite <- (assoc_L (++)).
Qed.

(** On a queue of slices whose length the selection gets right, of which
    only the last may close a region, the selection takes the first [S0]
    instructions of the queue, splitting a slice if it must, and leaves the
    others. *)
Lemma select_loop_selectable Blocks : ∀ Q (fuel : nat) S0 Sel,
  selectable_queue Blocks Q → 0 ≤ S0 < 2 ^ 31 → (length Q ≤ fuel)%nat →
  ∃ New Q' S' e',
    select_loop fuel Blocks (mkSelectState S0 Q Sel false)
    = Done (mkSelectState S' Q' (Sel ++ New) e')
    ∧ Forall (slice_copyable Blocks) New
    ∧ queue_insts Blocks New = take (Z.to_nat S0) (queue_insts Blocks Q)
    ∧ queue_insts Blocks Q' = drop (Z.to_nat S0) (queue_insts Blocks Q)
    ∧ (Z.of_nat (length (queue_insts Blocks Q)) < S0 → Q' = []).
Proof.
  induction Q as [|s Q IH]; intros fuel S0 Sel HP HS Hf.
  - exists [], [], S0, false. rewrite app_nil_r. split.
    + apply select_loop_done, select_cond_nil.
    + unfold queue_insts. cbn. rewrite take_nil, drop_nil. split_and!; done.
  - destruct (Z.ltb_spec 0 S0) as [Hpos|Hz].
    2:{ assert (S0 = 0) as -> by lia. exists [], (s :: Q), 0, false.
        rewrite app_nil_r. split.
        - apply select_loop_done, select_cond_zero.
        - split_and!; [constructor|done|done|lia]. }
    destruct fuel as [|fuel]; [cbn in Hf; lia|].
    destruct HP as (Hin & HR & HP).
    destruct Hin as (TB & Hl & Hb & H16 & Hc).
    pose proof (selectable_length _ _ _ Hl Hb Hc) as Hlen.
    cbn [select_loop]. rewrite select_cond_more by done.
    unfold select_step. cbn [selS selQueue selSelected]. rewrite Hl.
    unfold slice_size. rewrite u64_small by lia.
    unfold queue_insts in *. cbn [map concat]. rewrite length_app.
    set (L := Z.min (Z.of_nat (length (MCInsts TB))) (EndIdx s - BeginIdx s)) in *.
    destruct (Z.ltb_spec S0 L) as [Hlt|Hge].
    + (* the head is split *)
      rewrite u16_small by lia.
      destruct (split s (BeginIdx s + S0)) as [Taken Cur'] eqn:Es.
      pose proof (split_fst_fields s (BeginIdx s + S0)) as (F1 & F2 & F3 & F4).
      pose proof (split_snd_fields s (BeginIdx s + S0)) as (G1 & G2 & G3 & G4).
      rewrite Es in *. cbn [fst snd] in *.
      assert (HT : slice_copyable Blocks (set_Region Taken None)).
      { exists TB. cbn. rewrite F1, F2, F3. split_and!; [done|lia..]. }
      exists [set_Region Taken None], (Cur' :: Q), 0, false.
      rewrite ends_region_snoc by done. split.
      { apply select_loop_done, select_cond_zero. }
      split_and!.
      * constructor; [done|constructor].
      * cbn [map concat]. rewrite app_nil_r.
        rewrite take_app_le by lia.
        unfold slice_insts. cbn [Index BeginIdx EndIdx set_Region].
        rewrite F1, F2, F3, Hl. rewrite take_take. f_equal. lia.
      * cbn [map concat]. rewrite drop_app_le by lia. f_equal.
        unfold slice_insts. rewrite G1, G2, G3, Hl.
        rewrite drop_take_drop_slice by lia. f_equal; [lia|]. f_equal. lia.
      * lia.
    + (* the head is popped *)
      rewrite to_int_small by lia.
      assert (Hcopy : slice_copyable Blocks s).
      { exists TB. split_and!; [done|lia|lia|done]. }
      destruct HR as [HR| ->].
      * rewrite ends_region_snoc by done.
        destruct (IH fuel (S0 - L) (Sel ++ [s]) HP)
          as (New & Q' & S' & e' & E & HN & HI1 & HI2 & HI3); [lia|cbn in Hf; lia|].
        exists (s :: New), Q', S', e'. split.
        { rewrite E. by rewrite <- (assoc_L (++)). }
        split_and!.
        -- constructor; done.
        -- cbn [map concat]. rewrite HI1. rewrite take_app_ge by lia. f_equal. f_equal. lia.
        -- rewrite HI2. rewrite drop_app_ge by lia. f_equal. lia.
        -- intros Hall. apply HI3. lia.
      * (* the last slice, which may close a region *)
        exists [s], [], (S0 - L), (ends_region (Sel ++ [s])).
        split; [apply select_loop_done, select_cond_nil|].
        cbn [map concat]. rewrite !app_nil_r. split_and!.
        -- constructor; [done|constructor].
        -- by rewrite take_ge by lia.
        -- by rewrite drop_ge by lia.
        -- done.
Qed.

Lemma fetchRegion_selectable fuel B MCIS n MDE :
  selectable_queue (TBs B) (TBQueue B) → TBQueue B ≠ [] →
  n ≠ 0 → Z.of_nat (length MCIS) < 2 ^ 31 →
  let want := wanted (Z.of_nat (length MCIS)) n in
  let insts := queue_insts (TBs B) (TBQueue B) in
  (Z.to_nat want + length (TBQueue B) ≤ fuel)%nat →
  ∃ r, fetchRegion fuel B MCIS n MDE = Done r
    ∧ fst (frValue r) = Z.min want (Z.of_nat (length insts))
    ∧ delivered fst r = take (Z.to_nat want) insts
    ∧ queue_insts (TBs B) (TBQueue (frBroker r)) = drop (Z.to_nat want) insts
    ∧ (Z.of_nat (length insts) < want → TBQueue (frBroker r) = []).
Proof.
  intros HP HQ Hn Hbuf. cbn zeta. unfold wanted, fetchRegion.
  destruct (Z.eqb_spec n 0); [lia|].
  set (Size1 := if (n <? 0) || (Z.of_nat (length MCIS) <? n)
                then to_int (Z.of_nat (length MCIS)) else n).
  assert (HS : Size1 = if (n <? 0) || (Z.of_nat (length MCIS) <? n)
                       then Z.of_nat (length MCIS) else n).
  { subst Size1. destruct ((n <? 0) || (Z.of_nat (length MCIS) <? n)); [|done].
    apply to_int_small. lia. }
  assert (HS1 : 0 ≤ Size1 ≤ Z.of_nat (length MCIS)).
  { rewrite HS. destruct (Z.ltb_spec n 0); cbn; [lia|].
    destruct (Z.ltb_spec (Z.of_nat (length MCIS)) n); lia. }
  rewrite <- HS. clearbody Size1. clear HS. intros Hf.
  destruct (select_loop_selectable (TBs B) (TBQueue B) fuel Size1 [] HP)
    as (New & Q' & S' & e' & E & HN & HI1 & HI2 & HI3); [lia|lia|].
  destruct (TBQueue B) as [|s Q] eqn:EQ; [done|]. rewrite E.
  cbn [mbind outcome_bind selSelected selQueue app].
  assert (Hk : (length (queue_insts (TBs B) New) ≤ Z.to_nat Size1)%nat).
  { rewrite HI1, length_take. lia. }
  destruct (copy_slices_copyable (TBs B) Size1 fuel New
              (mkCopyState Size1 MCIS (TotalNumTraces B) MDE 0 None) HN)
    as (cp & Ec & HSz & HLc & HT); cbn [cSize cMCIS]; try lia.
  rewrite Ec. cbn [mbind outcome_bind]. eexists. split; [reflexivity|].
  cbn [frBroker frMCIS frValue]. unfold delivered. cbn [frValue frMCIS fst].
  cbn [cSize cMCIS] in *. split_and!; try done.
  - rewrite HSz, HI1, length_take. lia.
  - rewrite HT. rewrite Z.sub_diag. cbn [Z.to_nat take app]. exact HI1.
Qed.

(** X19: what a call delivers.  On a queue of slices that end within their
    blocks or begin with them, of which none but the last closes a region, a
    call delivers the instructions of the queued slices in the order of the
    queue, as many as it set out to deliver or all of them if they are
    fewer, and returns their number; the instructions it has not delivered
    are those of the slices it leaves, and it leaves no slice when it set
    out to deliver more than there were. *)
Theorem fetch_delivers_front_of_queue fuel B MCIS n MDE :
  selectable_queue (TBs B) (TBQueue B) → TBQueue B ≠ [] →
  n ≠ 0 → Z.of_nat (length MCIS) < 2 ^ 31 →
  let want := wanted (Z.of_nat (length MCIS)) n in
  let insts := queue_insts (TBs B) (TBQueue B) in
  (Z.to_nat want + length (TBQueue B) ≤ fuel)%nat →
  ∃ r, fetch fuel B MCIS n MDE = Done r
    ∧ frValue r = Z.min want (Z.of_nat (length insts))
    ∧ delivered id r = take (Z.to_nat want) insts
    ∧ queue_insts (TBs B) (TBQueue (frBroker r)) = drop (Z.to_nat want) insts
    ∧ (Z.of_nat (length insts) < want → TBQueue (frBroker r) = []).
Proof.
  intros HP HQ Hn Hbuf. cbn zeta. intros Hf.
  destruct (fetchRegion_selectable fuel B MCIS n MDE HP HQ Hn Hbuf Hf)
    as (r & E & H1 & H2 & H3 & H4).
  unfold fetch. rewrite E. cbn [mbind outcome_bind]. eexists. split; [reflexivity|].
  unfold delivered in *. cbn [frValue frMCIS frBroker id]. done.
Qed.

(** X20: the end of a drained stream.  When the end of the stream has been
    seen and a call sets out to deliver more instructions than such a queue
    holds, it delivers them all, and every later call for instructions
    returns [-1] at once, with any fuel, and changes nothing. *)
Theorem fetch_drains_then_ends fuel B MCIS n MDE :
  selectable_queue (TBs B) (TBQueue B) → TBQueue B ≠ [] → IsEndOfStream B = true →
  n ≠ 0 → Z.of_nat (length MCIS) < 2 ^ 31 →
  Z.of_nat (length (queue_insts (TBs B) (TBQueue B))) < wanted (Z.of_nat (length MCIS)) n →
  (Z.to_nat (wanted (Z.of_nat (length MCIS)) n) + length (TBQueue B) ≤ fuel)%nat →
  ∃ r, fetch fuel B MCIS n MDE = Done r
    ∧ delivered id r = queue_insts (TBs B) (TBQueue B)
    ∧ ∀ fuel' MCIS' n' MDE', n' ≠ 0 →
        fetch fuel' (frBroker r) MCIS' n' MDE'
        = Done (mkFetchResult (-1) (frBroker r) MCIS' MDE').
Proof.
  intros HP HQ HE Hn Hbuf Hall Hf.
  destruct (fetchRegion_selectable fuel B MCIS n MDE HP HQ Hn Hbuf Hf)
    as (r & E & _ & HD & _ & Hnil).
  unfold fetch at 1. rewrite E. cbn [mbind outcome_bind]. eexists. split; [reflexivity|].
  unfold delivered in *. cbn [frValue frMCIS frBroker id]. split.
  - rewrite HD. apply take_ge. lia.
  - intros fuel' MCIS' n' MDE' Hn'. specialize (Hnil Hall).
    apply fetchRegion_cases in E as (_ & HE' & _).
    unfold fetch, fetchRegion. destruct (Z.eqb_spec n' 0); [lia|].
    rewrite Hnil, HE', HE. reflexivity.
Qed.

Lemma whole_selectable Blocks (Q : list TBSlice) :
  Forall whole_slice Q → queue_registered Blocks Q → selectable_queue Blocks Q.
Proof.
  induction Q as [|s Q IH]; [done|]. intros [(Hb & He & Hr) HF]%Forall_cons HQ.
  cbn [selectable_queue]. split_and!.
  - destruct (HQ s) as [TB Hl]; [by left|]. exists TB. rewrite Hb, He.
    split_and!; [done|lia..|by right].
  - by left.
  - apply IH; [done|]. intros s' Hs'. apply HQ. by right.
Qed.

Lemma handle_message_whole fuel B m B' :
  BinRegions B = None → Forall whole_slice (TBQueue B) →
  handle_message fuel B m = Done B' →
  BinRegions B' = None ∧ Forall whole_slice (TBQueue B').
Proof.
  intros HB HW H.
  destruct (handle_message_frame fuel B m B' H) as (_ & _ & _ & F3 & _).
  split; [congruence|]. destruct m as [LoadAddr|TB|E]; cbn [handle_message] in H.
  - by injection H as <-.
  - apply addTB_cases in H as (-> & _). done.
  - apply tbExec_cases in H
      as [(_ & -> & _)|[(_ & ->)|(_ & TB0 & TB & Cur & _ & _ & _ & _ & Hq)]]; [done..|].
    cbn zeta in Hq. rewrite HB in Hq. cbn in Hq.
    destruct Hq as [[_ ->]|[_ ->]]; [done|].
    apply Forall_app. split; [done|]. apply Forall_singleton. done.
Qed.

Lemma handle_messages_whole fuel : ∀ ms B B',
  BinRegions B = None → Forall whole_slice (TBQueue B) →
  handle_messages fuel B ms = Done B' →
  BinRegions B' = None ∧ Forall whole_slice (TBQueue B').
Proof.
  induction ms as [|m ms IH]; intros B B' HB HW; cbn [handle_messages].
  - by intros [= <-].
  - destruct (handle_message fuel B m) as [B1| | |] eqn:E; cbn; try discriminate.
    apply handle_message_whole in E as [HB1 HW1]; [|done..]. by apply IH.
Qed.

Lemma receiver_whole fuel (T : @Target MCInst) ms B :
  handle_messages fuel (newBroker T None) ms = Done B →
  Forall whole_slice (TBQueue B) ∧ queue_registered (TBs B) (TBQueue B).
Proof.
  intros H. split.
  - eapply handle_messages_whole; [| |exact H]; [done|]. cbn. constructor.
  - eapply (reachable_invariant T None).
    eapply handle_messages_reachable; [apply rtc_refl|exact H].
Qed.

(** X21: what the receiver queues when no regions are declared.  Whatever
    messages it has handled since the broker was constructed, every slice in
    the queue is the open-ended slice of a whole block that is registered,
    without a region, and the queue is one of which a call delivers the
    front. *)
Theorem receiver_without_regions_queues_whole_blocks fuel (T : @Target MCInst) ms B :
  handle_messages fuel (newBroker T None) ms = Done B →
  Forall whole_slice (TBQueue B)
  ∧ queue_registered (TBs B) (TBQueue B)
  ∧ selectable_queue (TBs B) (TBQueue B).
Proof.
  intros H. apply receiver_whole in H as [HW HQ].
  split_and!; [done..|]. by apply whole_selectable.
Qed.






End FetchDelivery.

(** ** The round trip of C7 *)

Section RoundTrip.

Context {MCInst : Type} `{EqDecision MCInst}.
Implicit Types (B : @QemuBroker MCInst)
  (Blocks : list (option (@TranslationBlock MCInst))) (MCIS : list MCInst).









End RoundTrip.




(** Where the selection gets the length of a slice wrong: without regions,
    a block of two instructions is executed twice.  After two calls of
    size 1 have taken the two instructions of the first slice, what is left
    of it starts at the end of its block and stays in front of the second
    slice; the third call delivers nothing and the fifth reads past the
    block. *)
Lemma open_ended_residual_overruns :
  ∃ B B3,
    handle_messages 2 (newBroker toy_target None) twice_trace = Done B
    ∧ fetch_ones 3 3 B [0] None = Done ([144; 144], B3)
    ∧ map BeginIdx (TBQueue B3) = [3; 0]
    ∧ fetch_ones 3 5 B [0] None = Crash.
Proof.
  eexists _, _. split; [vm_compute; reflexivity|].
  split_and!; [vm_compute; reflexivity|reflexivity|vm_compute; reflexivity].
Qed.


(** ** The disassembler adapter *)

Section DisassemblerMore.

Context {MCInst : Type}.
Implicit Types (d : @Decoder MCInst) (st : @DecodeState MCInst)
  (x : @DisasmState MCInst) (TB : @TranslationBlock MCInst).

Lemma decode_step_inv d R V0 Start st st' :
  decode_step (Some d) R V0 Start st = Done (inr st') →
  ∃ MCI sz,
    d (drop (Z.to_nat (dsIndex st)) R) (u64 (V0 + dsIndex st)) = Some (MCI, sz)
    ∧ dsIndex st' = u64 (dsIndex st + (if sz =? 0 then 1 else sz))
    ∧ dsMCInsts st' = dsMCInsts st ++ [MCI]
    ∧ dsVAddrOffsets st' = dsVAddrOffsets st ++ [u8 (V0 + dsIndex st - Start)].
Proof.
  unfold decode_step. destruct (d _ _) as [[MCI sz]|] eqn:E; [|discriminate].
  intros [= <-]. cbn. eauto 6.
Qed.

(** Every decoded instruction has consumed a byte. *)
Lemma decode_loop_count d R V0 Start :
  consumes_input d → Z.of_nat (length R) < 2 ^ 64 →
  ∀ fuel st st',
    0 ≤ dsIndex st ≤ Z.of_nat (length R) →
    decode_loop fuel (Some d) R V0 Start st = Done st' →
    dsIndex st ≤ dsIndex st' ≤ Z.of_nat (length R)
    ∧ Z.of_nat (length (dsMCInsts st')) + dsIndex st
      ≤ Z.of_nat (length (dsMCInsts st)) + dsIndex st'.
Proof.
  intros Hd Hlen. induction fuel as [|fuel IH]; intros st st' Hi; cbn [decode_loop].
  - destruct (dsIndex st <? _); [discriminate|]. intros [= <-]. lia.
  - destruct (Z.ltb_spec (dsIndex st) (Z.of_nat (length R))) as [Hlt|Hge].
    2:{ intros [= <-]. lia. }
    destruct (decode_step (Some d) R V0 Start st) as [[s|s]| | |] eqn:E; cbn;
      try discriminate.
    + intros [= <-]. apply decode_step_keeps in E as ->. lia.
    + intros H.
      pose proof (decode_step_advances _ _ _ _ _ _ Hd (conj (proj1 Hi) Hlt) Hlen E) as Hadv.
      apply decode_step_grows in E as [E1 _].
      apply IH in H; [|lia]. lia.
Qed.

Lemma disasm_raws_count d Start fuel :
  consumes_input d →
  ∀ raws x x',
    Forall (λ R : RawInstTy, Z.of_nat (length R) < 2 ^ 64) raws →
    disasm_raws fuel (Some d) Start raws x = Done x' →
    Z.of_nat (length (xMCInsts x')) ≤ Z.of_nat (length (xMCInsts x)) + raw_bytes raws.
Proof.
  intros Hd. unfold raw_bytes.
  induction raws as [|R raws IH]; intros x x' HF; cbn [disasm_raws].
  - intros [= <-]. cbn. lia.
  - apply Forall_cons in HF as [Hlen HF].
    destruct (disasm_raw fuel (Some d) Start R x) as [x1| | |] eqn:E; cbn; try discriminate.
    intros H. apply IH in H; [|done].
    apply disasm_raw_inv in E as (st & E & ->). cbn in H.
    apply decode_loop_count in E as [[_ Hi] E]; [|done|done|cbn; lia]. cbn in E.
    cbn [concat]. rewrite length_app. lia.
Qed.

(** X23: no more instructions than bytes.  With a disassembler that never
    reports more bytes than it was handed, a block is decoded into at most
    as many instructions as its raw instructions have bytes. *)
Theorem decoded_no_more_than_bytes fuel T Cur TB TB' Cur' d :
  select_disassembler T Cur TB = Some d → consumes_input d →
  Forall (λ R : RawInstTy, Z.of_nat (length R) < 2 ^ 64) (RawInsts TB) →
  translated TB = false →
  disassemble fuel T Cur TB = Done (TB', Cur') →
  Z.of_nat (length (MCInsts TB')) ≤ raw_bytes (RawInsts TB).
Proof.
  intros Hsel Hd HF Htr. unfold disassemble. rewrite Htr, Hsel.
  destruct (disasm_raws _ _ _ _ _) as [x| | |] eqn:E; cbn; try discriminate.
  intros [= <- <-]. cbn. apply disasm_raws_count in E; [|done..]. cbn in E.
  unfold translated in Htr. destruct (MCInsts TB); [|done]. cbn in E. lia.
Qed.

Lemma increasing_below_mono b b' (l : list Z) :
  increasing_below b l → b ≤ b' → increasing_below b' l.
Proof.
  intros [H1 H2] Hb. split; [|done]. intros o Ho. apply H1 in Ho. lia.
Qed.

Lemma increasing_below_snoc b b' (l : list Z) a :
  increasing_below b l → 0 ≤ b ≤ a → a < b' → increasing_below b' (l ++ [a]).
Proof.
  intros [H1 H2] Hb Ha. split.
  - intros o [Ho| ->%list_elem_of_singleton]%elem_of_app; [apply H1 in Ho|]; lia.
  - intros i j x y Hij Hx Hy.
    apply lookup_lt_Some in Hy as Hj. rewrite length_app in Hj. cbn in Hj.
    rewrite lookup_app_l in Hx by lia.
    destruct (decide (j < length l)%nat).
    + rewrite lookup_app_l in Hy by lia. by apply (H2 i j).
    + rewrite lookup_app_r in Hy by lia.
      replace (j - length l)%nat with 0%nat in Hy by lia. cbn in Hy. simplify_eq.
      assert (0 ≤ x < b); [|lia]. apply H1. by eapply list_elem_of_lookup_2.
Qed.

Lemma u8_position V0 Start P i :
  (V0 - Start) mod 256 = P mod 256 → 0 ≤ P + i < 256 → u8 (V0 + i - Start) = P + i.
Proof.
  intros HP Hi. unfold u8, wrap. change (2 ^ 8) with 256.
  replace (V0 + i - Start) with ((V0 - Start) + i) by lia.
  rewrite Zplus_mod, HP, <- Zplus_mod. apply Z.mod_small. lia.
Qed.

Lemma u64_mod_256 a s : (u64 a - s) mod 256 = (a - s) mod 256.
Proof.
  unfold u64, wrap. rewrite (Z.mod_eq a (2 ^ 64)) by lia.
  replace (a - 2 ^ 64 * (a / 2 ^ 64) - s)
    with (a - s + (- (a / 2 ^ 64) * 2 ^ 56) * 256) by lia.
  apply Z_mod_plus_full.
Qed.

Lemma decode_loop_offsets d R V0 Start P :
  consumes_input d → 0 ≤ P → P + Z.of_nat (length R) ≤ 256 →
  (V0 - Start) mod 256 = P mod 256 →
  ∀ fuel st st',
    0 ≤ dsIndex st ≤ Z.of_nat (length R) →
    increasing_below (P + dsIndex st) (dsVAddrOffsets st) →
    decode_loop fuel (Some d) R V0 Start st = Done st' →
    increasing_below (P + Z.of_nat (length R)) (dsVAddrOffsets st').
Proof.
  intros Hd HP0 HP HV. induction fuel as [|fuel IH]; intros st st' Hi Hinc;
    cbn [decode_loop].
  - destruct (dsIndex st <? _); [discriminate|]. intros [= <-].
    eapply increasing_below_mono; [done|lia].
  - destruct (Z.ltb_spec (dsIndex st) (Z.of_nat (length R))) as [Hlt|Hge].
    2:{ intros [= <-]. eapply increasing_below_mono; [done|lia]. }
    destruct (decode_step (Some d) R V0 Start st) as [[s|s]| | |] eqn:E; cbn;
      try discriminate.
    + intros [= <-]. apply decode_step_keeps in E as ->.
      eapply increasing_below_mono; [done|lia].
    + intros H.
      assert (Hlen : Z.of_nat (length R) < 2 ^ 64) by lia.
      pose proof (decode_step_advances _ _ _ _ _ _ Hd (conj (proj1 Hi) Hlt) Hlen E) as Hadv.
      apply decode_step_inv in E as (MCI & sz & _ & _ & _ & Eo).
      apply (IH s st'); [lia| |done]. rewrite Eo.
      rewrite (u8_position V0 Start P (dsIndex st)) by (done || lia).
      eapply increasing_below_snoc; [done|lia|lia].
Qed.

Lemma disasm_raws_offsets d Start fuel :
  consumes_input d →
  ∀ raws x x' P,
    0 ≤ P → P + raw_bytes raws ≤ 256 →
    (xVAddr x - Start) mod 256 = P mod 256 →
    increasing_below P (xVAddrOffsets x) →
    disasm_raws fuel (Some d) Start raws x = Done x' →
    increasing_below (P + raw_bytes raws) (xVAddrOffsets x').
Proof.
  intros Hd. unfold raw_bytes.
  induction raws as [|R raws IH]; intros x x' P HP0 HP HV Hinc; cbn [disasm_raws].
  - intros [= <-]. cbn. by rewrite Z.add_0_r.
  - cbn [concat] in *. rewrite length_app in *.
    destruct (disasm_raw fuel (Some d) Start R x) as [x1| | |] eqn:E; cbn; try discriminate.
    intros H. apply disasm_raw_inv in E as (st & E & ->).
    apply (decode_loop_offsets d R (xVAddr x) Start P) in E; [|done|done|lia|done|cbn; lia|].
    2:{ cbn. by rewrite Z.add_0_r. }
    apply (IH _ _ (P + Z.of_nat (length R))) in H; cbn; [|lia|lia| |done].
    + replace (P + Z.of_nat (length R + length (concat raws))%nat)
        with (P + Z.of_nat (length R) + Z.of_nat (length (concat raws))) by lia. done.
    + rewrite u64_mod_256.
      replace (xVAddr x + Z.of_nat (length R) - Start)
        with ((xVAddr x - Start) + Z.of_nat (length R)) by lia.
      rewrite Zplus_mod, HV, <- Zplus_mod. done.
Qed.

(** X24: the offsets are the positions of the instructions.  In a block of at
    most 256 bytes, decoded by a disassembler that never reports more bytes
    than it was handed, the address offsets of the decoded instructions
    increase strictly and stay below the number of bytes of the block: no
    two instructions share an offset, as the one-byte offsets of a longer
    block may. *)
Theorem offsets_increase_within_block fuel T Cur TB TB' Cur' d :
  select_disassembler T Cur TB = Some d → consumes_input d →
  translated TB = false → VAddrOffsets TB = [] →
  raw_bytes (RawInsts TB) ≤ 256 →
  disassemble fuel T Cur TB = Done (TB', Cur') →
  increasing_below (raw_bytes (RawInsts TB)) (VAddrOffsets TB').
Proof.
  intros Hsel Hd Htr Hoff Hb. unfold disassemble. rewrite Htr, Hsel, Hoff.
  destruct (disasm_raws _ _ _ _ _) as [x| | |] eqn:E; cbn; try discriminate.
  intros [= <- <-]. cbn.
  apply (disasm_raws_offsets d _ _ Hd _ _ _ 0) in E; cbn; [|lia|lia| |].
  - by rewrite Z.add_0_l in E.
  - by rewrite Z.sub_diag.
  - split; [intros o Ho; by apply elem_of_nil in Ho|]. intros i j a b _ Ha. done.
Qed.

Lemma decode_loop_prefix Cur R V0 Start fuel : ∀ st st',
  decode_loop fuel Cur R V0 Start st = Done st' →
  dsMCInsts st `prefix_of` dsMCInsts st'.
Proof.
  induction fuel as [|fuel IH]; intros st st'; cbn [decode_loop];
    destruct (dsIndex st <? _); try discriminate; try (by intros [= <-]).
  destruct (decode_step Cur R V0 Start st) as [[s|s]| | |] eqn:E; cbn; try discriminate.
  - intros [= <-]. by apply decode_step_keeps in E as ->.
  - intros H. apply IH in H. destruct Cur as [d|]; [|done].
    apply decode_step_inv in E as (MCI & sz & _ & _ & E & _). rewrite E in H.
    etrans; [|exact H]. by apply prefix_app_r.
Qed.

Lemma disasm_raws_prefix Cur Start fuel : ∀ raws x x',
  disasm_raws fuel Cur Start raws x = Done x' →
  xMCInsts x `prefix_of` xMCInsts x'.
Proof.
  induction raws as [|R raws IH]; intros x x'; cbn [disasm_raws].
  - by intros [= <-].
  - destruct (disasm_raw fuel Cur Start R x) as [x1| | |] eqn:E; cbn; try discriminate.
    intros H. apply IH in H. apply disasm_raw_inv in E as (st & E & ->).
    apply decode_loop_prefix in E. cbn in *. by etrans.
Qed.

Lemma disasm_raws_app Cur Start fuel : ∀ l1 l2 x,
  disasm_raws fuel Cur Start (l1 ++ l2) x
  = x1 ← disasm_raws fuel Cur Start l1 x; disasm_raws fuel Cur Start l2 x1.
Proof.
  induction l1 as [|R l1 IH]; intros l2 x; cbn [app disasm_raws]; [done|].
  destruct (disasm_raw fuel Cur Start R x) as [x1| | |]; cbn; [apply IH|done..].
Qed.

(** The entries of the skew map below the index of the raw instruction at
    hand are final. *)
Lemma disasm_raws_keeps_keys Cur Start fuel : ∀ raws k x x',
  0 ≤ k → skew_ok k x →
  disasm_raws fuel Cur Start raws x = Done x' →
  k + Z.of_nat (length raws) + Z.of_nat (length (xMCInsts x')) < 2 ^ 32 →
  ∀ key, key < k → xSkewIndicies x' !! key = xSkewIndicies x !! key.
Proof.
  induction raws as [|R raws IH]; intros k x x' Hk Hx; cbn [disasm_raws].
  - by intros [= <-].
  - destruct (disasm_raw fuel Cur Start R x) as [x1| | |] eqn:E; cbn [mbind outcome_bind];
      try discriminate.
    intros H Hb key Hkey. cbn [length] in Hb.
    pose proof (disasm_raws_grows _ _ _ _ _ _ H) as (n & Hn & _).
    assert (Hx1 : skew_ok (k + 1) x1)
      by (eapply disasm_raw_skew; [exact Hk|exact Hx|exact E|lia]).
    rewrite (IH (k + 1) x1 x'); [|lia|done|done|lia|lia].
    apply disasm_raw_inv in E as (st & _ & ->). cbn.
    destruct Hx as (HI & _). destruct (0 <? xSkewIdxOffset x); [|done].
    apply lookup_insert_ne. lia.
Qed.

(** With raw instructions that all decode at their first byte, the index
    that the skew map gives to a raw instruction is the number of
    instructions decoded from the raw instructions before it. *)
Lemma disasm_raws_locates d Start fuel : ∀ raws k x x',
  0 ≤ k → skew_ok k x →
  xSkewIdxOffset x = Z.of_nat (length (xMCInsts x)) - k →
  first_decodes_succeed d (xVAddr x) raws →
  disasm_raws fuel (Some d) Start raws x = Done x' →
  k + Z.of_nat (length raws) + Z.of_nat (length (xMCInsts x')) < 2 ^ 32 →
  ∀ i : nat, (i < length raws)%nat →
    ∃ xi, disasm_raws fuel (Some d) Start (take i raws) x = Done xi
      ∧ default (k + Z.of_nat i) (xSkewIndicies x' !! (k + Z.of_nat i))
        = Z.of_nat (length (xMCInsts xi))
      ∧ (length (xMCInsts xi) < length (xMCInsts x'))%nat.
Proof.
  induction raws as [|R raws IH]; intros k x x' Hk Hx Hs Hf; cbn [disasm_raws].
  - intros _ _ i Hi. cbn in Hi. lia.
  - destruct Hf as (HR & Hd & Hf).
    destruct (disasm_raw fuel (Some d) Start R x) as [x1| | |] eqn:E; cbn [mbind outcome_bind];
      try discriminate.
    intros H Hb i Hi. cbn [length] in *.
    pose proof (disasm_raws_grows _ _ _ _ _ _ H) as (n & Hn & _).
    assert (Hx1 : skew_ok (k + 1) x1)
      by (eapply disasm_raw_skew; [exact Hk|exact Hx|exact E|lia]).
    assert (Hgrow : (length (xMCInsts x) < length (xMCInsts x1))%nat
                    ∧ xSkewIdxOffset x1 = Z.of_nat (length (xMCInsts x1)) - (k + 1)
                    ∧ xVAddr x1 = u64 (xVAddr x + Z.of_nat (length R))
                    ∧ xSkewIndicies x1 !! k
                      = if 0 <? xSkewIdxOffset x
                        then Some (u32 (k + xSkewIdxOffset x))
                        else xSkewIndicies x !! k).
    { destruct Hx as (HI & HS & _).
      apply disasm_raw_inv in E as (st & E & ->). cbn in *.
      assert (HC : counts_ok (Z.of_nat (length (xMCInsts x))) (xSkewIdxOffset x) st).
      { eapply decode_loop_counts; [exact HS| |exact E|lia]. unfold counts_ok. cbn. lia. }
      destruct HC as (HC1 & HC2 & HC3).
      apply decode_loop_first in E; [|done..]. cbn in E.
      split_and!; [lia|lia|done|].
      rewrite HI. destruct (0 <? xSkewIdxOffset x); [|done]. by rewrite lookup_insert_eq. }
    destruct Hgrow as (G1 & G2 & G3 & G4).
    destruct i as [|i].
    + exists x. split; [done|]. split; [|lia].
      rewrite Z.add_0_r.
      rewrite (disasm_raws_keeps_keys (Some d) Start fuel raws (k + 1) x1 x');
        [|lia|done|done|lia|lia].
      rewrite G4. destruct Hx as (HI & HS & HM & HN).
      destruct (Z.ltb_spec 0 (xSkewIdxOffset x)); cbn.
      * rewrite u32_small by lia. lia.
      * destruct (xSkewIndicies x !! k) as [v|] eqn:El; cbn; [|lia].
        apply HM in El. lia.
    + destruct (IH (k + 1) x1 x') with (i := i) as (xi & Ei & Li & Gi);
        [lia|done|done|by rewrite G3|done|lia|lia|].
      exists xi. cbn [take disasm_raws]. rewrite E. cbn [mbind outcome_bind].
      split; [done|]. split; [|done].
      replace (k + Z.of_nat (S i)) with (k + 1 + Z.of_nat i) by lia. done.
Qed.

(** X25: what the skew map is for.  When every raw instruction of a block is
    non-empty and decodes at its first byte, the decoded instructions are at
    least as many as the raw ones, and the index that the skew map gives to
    a raw instruction, or the index itself where the map has no entry, is
    the position of its first decoded instruction: it is the number of
    instructions that the raw instructions before it decode into, which are
    the first of the block. *)
Theorem skew_map_locates_instructions fuel T Cur TB TB' Cur' d :
  select_disassembler T Cur TB = Some d →
  first_decodes_succeed d (start_address T TB) (RawInsts TB) →
  translated TB = false → VAddrOffsets TB = [] → SkewIndicies TB = ∅ →
  disassemble fuel T Cur TB = Done (TB', Cur') →
  Z.of_nat (length (RawInsts TB)) + Z.of_nat (length (MCInsts TB')) < 2 ^ 32 →
  (length (RawInsts TB) ≤ length (MCInsts TB'))%nat
  ∧ ∀ i : nat, (i < length (RawInsts TB))%nat →
      ∃ TBi, disassemble fuel T Cur (first_raws i TB) = Done (TBi, Cur')
        ∧ skewed_index TB' (Z.of_nat i) = Z.of_nat (length (MCInsts TBi))
        ∧ MCInsts TBi `prefix_of` MCInsts TB'
        ∧ (length (MCInsts TBi) < length (MCInsts TB'))%nat.
Proof.
  intros Hsel Hfirst Htr Hoff Hfresh. unfold disassemble at 1. rewrite Htr, Hsel.
  destruct (disasm_raws _ _ _ _ _) as [x| | |] eqn:E; cbn; try discriminate.
  intros [= <- <-]. cbn. intros Hb.
  assert (HM : MCInsts TB = []) by (unfold translated in Htr; by destruct (MCInsts TB)).
  rewrite HM, Hoff, Hfresh in E.
  assert (H0 : skew_ok 0 (@mkDisasmState MCInst 0 0 (start_address T TB) [] [] ∅)).
  { unfold skew_ok. cbn. split_and!; try lia.
    - intros key v Hl. by rewrite lookup_empty in Hl.
    - intros [key [v Hl]]. by rewrite lookup_empty in Hl. }
  split.
  - pose proof (disasm_raws_skew _ _ _ _ _ _ _ (Z.le_refl 0) H0 E) as Hsk.
    cbn in Hsk. specialize (Hsk ltac:(lia)). destruct Hsk as (_ & HS & _).
    assert (Hsur : xSkewIdxOffset x
                   = Z.of_nat (length (xMCInsts x)) - (0 + Z.of_nat (length (RawInsts TB)))).
    { eapply disasm_raws_surplus; [done|exact H0| |exact Hfirst|exact E|lia]. cbn. lia. }
    lia.
  - intros i Hi.
    destruct (disasm_raws_locates d _ _ _ 0 _ _ (Z.le_refl 0) H0 eq_refl Hfirst E)
      with (i := i) as (xi & Ei & Li & Gi); [lia|done|].
    rewrite Z.add_0_l in Li.
    unfold disassemble, first_raws. cbn [translated MCInsts RawInsts VAddrOffsets SkewIndicies].
    change (select_disassembler T Cur _) with (select_disassembler T Cur TB).
    change (start_address T (mkTranslationBlock _ _ _ _ _)) with (start_address T TB).
    rewrite Hsel, Ei. cbn. eexists. split; [reflexivity|]. cbn.
    split_and!; [| |done].
    + unfold skewed_index. cbn. destruct (xSkewIndicies x !! Z.of_nat i); done.
    + rewrite <- (take_drop i (RawInsts TB)), disasm_raws_app, Ei in E. cbn in E.
      by apply disasm_raws_prefix in E.
Qed.

Lemma clear_lsb_spec a : 0 ≤ a < 2 ^ 64 → clear_lsb a = 2 * (a / 2).
Proof.
  intros Ha. unfold clear_lsb. change (2 ^ 64 - 2) with (Z.shiftl (Z.ones 63) 1).
  replace (2 * (a / 2)) with (Z.shiftl (Z.shiftr a 1) 1)
    by (rewrite Z.shiftl_mul_pow2, Z.shiftr_div_pow2 by lia; change (2 ^ 1) with 2; lia).
  apply Z.bits_inj'. intros n Hn. rewrite Z.land_spec.
  destruct (decide (n = 0)) as [->|Hn0].
  - rewrite !Z.shiftl_spec_low by lia. apply andb_false_r.
  - rewrite !Z.shiftl_spec by lia. rewrite Z.shiftr_spec by lia.
    replace (n - 1 + 1) with n by lia.
    destruct (decide (n - 1 < 63)).
    + rewrite Z.ones_spec_low by lia. apply andb_true_r.
    + rewrite Z.ones_spec_high by lia. rewrite andb_false_r.
      symmetry. apply Z.bits_above_log2; [lia|].
      destruct (decide (a = 0)) as [->|]; [cbn; lia|].
      apply Z.log2_lt_pow2; [lia|].
      apply Z.lt_le_trans with (2 ^ 64); [lia|]. apply Z.pow_le_mono_r; lia.
Qed.

(** X26: the address of a block on its first execution.  The block takes the
    address the execution reports.  On ARM and Thumb its lowest bit selects
    the disassembler, which stays selected: an odd address the one for
    Thumb, an even one the one for ARM; and the address is stored with that
    bit cleared.  On other targets the address is stored as reported and
    the disassembler is the one that was selected. *)
Theorem first_execution_sets_address fuel T Cur TB0 PC TB Cur' :
  translated TB0 = false → 0 ≤ PC < 2 ^ 64 →
  translate_on_first_exec fuel T Cur TB0 PC = Done (TB, Cur') →
  if isARM T || isThumb T
  then VAddr TB = 2 * (PC / 2)
       ∧ Cur' = (if Z.odd PC then useDisassembler T (isThumb T)
                 else useDisassembler T (isARM T))
  else VAddr TB = PC ∧ Cur' = Cur.
Proof.
  intros Htr HPC. unfold translate_on_first_exec. rewrite Htr.
  unfold disassemble.
  change (translated (set_VAddr TB0 PC)) with (translated TB0). rewrite Htr.
  destruct (disasm_raws _ _ _ _ _) as [x| | |]; cbn; try discriminate.
  unfold select_disassembler. cbn [VAddr set_VAddr].
  destruct (isARM T || isThumb T); intros [= <- <-]; cbn.
  - split; [by apply clear_lsb_spec|done].
  - done.
Qed.

Lemma disasm_raws_without_disassembler Start fuel : ∀ raws x,
  Exists (λ R : RawInstTy, R ≠ []) raws →
  disasm_raws (S fuel) (@None (@Decoder MCInst)) Start raws x = Crash.
Proof.
  induction raws as [|R raws IH]; intros x HE; [by apply Exists_nil in HE|].
  cbn [disasm_raws]. unfold disasm_raw at 1. cbn [decode_loop dsIndex].
  destruct R as [|b R].
  - apply Exists_cons in HE as [HE|HE]; [done|]. cbn. by apply IH.
  - replace (0 <? Z.of_nat (length (b :: R))) with true
      by (symmetry; apply Z.ltb_lt; cbn [length]; lia).
    done.
Qed.

(** X29: a block that needs the secondary disassembler where there is none.
    On ARM and Thumb the secondary disassembler is created only without the
    feature [mclass].  With it, the first execution of a block whose address
    selects the secondary disassembler (an even address on a Thumb triple, an
    odd one on an ARM triple) calls [getInstruction] on a null pointer as
    soon as the block has a raw instruction that is not empty. *)
Theorem mclass_block_without_disassembler fuel triple_isARM triple_isThumb
    (primary toggled : option (@Decoder MCInst)) Cur TB :
  triple_isARM || triple_isThumb = true →
  (if Z.odd (VAddr TB) then triple_isThumb else triple_isARM) = false →
  translated TB = false →
  Exists (λ R : RawInstTy, R ≠ []) (RawInsts TB) →
  disassemble (S fuel)
    (initializeDisassembler triple_isARM triple_isThumb true primary toggled) Cur TB
  = Crash
  ∧ select_disassembler
      (initializeDisassembler triple_isARM triple_isThumb false primary toggled) Cur TB
    = toggled.
Proof.
  intros Harm Hbit Htr HE. unfold disassemble, select_disassembler, initializeDisassembler.
  cbn [isARM isThumb DisAsm SecondaryDisAsm]. rewrite Htr, Harm.
  change (Z.testbit (VAddr TB) 0) with (Z.odd (VAddr TB)).
  unfold useDisassembler. cbn [DisAsm SecondaryDisAsm].
  rewrite andb_false_r, andb_true_r.
  destruct (Z.odd (VAddr TB)); rewrite Hbit.
  - split; [|done]. by rewrite disasm_raws_without_disassembler.
  - split; [|done]. by rewrite disasm_raws_without_disassembler.
Qed.

End DisassemblerMore.

(** ** The options of the plugin *)

Section PluginArgumentsProofs.

Variable trim : string → string.
Variable getAsInteger : string → option Z.

Lemma contains_app (A B : string) (C : ascii) :
  contains (A +:+ String C B) C = true.
Proof.
  induction A as [|a A IH]; simpl.
  - by rewrite Ascii.eqb_refl.
  - rewrite IH. apply orb_true_r.
Qed.

Lemma split_app (A B : string) (C : ascii) :
  contains A C = false → StringRef_split (A +:+ String C B) C = (A, B).
Proof.
  induction A as [|a A IH]; simpl.
  - intros _. by rewrite Ascii.eqb_refl.
  - intros [Ha HA]%orb_false_iff. rewrite Ha, (IH HA). done.
Qed.

Lemma parse_arguments_app o (l1 l2 : list string) :
  parse_arguments trim getAsInteger o (l1 ++ l2)
  = o' ← parse_arguments trim getAsInteger o l1; parse_arguments trim getAsInteger o' l2.
Proof.
  revert o. induction l1 as [|Arg l1 IH]; intros o; cbn [app parse_arguments]; [done|].
  destruct (parse_argument trim getAsInteger o Arg) as [o1|]; cbn; [apply IH|done].
Qed.

(** X27: the address and the port.  An argument [-host=A:P], read after any
    others, sets the address to the text between the first [=] and the
    first [:] behind it and the port to all that follows, and keeps the
    other options; without a [:] behind the [=] it changes nothing. *)
Theorem host_option_sets_address_and_port (argv : list string) (A P : string) :
  contains A ":" = false →
  plugin_options trim getAsInteger (argv ++ ["-host=" +:+ A +:+ ":" +:+ P])
  = (o ← plugin_options trim getAsInteger argv;
     Some (mkPluginOptions A P (optMaxNumConn o) (optBRManifestPath o)))
  ∧ plugin_options trim getAsInteger (argv ++ ["-host=" +:+ A])
    = plugin_options trim getAsInteger argv.
Proof.
  intros HA. unfold plugin_options. rewrite !parse_arguments_app.
  destruct (parse_arguments trim getAsInteger _ argv) as [o|]; cbn [mbind option_bind]; [|done].
  split.
  - cbn [parse_arguments]. unfold parse_argument, startswith. simpl.
    change ("" +:+ A +:+ ":" +:+ P) with (A +:+ String ":" P).
    rewrite (contains_app A P ":"), (split_app A P ":" HA). done.
  - cbn [parse_arguments]. unfold parse_argument, startswith. simpl.
    change ("" +:+ A) with A. rewrite HA. by destruct o.
Qed.

(** X28: the number of connections.  An argument
    [-max-accepted-connection=V], read after any others, sets the number to
    what [getAsInteger] makes of the trimmed text behind the first [=] and
    keeps the other options; if that is not a number the plugin exits, and
    no argument behind it is read. *)
Theorem connection_option_parses_or_exits (argv rest : list string) (V : string) :
  plugin_options trim getAsInteger (argv ++ ("-max-accepted-connection=" +:+ V) :: rest)
  = (o ← plugin_options trim getAsInteger argv;
     n ← getAsInteger (trim V);
     parse_arguments trim getAsInteger
       (mkPluginOptions (optAddr o) (optPort o) n (optBRManifestPath o)) rest).
Proof.
  unfold plugin_options. rewrite parse_arguments_app.
  destruct (parse_arguments trim getAsInteger _ argv) as [o|]; cbn [mbind option_bind]; [|done].
  cbn [parse_arguments]. unfold parse_argument, startswith. simpl.
  change ("" +:+ V) with V.
  destruct (getAsInteger (trim V)) as [n|]; simpl; done.
Qed.

End PluginArgumentsProofs.

(** ** The properties at work *)

Lemma region_opens_at_first_start_witness :
  let rr := handle_regions (Some inner_region) None 4096 decoded_at_0x1000 in
  ∃ a R, inst_address 4096 decoded_at_0x1000 (rrBeginIdx rr) = Some a
    ∧ lookup_region inner_region a = Some R
    ∧ (rrCurBinRegion rr = Some R ∧ rrRegion rr = None
       ∨ rrCurBinRegion rr = None ∧ rrRegion rr = Some R).
Proof.
  cbn zeta.
  destruct (region_opens_at_first_start inner_region 4096 decoded_at_0x1000) as [H _].
  - done.
  - cbn. lia.
  - destruct H as (_ & H & _); [vm_compute; lia|]. exact H.
Defined.

Lemma region_closes_at_end_address_witness :
  let rr := handle_regions (Some inner_region) None 4096 decoded_at_0x1000 in
  rrCurBinRegion rr = None
  ∧ 4096 ≤ VAddr decoded_at_0x1000
  ∧ 0 ≤ rrBeginIdx rr < rrEndIdx rr
  ∧ inst_address 4096 decoded_at_0x1000 (rrEndIdx rr - 1) = Some 2.
Proof.
  cbn zeta.
  destruct (region_closes_at_end_address inner_region None 4096 decoded_at_0x1000
              (mkBinaryRegion "inner" 1 2)) as [_ H].
  - done.
  - cbn. lia.
  - destruct H as (H1 & H2 & H3 & H4 & _); [reflexivity|]. done.
Defined.

Lemma fetch_count_bounds_witness :
  ∃ r, fetch 4 inner_broker [7; 7; 7] 2 None = Done r
    ∧ (frValue r = -1 ∧ 2 ≠ 0 ∧ TBQueue inner_broker = []
       ∧ IsEndOfStream inner_broker = true
       ∧ frBroker r = inner_broker ∧ frMCIS r = [7; 7; 7] ∧ frMDE r = None
       ∨ 0 ≤ frValue r ≤ Z.of_nat (length [7; 7; 7]) ∧ (0 ≤ 2 → frValue r ≤ 2)).
Proof.
  eexists. split; [vm_compute; reflexivity|].
  apply (fetch_count_bounds 4 inner_broker [7; 7; 7] 2 None).
  - cbn. lia.
  - vm_compute. split; [discriminate|reflexivity].
  - vm_compute. reflexivity.
Defined.

Lemma fetch_writes_only_delivered_witness :
  ∃ r, fetch 4 inner_broker [7; 7; 7] 2 None = Done r
    ∧ length (frMCIS r) = 3%nat
    ∧ drop (Z.to_nat (frValue r)) (frMCIS r) = drop (Z.to_nat (frValue r)) [7; 7; 7].
Proof.
  eexists. split; [vm_compute; reflexivity|].
  apply (fetch_writes_only_delivered 4 inner_broker [7; 7; 7] 2 None).
  - cbn. lia.
  - vm_compute. split; [discriminate|reflexivity].
  - vm_compute. reflexivity.
Defined.

Lemma fetch_numbers_traces_witness :
  ∃ r, fetch 4 (run_trace 1 toy_target None accessed_trace) [0; 0; 0; 0] 4
         (Some (mkMDExchanger [(1, 7)] ∅)) = Done r
    ∧ TotalNumTraces (frBroker r) = 4
    ∧ (IndexMap <$> frMDE r) = Some [(2, 2); (1, 1)].
Proof.
  eexists. split; [vm_compute; reflexivity|]. split; [|reflexivity].
  refine (proj1 (fetch_numbers_traces 4 (run_trace 1 toy_target None accessed_trace)
                   [0; 0; 0; 0] 4 (Some (mkMDExchanger [(1, 7)] ∅)) _ _ _ _ _)).
  - cbn. lia.
  - vm_compute. split; [discriminate|reflexivity].
  - vm_compute. reflexivity.
  - vm_compute. discriminate.
Defined.

Lemma fetch_consumes_queue_front_witness :
  ∃ r, fetch 4 inner_broker [7; 7; 7] 1 None = Done r
    ∧ TBs (frBroker r) = TBs inner_broker.
Proof.
  eexists. split; [vm_compute; reflexivity|].
  refine (proj1 (fetch_consumes_queue_front 4 inner_broker [7; 7; 7] 1 None _ _)).
  vm_compute. reflexivity.
Defined.

Lemma fetchRegion_reports_region_end_witness :
  ∃ r (k : nat) s R,
    fetchRegion 4 inner_broker [7; 7; 7] 2 None = Done r
    ∧ TBQueue inner_broker !! k = Some s ∧ Region s = Some R
    ∧ snd (frValue r) = EndOfRegion (Description R).
Proof.
  eexists.
  edestruct (fetchRegion_reports_region_end 4 inner_broker [7; 7; 7] 2 None)
    as (k & s & R & H1 & H2 & H3 & _).
  - vm_compute. reflexivity.
  - vm_compute. discriminate.
  - reflexivity.
  - exists k, s, R. split; [vm_compute; reflexivity|]. split_and!; [exact H1|exact H2|exact H3].
Defined.

Lemma plain_broker_received :
  handle_messages 10 (newBroker toy_target None) plain_trace = Done plain_broker.
Proof. vm_compute. reflexivity. Qed.

Lemma finished_broker_received :
  handle_messages 10 (newBroker toy_target None) finished_trace = Done finished_broker.
Proof. vm_compute. reflexivity. Qed.

Lemma plain_broker_selectable :
  selectable_queue (TBs plain_broker) (TBQueue plain_broker).
Proof.
  destruct (receiver_whole 10 toy_target plain_trace plain_broker plain_broker_received).
  by apply whole_selectable.
Qed.

Lemma finished_broker_selectable :
  selectable_queue (TBs finished_broker) (TBQueue finished_broker).
Proof.
  destruct (receiver_whole 10 toy_target finished_trace finished_broker
              finished_broker_received).
  by apply whole_selectable.
Qed.

Lemma receiver_without_regions_queues_whole_blocks_witness :
  Forall whole_slice (TBQueue plain_broker)
  ∧ queue_registered (TBs plain_broker) (TBQueue plain_broker)
  ∧ selectable_queue (TBs plain_broker) (TBQueue plain_broker).
Proof.
  apply (receiver_without_regions_queues_whole_blocks 10 toy_target plain_trace).
  exact plain_broker_received.
Defined.

Lemma fetch_delivers_front_of_queue_witness :
  ∃ r, fetch 5 plain_broker [0; 0] 2 None = Done r ∧ delivered id r = [144; 144].
Proof.
  destruct (fetch_delivers_front_of_queue 5 plain_broker [0; 0] 2 None)
    as (r & E & _ & HD & _).
  - exact plain_broker_selectable.
  - vm_compute. discriminate.
  - lia.
  - cbn. lia.
  - vm_compute. lia.
  - exists r. split; [exact E|]. rewrite HD. reflexivity.
Defined.

Lemma fetch_drains_then_ends_witness :
  ∃ r, fetch 6 finished_broker [0; 0; 0; 0] (-1) None = Done r
    ∧ delivered id r = [144; 144; 5]
    ∧ fetch 0 (frBroker r) [0] 1 None = Done (mkFetchResult (-1) (frBroker r) [0] None).
Proof.
  destruct (fetch_drains_then_ends 6 finished_broker [0; 0; 0; 0] (-1) None)
    as (r & E & HD & Hend).
  - exact finished_broker_selectable.
  - vm_compute. discriminate.
  - reflexivity.
  - lia.
  - cbn. lia.
  - vm_compute. reflexivity.
  - vm_compute. lia.
  - exists r. split; [exact E|]. split; [rewrite HD; reflexivity|].
    apply Hend. lia.
Defined.


Lemma skewed_block_decoded :
  disassemble 2 toy_target (Some toy_decoder) (newTB skewed_raws)
  = Done (skewed_TB, Some toy_decoder).
Proof. vm_compute. reflexivity. Qed.

Lemma decoded_no_more_than_bytes_witness :
  raw_bytes skewed_raws = 3
  ∧ Z.of_nat (length (MCInsts skewed_TB)) ≤ raw_bytes skewed_raws.
Proof.
  split; [reflexivity|].
  apply (decoded_no_more_than_bytes 2 toy_target (Some toy_decoder)
           (newTB skewed_raws) skewed_TB (Some toy_decoder) toy_decoder).
  - reflexivity.
  - exact toy_decoder_consumes_input.
  - repeat constructor.
  - reflexivity.
  - exact skewed_block_decoded.
Defined.

Lemma offsets_increase_within_block_witness :
  increasing_below (raw_bytes skewed_raws) (VAddrOffsets skewed_TB).
Proof.
  apply (offsets_increase_within_block 2 toy_target (Some toy_decoder)
           (newTB skewed_raws) skewed_TB (Some toy_decoder) toy_decoder).
  - reflexivity.
  - exact toy_decoder_consumes_input.
  - reflexivity.
  - reflexivity.
  - vm_compute. discriminate.
  - exact skewed_block_decoded.
Defined.

Lemma skewed_raws_decode_first :
  first_decodes_succeed toy_decoder 0 skewed_raws.
Proof. cbn. split_and!; try done; by eexists. Qed.

Lemma skew_map_locates_instructions_witness :
  ∃ TBi, disassemble 2 toy_target (Some toy_decoder) (first_raws 1 (newTB skewed_raws))
         = Done (TBi, Some toy_decoder)
    ∧ skewed_index skewed_TB 1 = Z.of_nat (length (MCInsts TBi))
    ∧ MCInsts TBi `prefix_of` MCInsts skewed_TB
    ∧ (length (MCInsts TBi) < length (MCInsts skewed_TB))%nat.
Proof.
  refine (proj2 (skew_map_locates_instructions 2 toy_target (Some toy_decoder)
                   (newTB skewed_raws) skewed_TB (Some toy_decoder) toy_decoder
                   _ _ _ _ _ _ _) 1%nat _).
  - reflexivity.
  - exact skewed_raws_decode_first.
  - reflexivity.
  - reflexivity.
  - reflexivity.
  - exact skewed_block_decoded.
  - vm_compute. reflexivity.
  - cbn. lia.
Defined.

Lemma host_option_sets_address_and_port_witness :
  plugin_options id (λ _, None) ([] ++ ["-host=" +:+ "0.0.0.0" +:+ ":" +:+ "9000"])
  = (o ← plugin_options id (λ _, None) [];
     Some (mkPluginOptions "0.0.0.0" "9000" (optMaxNumConn o) (optBRManifestPath o)))
  ∧ plugin_options id (λ _, None) ([] ++ ["-host=" +:+ "0.0.0.0"])
    = plugin_options id (λ _, None) [].
Proof.
  apply (host_option_sets_address_and_port id (λ _, None) [] "0.0.0.0" "9000").
  reflexivity.
Defined.

Lemma first_execution_sets_address_witness :
  VAddr decoded_at_0x1000 = 4096 ∧ Some toy_decoder = Some toy_decoder.
Proof.
  apply (first_execution_sets_address 2 toy_target (Some toy_decoder)
           (newTB skewed_raws) 4096 decoded_at_0x1000 (Some toy_decoder)).
  - reflexivity.
  - lia.
  - vm_compute. reflexivity.
Defined.

Lemma mclass_block_without_disassembler_witness :
  disassemble 1 thumb_mclass_target (Some toy_decoder) block_at_0x1000 = Crash
  ∧ select_disassembler
      (initializeDisassembler false true false (Some toy_decoder) (Some toy_decoder))
      (Some toy_decoder) block_at_0x1000
    = Some toy_decoder.
Proof.
  apply (mclass_block_without_disassembler 0 false true (Some toy_decoder)
           (Some toy_decoder) (Some toy_decoder) block_at_0x1000).
  - reflexivity.
  - reflexivity.
  - reflexivity.
  - apply Exists_cons_hd. done.
Defined.
